(** * Degrees of separation from Gabe Newell: the traversal engine

    A shallow embedding of [degrees-of-separation-from-gabe-newell.py].

    The program walks the Steam friend graph from an initial account and
    records, in the dictionary [finds], every target account it meets.  The
    walk is the coroutine [find] (lines 187-327): it runs on the asyncio event
    loop, suspends at [asyncio.sleep], [client.get] and [asyncio.wait], and
    shares [finds] and the sqlite database with every other running call.

    The embedding keeps that structure.  A [state] holds the shared store (the
    registry, the [friend_lists] table, a log of the effects performed) and a
    pool of tasks, each frozen at the suspension point it has reached.  [step]
    resumes one task and runs it up to its next suspension point, which is the
    unit of atomicity asyncio gives to a coroutine.  Which task is resumed
    next is a choice of the scheduler and of the network, so a run is a list
    of task indices and the properties below hold for every such list.

    Taken for granted: the database accepts every statement (its schema is
    not in the repository), the operator answers the prompt of line 205, a
    friend list read back from the database or from Steam is a list of
    objects with the keys ["steamid"] and ["relationship"], and logging has
    no effect on the run. *)

From Stdlib Require QArith.
From stdpp Require Import base numbers list strings gmap.

Set Warnings "-register-all".

(** ** Chunking (lines 27-35) *)

(** [batched] of lines 32-35.  [islice(iterator, chunk_size)] consumes the next
    [chunk_size] items; the [while] loop stops at the first empty chunk.  The
    loop runs at most once per item, hence the fuel. *)
Fixpoint batched_loop {A} (fuel : nat) (iterator : list A) (chunk_size : nat)
  : list (list A) :=
  match fuel with
  | O => []
  | S fuel' =>
    match take chunk_size iterator with
    | [] => []
    | chunk => chunk :: batched_loop fuel' (drop chunk_size iterator) chunk_size
    end
  end.

Definition batched {A} (iterable : list A) (chunk_size : nat) : list (list A) :=
  batched_loop (length iterable) iterable chunk_size.

(** ** Data model (lines 37-68, 106-112) *)

Record SteamProfile := mkSteamProfile {
  id : string;
  name : string;
  url : string }.

(** One element of [response["players"]] of GetPlayerSummaries. *)
Record player_summary := mkPlayerSummary {
  steamid_of : string;
  personaname : string;
  profileurl : string }.

Definition from_player_summaries_response (data : player_summary) : SteamProfile :=
  {| id := steamid_of data; name := personaname data; url := profileurl data |}.

Inductive Find := mkFind {
  valve_dev_steam_id : string;
  steam_id_tallies : list (list string);
  depth : Z;
  previous_depth_find : option Find }.

Fixpoint get_related_steam_ids (include_previous_depths : bool) (self : Find)
  : list string :=
  match self with
  | mkFind dev tallies _ previous =>
    let steam_ids := dev :: concat tallies in
    match previous with
    | Some previous_find =>
      if include_previous_depths
      then steam_ids ++ get_related_steam_ids include_previous_depths previous_find
      else steam_ids
    | None => steam_ids
    end
  end.

(** One element of [friendslist["friends"]] of GetFriendList. *)
Record friend := mkFriend {
  steamid : string;
  relationship : string }.

(** What [response.json()] gives for a GetFriendList response: the body is
    not JSON ([None], [json()] raises), or it is an object that has or lacks
    the key ["friendslist"]. *)
Record http_response := mkResponse {
  status_code : Z;
  json : option (option (list friend)) }.

(** The exceptions the model distinguishes. *)
Inductive exn :=
| KeyError (key : string)
| ValueError
| TransportError
| JSONDecodeError.

(** The local variable [response] of [find]: [None] (line 197), the marker
    of line 256, or the object returned by [client.get] (line 267). *)
Inductive response_slot :=
| NoResponse
| FromCache
| Http (r : http_response).

(** [FindError] (lines 106-112), with the exception it was raised [from]. *)
Record FindError := mkFindError {
  steam_id : string;
  response : response_slot;
  cause : exn }.

(** ** Command line (lines 118-171) *)

Inductive cached_only_mode := CachedAll | CachedNone | FriendsOnly | ProfilesOnly.

Record Args := mkArgs {
  initial_steam_id : string;
  max_depth : Z;
  simultaneous_requests : Z;
  request_delay : QArith_base.Q;
  shuffle_friends : bool;
  cached_only : cached_only_mode }.

(** ** The database (lines 185, 243-251, 277-280, 367-375, 401-404) *)

(** The text of a [response] column as [json.loads] sees it: [Dumped v] is
    what [json.dumps v] wrote, [Garbled] any text [json.loads] rejects. *)
Inductive json_text :=
| Garbled
| Dumped (v : option (list friend)).

(** A [response] column: SQL NULL or a text. *)
Definition column := option json_text.

(** Modelled from the spec: the schema of the tables, whose [CREATE TABLE]
    is not in the repository.  The spec's Cache Store has [Get(key)] giving a
    value or absent and [Put(key, value)], and tells a stored "no data" from
    a key never written.  A table is a sequence of rows: [INSERT] adds one at
    the end, and [SELECT ... WHERE steam_id = ?] followed by [fetchone()]
    gives the first row that matches, or [None]. *)
Definition friend_lists_table := list (string * column).

Fixpoint select_response {V} (table : list (string * V)) (key : string) : option V :=
  match table with
  | [] => None
  | row :: rows =>
    if bool_decide (row.1 = key) then Some row.2 else select_response rows key
  end.

Definition insert_row {V} (table : list (string * V)) (key : string) (v : V)
  : list (string * V) :=
  table ++ [(key, v)].

Definition json_dumps (v : option (list friend)) : json_text := Dumped v.

Definition json_loads (t : json_text) : exn + option (list friend) :=
  match t with
  | Garbled => inl JSONDecodeError
  | Dumped v => inr v
  end.

(** Line 258. *)
Definition load_cached (cached : column) : exn + option (list friend) :=
  match cached with
  | Some text => json_loads text
  | None => inr None
  end.

(** ** Calls and tasks *)

(** The [meta] dictionary: the default [{}] of the call of line 340, or the
    four keys of lines 302-307. *)
Inductive meta :=
| MetaEmpty
| MetaOf (friend_index : nat) (previous_level_friends_length : nat)
         (previous_meta : meta) (previous_was_from_cache : bool).

(** The arguments of one call of [find]. *)
Record call := mkCall {
  c_steam_id : string;
  c_steam_ids_tally : list string;
  c_depth : Z;
  c_meta : meta }.

(** A coroutine of [find], at the suspension point it has reached. *)
Inductive task :=
| Created (c : call)
    (* the coroutine object exists and is scheduled; its body has not run *)
| Sleeping (c : call)
    (* line 265, in [asyncio.sleep] *)
| Requesting (c : call) (nth : nat)
    (* line 267, in [client.get]; [nth] numbers the request *)
| Waiting (c : call) (r : response_slot) (chunk : list nat) (rest : list (list call))
    (* line 314, in [asyncio.wait] on the tasks [chunk]; [rest] are the
       chunks [batched] has still to yield *)
| Returned
| Raised (e : FindError).

(** A pool entry: the task, and the task whose line 314 created it ([None]
    for the call [main] awaits at line 340). *)
Record entry := mkEntry {
  parent : option nat;
  status : task }.

(** The effects of a run, in the order they happen. *)
Inductive event :=
| EvInput                                  (* line 205 *)
| EvSelect (key : string)                  (* line 243 *)
| EvSleep (delay : QArith_base.Q)          (* lines 265, 388 *)
| EvGet (key : string)                     (* line 267 *)
| EvInsert (key : string)                  (* line 277 *)
| EvCreateTask (by_task : nat) (task_id : nat)   (* line 314 *)
| EvExit (code : Z)                        (* lines 323, 347 *)
| EvSelectProfile (key : string)           (* line 367 *)
| EvGetProfiles (keys : list string)       (* line 394 *)
| EvInsertProfile (key : string).          (* line 401 *)

Record state := mkState {
  finds : gmap string Find;
  friend_lists : friend_lists_table;
  log : list event;
  pool : list entry;
  exit_status : option Z }.

(** What the program takes from outside the file: the command line, the
    names imported from [all_valve_employees] (line 22), the Steam Web API
    and the random generator. *)
Record Env := mkEnv {
  args : Args;
  gaben_steam_id : string;
  target_steam_ids : list string;
    (* [parse_targets(args.targets)], line 173 *)
  get_friend_list : nat → string → option http_response;
    (* the answer to the [nth] GetFriendList request; [None] when
       [client.get] raises *)
  get_player_summaries : list string → option (list player_summary);
    (* [response["players"]] of GetPlayerSummaries; [None] when the request
       or its decoding raises *)
  random_shuffle : list friend → list friend }.

Definition is_settled (t : task) : bool :=
  match t with
  | Returned | Raised _ => true
  | _ => false
  end.

Definition is_raised (t : task) : bool :=
  match t with
  | Raised _ => true
  | _ => false
  end.

Definition status_of (s : state) (j : nat) : option task :=
  status <$> pool s !! j.

Definition with_finds (f : gmap string Find) (s : state) : state :=
  mkState f (friend_lists s) (log s) (pool s) (exit_status s).

Definition with_friend_lists (t : friend_lists_table) (s : state) : state :=
  mkState (finds s) t (log s) (pool s) (exit_status s).

Definition emit (ev : event) (s : state) : state :=
  mkState (finds s) (friend_lists s) (log s ++ [ev]) (pool s) (exit_status s).

Definition set_entry (t : task) (e : entry) : entry := mkEntry (parent e) t.

Definition set_status (i : nat) (t : task) (s : state) : state :=
  mkState (finds s) (friend_lists s) (log s)
          (alter (set_entry t) i (pool s)) (exit_status s).

(** [sys.exit(code)]: [SystemExit] passes the handler of lines 324-325 and
    every enclosing one, and leaves the event loop. *)
Definition sys_exit (code : Z) (s : state) : state :=
  mkState (finds s) (friend_lists s) (log s ++ [EvExit code]) (pool s) (Some code).

(** The GetFriendList requests of a log, oldest first. *)
Definition requests (l : list event) : list string :=
  omap (λ ev, match ev with EvGet key => Some key | _ => None end) l.

(** ** The registry update (lines 207-228) *)

Definition record_find (registry : gmap string Find) (steam_id : string)
    (steam_ids_tally : list string) (at_depth : Z) : gmap string Find :=
  match registry !! steam_id with
  | None =>
    <[steam_id := mkFind steam_id [steam_ids_tally] at_depth None]> registry
  | Some previous_find =>
    if bool_decide (depth previous_find > at_depth)%Z
    then <[steam_id := mkFind steam_id [steam_ids_tally] at_depth (Some previous_find)]>
           registry
    else <[steam_id := mkFind (valve_dev_steam_id previous_find)
                              (steam_id_tallies previous_find ++ [steam_ids_tally])
                              (depth previous_find)
                              (previous_depth_find previous_find)]> registry
  end.

(** ** Neighbour filtering (lines 282-290) *)

Definition eligible (steam_id : string) (steam_ids_tally : list string) (f : friend)
  : bool :=
  bool_decide (relationship f = "friend")
  && bool_decide (steamid f ≠ steam_id)
  && (bool_decide (length steam_ids_tally < 3)
      || bool_decide (steam_id ∉ steam_ids_tally)).

Definition friends_of (steam_id : string) (steam_ids_tally : list string)
    (raw_friend_list : option (list friend)) : list friend :=
  match raw_friend_list with
  | Some l => filter (λ f, eligible steam_id steam_ids_tally f = true) l
  | None => []
  end.

(** ** The coroutine [find] (lines 187-327) *)

Section find.
Context (E : Env).

(** Lines 202-205.  The call of line 340 passes no [meta], so for it
    [meta["previous_was_from_cache"]] raises [KeyError]; elsewhere the program
    pauses on [input] unless the parent's friend list came from the cache. *)
Definition gaben_notice (c : call) (s : state) : exn + state :=
  if bool_decide (c_steam_id c = gaben_steam_id E) then
    match c_meta c with
    | MetaEmpty => inl (KeyError "previous_was_from_cache")
    | MetaOf _ _ _ previous_was_from_cache =>
      inr (if previous_was_from_cache then s else emit EvInput s)
    end
  else inr s.

(** Lines 199-228. *)
Definition target_check (c : call) (s : state) : exn + state :=
  if bool_decide (c_steam_id c ∈ target_steam_ids E) then
    match gaben_notice c s with
    | inl ex => inl ex
    | inr s' =>
      inr (with_finds (record_find (finds s') (c_steam_id c) (c_steam_ids_tally c)
                                   (c_depth c)) s')
    end
  else inr s.

(** Lines 324-327: an exception of the body leaves the call as a
    [FindError] with the call's [steam_id] and its [response] variable. *)
Definition raise (i : nat) (c : call) (r : response_slot) (ex : exn) (s : state)
  : state :=
  set_status i (Raised (mkFindError (c_steam_id c) r ex)) s.

(** Line 314: one task per coroutine of the chunk, created by task [i]. *)
Definition spawned (i : nat) (chunk : list call) : list entry :=
  (λ c, mkEntry (Some i) (Created c)) <$> chunk.

Definition create_tasks (i : nat) (chunk : list call) (s : state) : list nat * state :=
  let ids := seq (length (pool s)) (length chunk) in
  (ids,
   mkState (finds s) (friend_lists s)
           (log s ++ (EvCreateTask i <$> ids))
           (pool s ++ spawned i chunk)
           (exit_status s)).

(** The head of the loop of line 313: the next chunk is started and awaited,
    or the loop and the call are over. *)
Definition next_chunk (i : nat) (c : call) (r : response_slot)
    (chunks : list (list call)) (s : state) : state :=
  match chunks with
  | [] => set_status i Returned s
  | chunk :: rest =>
    let '(ids, s') := create_tasks i chunk s in
    set_status i (Waiting c r ids rest) s'
  end.

(** Lines 296-310. *)
Definition futures_of (c : call) (friends : list friend) (cached : bool) : list call :=
  imap (λ friend_index f,
          mkCall (steamid f) (c_steam_ids_tally c ++ [c_steam_id c]) (c_depth c + 1)
                 (MetaOf friend_index (length friends) (c_meta c) cached))
       friends.

(** Lines 282-293: the neighbours to visit, in the order of the visit. *)
Definition friends_in_order (c : call) (raw_friend_list : option (list friend))
  : list friend :=
  let friends := friends_of (c_steam_id c) (c_steam_ids_tally c) raw_friend_list in
  if shuffle_friends (args E) then random_shuffle E friends else friends.

(** Lines 282-314, from the filter to the first [asyncio.wait].  Line 27
    binds [batched] to [itertools.batched] on every interpreter that accepts
    the file (its f-strings nest their own quote, which needs 3.12): a chunk
    size below one is a [ValueError], and from one on the chunks are those of
    lines 32-35. *)
Definition expand (i : nat) (c : call) (r : response_slot)
    (raw_friend_list : option (list friend)) (cached : bool) (s : state) : state :=
  let friends := friends_in_order c raw_friend_list in
  let futures := futures_of c friends cached in
  if bool_decide (0 < length futures) then
    if bool_decide (simultaneous_requests (args E) < 1)%Z
    then raise i c r ValueError s
    else next_chunk i c r (batched futures (Z.to_nat (simultaneous_requests (args E)))) s
  else set_status i Returned s.

(** Lines 230-265: the depth cutoff and the cache lookup. *)
Definition acquire (i : nat) (c : call) (s : state) : state :=
  if bool_decide (c_depth c >= max_depth (args E))%Z then set_status i Returned s
  else
    let s := emit (EvSelect (c_steam_id c)) s in
    match select_response (friend_lists s) (c_steam_id c) with
    | Some cached =>
      match load_cached cached with
      | inl ex => raise i c FromCache ex s
      | inr raw_friend_list => expand i c FromCache raw_friend_list true s
      end
    | None =>
      match cached_only (args E) with
      | CachedAll | FriendsOnly => set_status i Returned s
      | _ => set_status i (Sleeping c) (emit (EvSleep (request_delay (args E))) s)
      end
    end.

(** Lines 197-265: a task's first run, up to its first suspension point. *)
Definition start (i : nat) (c : call) (s : state) : state :=
  match target_check c s with
  | inl ex => raise i c NoResponse ex s
  | inr s => acquire i c s
  end.

(** Line 267: the delay is over and the request leaves. *)
Definition wake (i : nat) (c : call) (s : state) : state :=
  set_status i (Requesting c (length (requests (log s)))) (emit (EvGet (c_steam_id c)) s).

(** Lines 267-314: the request is answered. *)
Definition deliver (i : nat) (c : call) (nth : nat) (s : state) : state :=
  match get_friend_list E nth (c_steam_id c) with
  | None => raise i c NoResponse TransportError s
  | Some r =>
    match json r with
    | None => raise i c (Http r) JSONDecodeError s
    | Some raw_friend_list =>
      let s := with_friend_lists
                 (insert_row (friend_lists s) (c_steam_id c)
                             (Some (json_dumps raw_friend_list))) s in
      expand i c (Http r) raw_friend_list false (emit (EvInsert (c_steam_id c)) s)
    end
  end.

(** Lines 314-323: [asyncio.wait(..., ALL_COMPLETED)] returns once every task
    of the chunk has returned or raised. *)
Definition all_completed (s : state) (chunk : list nat) : bool :=
  forallb (λ j, from_option is_settled false (status_of s j)) chunk.

Definition any_exception (s : state) (chunk : list nat) : bool :=
  existsb (λ j, from_option is_raised false (status_of s j)) chunk.

Definition resume (i : nat) (c : call) (r : response_slot) (chunk : list nat)
    (rest : list (list call)) (s : state) : option state :=
  if all_completed s chunk then
    if any_exception s chunk then Some (sys_exit 1 s)
    else Some (next_chunk i c r rest s)
  else None.

(** Line 340: nothing catches a [FindError] of the first call, and the
    interpreter ends with status 1. *)
Definition uncaught (i : nat) (s : state) : state :=
  match pool s !! i with
  | Some (mkEntry None (Raised _)) => sys_exit 1 s
  | _ => s
  end.

(** The event loop resumes task [i]; [None] when it cannot run: it is
    settled, its request or its chunk is pending, or the process has ended. *)
Definition step (i : nat) (s : state) : option state :=
  match exit_status s with
  | Some _ => None
  | None =>
    match status_of s i with
    | Some (Created c) => Some (uncaught i (start i c s))
    | Some (Sleeping c) => Some (uncaught i (wake i c s))
    | Some (Requesting c nth) => Some (uncaught i (deliver i c nth s))
    | Some (Waiting c r chunk rest) => uncaught i <$> resume i c r chunk rest s
    | Some Returned | Some (Raised _) | None => None
    end
  end.

Fixpoint run (schedule : list nat) (s : state) : option state :=
  match schedule with
  | [] => Some s
  | i :: schedule' =>
    match step i s with
    | Some s' => run schedule' s'
    | None => None
    end
  end.

(** Lines 183-185 and 340-343: an empty registry, the database as the
    previous runs left it, and the first call. *)
Definition initial (db : friend_lists_table) : state :=
  mkState ∅ db []
          [mkEntry None (Created (mkCall (initial_steam_id (args E)) [] 0 MetaEmpty))]
          None.

Definition reachable (s : state) : Prop :=
  ∃ db schedule, run schedule (initial db) = Some s.

(** Every state one step away. *)
Definition successors (s : state) : list state :=
  omap (λ i, step i s) (seq 0 (length (pool s))).

(** No task can run. *)
Definition quiescent (s : state) : Prop := successors s = [].

(** [P] holds of every quiescent state the schedules from [s] lead to, all
    of which are shorter than [fuel]. *)
Fixpoint all_runs (fuel : nat) (P : state → bool) (s : state) : bool :=
  match fuel with
  | O => false
  | S fuel' =>
    match successors s with
    | [] => P s
    | next => forallb (all_runs fuel' P) next
    end
  end.

(** The tasks that task [p] created and that have not settled. *)
Definition is_in_flight (p : nat) (s : state) (j : nat) : bool :=
  match pool s !! j with
  | Some e => bool_decide (parent e = Some p) && negb (is_settled (status e))
  | None => false
  end.

Definition in_flight (p : nat) (s : state) : list nat :=
  filter (λ j, is_in_flight p s j = true) (seq 0 (length (pool s))).

End find.

(** ** After the traversal (lines 345-411) *)

(** Modelled from the spec: the [profiles] table, under the same reading of
    the Cache Store as [friend_lists_table]; a row holds the player summary
    that line 404 dumped. *)
Definition profiles_table := list (string * player_summary).

Record resolution := mkResolution {
  mapped_steam_profiles : gmap string SteamProfile;
  profiles : profiles_table;
  resolver_log : list event;
  resolver_exit : option Z }.

(** Lines 358-361. *)
Definition related_steam_ids (registry : gmap string Find) : gset string :=
  list_to_set (concat (get_related_steam_ids true <$> (snd <$> map_to_list registry))).

(** Lines 366-384, one id: the profile the database already holds. *)
Definition cache_lookup (table : profiles_table)
    (acc : gmap string SteamProfile * gset string * list event) (steam_id : string)
  : gmap string SteamProfile * gset string * list event :=
  let '(mapped, unmapped, l) := acc in
  match select_response table steam_id with
  | Some profile_data =>
    (<[steam_id := from_player_summaries_response profile_data]> mapped,
     unmapped ∖ {[steam_id]},
     l ++ [EvSelectProfile steam_id])
  | None => (mapped, unmapped, l ++ [EvSelectProfile steam_id])
  end.

(** Lines 365-384. *)
Definition cache_pass (table : profiles_table) (ids : list string)
  : gmap string SteamProfile * gset string * list event :=
  foldl (cache_lookup table) (∅, list_to_set ids, []) ids.

(** Lines 398-409. *)
Definition store_profiles (players : list player_summary) (r : resolution) : resolution :=
  foldl (λ r profile_data,
           mkResolution
             (<[steamid_of profile_data := from_player_summaries_response profile_data]>
                (mapped_steam_profiles r))
             (insert_row (profiles r) (steamid_of profile_data) profile_data)
             (resolver_log r ++ [EvInsertProfile (steamid_of profile_data)])
             (resolver_exit r))
        r players.

Section resolver.
Context (E : Env).

(** Lines 387-409, one chunk of at most a hundred ids.  Nothing in [main]
    catches an exception of the request: the run ends with status 1. *)
Definition fetch_chunk (r : resolution) (chunk : list string) : resolution :=
  match resolver_exit r with
  | Some _ => r
  | None =>
    let l := resolver_log r ++ [EvSleep (request_delay (args E)); EvGetProfiles chunk] in
    match get_player_summaries E chunk with
    | None =>
      mkResolution (mapped_steam_profiles r) (profiles r) (l ++ [EvExit 1]) (Some 1%Z)
    | Some players =>
      store_profiles players
        (mkResolution (mapped_steam_profiles r) (profiles r) l (resolver_exit r))
    end
  end.

(** Lines 358-411. *)
Definition resolve_profiles (registry : gmap string Find) (table : profiles_table)
  : resolution :=
  let '(mapped, unmapped, l) := cache_pass table (elements (related_steam_ids registry)) in
  let r := mkResolution mapped table l None in
  match cached_only (args E) with
  | CachedAll | ProfilesOnly => r
  | _ => foldl fetch_chunk r (batched (elements unmapped) 100)
  end.

(** Lines 345-411. *)
Definition after_traversal (registry : gmap string Find) (table : profiles_table)
  : resolution :=
  if bool_decide (size registry = 0)
  then mkResolution ∅ table [EvExit 0] (Some 0%Z)
  else resolve_profiles registry table.

End resolver.

(** ** Vocabulary of the statements *)

(** The two ways lines 215-228 change the record [prior] of a target. *)
Definition replaced (key : string) (steam_ids_tally : list string) (at_depth : Z)
    (prior : Find) : Find :=
  mkFind key [steam_ids_tally] at_depth (Some prior).

Definition appended (steam_ids_tally : list string) (prior : Find) : Find :=
  mkFind (valve_dev_steam_id prior) (steam_id_tallies prior ++ [steam_ids_tally])
         (depth prior) (previous_depth_find prior).

(** The events of a cache miss: the delay, the request and the new row. *)
Definition is_traffic (ev : event) : bool :=
  match ev with
  | EvSleep _ | EvGet _ | EvInsert _ => true
  | _ => false
  end.

(** The calls a task holds: its own, and the coroutines it has not yet
    turned into tasks. *)
Definition task_calls (t : task) : list call :=
  match t with
  | Created c | Sleeping c | Requesting c _ => [c]
  | Waiting c _ _ rest => c :: concat rest
  | Returned | Raised _ => []
  end.

Definition all_calls (s : state) : list call :=
  pool s ≫= λ e, task_calls (status e).

(** Lines 295-301: a call made from the call [c]. *)
Definition child_of (c c' : call) : Prop :=
  c_steam_ids_tally c' = c_steam_ids_tally c ++ [c_steam_id c]
  ∧ c_depth c' = (c_depth c + 1)%Z.

(** The depth of a call is the length of its chain. *)
Definition depth_is_length (c : call) : Prop :=
  c_depth c = Z.of_nat (length (c_steam_ids_tally c)).

(** ** Invariants of the pool *)

(** What one run of a task may leave in its pool entry, with the coroutines
    it turned into tasks: it never goes back to [Created], and only a task
    that awaits a chunk has created one. *)
Definition after_run (n : nat) (pool_before : list entry) (t : task) (chunk : list call)
  : Prop :=
  match t with
  | Created _ => False
  | Waiting _ _ ids rest =>
    ids = seq (length pool_before) (length chunk)
    ∧ Forall (λ ch, 0 < length ch ≤ n) (chunk :: rest)
  | _ => chunk = []
  end.

(** Every awaited chunk, and every chunk still to come, has one to [n] tasks. *)
Definition chunks_bounded (n : nat) (s : state) : Prop :=
  ∀ p c r chunk rest,
    status_of s p = Some (Waiting c r chunk rest) →
    0 < length chunk ≤ n ∧ Forall (λ ch, 0 < length ch ≤ n) rest.

(** A task that has not settled belongs to the chunk its creator awaits. *)
Definition children_awaited (s : state) : Prop :=
  ∀ j e p,
    pool s !! j = Some e → parent e = Some p → is_settled (status e) = false →
    ∃ c r chunk rest, status_of s p = Some (Waiting c r chunk rest) ∧ j ∈ chunk.

(** A task's creator is an older task; the first call alone has none. *)
Definition parents_older (s : state) : Prop :=
  ∀ j e, pool s !! j = Some e →
         match parent e with
         | None => j = 0
         | Some p => p < j
         end.

(** While the process runs, a task that has raised belongs to the chunk its
    creator awaits. *)
Definition raised_awaited (s : state) : Prop :=
  exit_status s = None →
  ∀ j e p err,
    pool s !! j = Some e → parent e = Some p → status e = Raised err →
    ∃ c r chunk rest, status_of s p = Some (Waiting c r chunk rest) ∧ j ∈ chunk.

(** The traversal ends the process with status 1 only, and does so when
    the first call raises. *)
Definition exit_is_failure (s : state) : Prop :=
  (∀ code, exit_status s = Some code → code = 1%Z)
  ∧ (∀ e, status_of s 0 = Some (Raised e) → exit_status s = Some 1%Z).

(** ** Worlds *)

Definition friends_named (ids : list string) : list friend :=
  (λ key, mkFriend key "friend") <$> ids.

(** A Steam that answers every request with the friend list [graph] gives
    the account, and with a body without ["friendslist"] when it gives none. *)
Definition steam_of (graph : list (string * list string)) (nth : nat) (key : string)
  : option http_response :=
  Some (mkResponse 200 (Some (friends_named <$> select_response graph key))).

(** A world with the defaults of lines 147-164 ([--request_delay] of 2/3 s,
    no shuffle, [--cached_only none]): the given initial account,
    [--max_depth], [--simultaneous_requests], targets and friend lists.
    Gabe Newell's id is none of the accounts of the graphs below. *)
Definition world (initial : string) (depth : Z) (n : Z) (targets : list string)
    (graph : list (string * list string)) : Env :=
  mkEnv (mkArgs initial depth n (QArith_base.Qmake 2 3) false CachedNone)
        "76561197960287930" targets (steam_of graph) (λ _, None) (λ l, l).

(** The same world under another [--max_depth]. *)
Definition with_max_depth (d : Z) (E : Env) : Env :=
  mkEnv (mkArgs (initial_steam_id (args E)) d (simultaneous_requests (args E))
                (request_delay (args E)) (shuffle_friends (args E)) (cached_only (args E)))
        (gaben_steam_id E) (target_steam_ids E) (get_friend_list E)
        (get_player_summaries E) (random_shuffle E).

(** The same world under another [--cached_only]. *)
Definition with_cached_only (mode : cached_only_mode) (E : Env) : Env :=
  mkEnv (mkArgs (initial_steam_id (args E)) (max_depth (args E))
                (simultaneous_requests (args E)) (request_delay (args E))
                (shuffle_friends (args E)) mode)
        (gaben_steam_id E) (target_steam_ids E) (get_friend_list E)
        (get_player_summaries E) (random_shuffle E).

(** The same world with a Steam that cannot be reached. *)
Definition unplugged (E : Env) : Env :=
  mkEnv (args E) (gaben_steam_id E) (target_steam_ids E) (λ _ _, None)
        (get_player_summaries E) (random_shuffle E).

(** A: B, C; B: D; C: D. *)
Definition diamond : list (string * list string) :=
  [("A", ["B"; "C"]); ("B", ["D"]); ("C", ["D"])].

(** Four accounts in a ring, each the friend of its two neighbours. *)
Definition ring : list (string * list string) :=
  [("A", ["B"; "D"]); ("B", ["A"; "C"]); ("C", ["B"; "D"]); ("D", ["C"; "A"])].

(** The first call is on Gabe Newell's id, which is a target. *)
Definition from_gabe : Env :=
  world "76561197960287930" 6 2 ["76561197960287930"] diamond.

(** The end of the diamond scenario: the process runs, the first call has
    returned, and the registry holds one record, of ["D"] at depth 2, with
    the chains through ["B"] and through ["C"], in either order. *)
Definition diamond_outcome (s : state) : bool :=
  match exit_status s, status_of s 0, map_to_list (finds s) with
  | None, Some Returned, [(key, mkFind dev tallies d None)] =>
    bool_decide (key = "D") && bool_decide (dev = "D") && bool_decide (d = 2%Z)
    && (bool_decide (tallies = [["A"; "B"]; ["A"; "C"]])
        || bool_decide (tallies = [["A"; "C"]; ["A"; "B"]]))
  | _, _, _ => false
  end.

(** The end of a run on a database that has the friend list of ["A"]
    alone: nothing was requested, and ["B"] was found through ["A"]. *)
Definition cached_outcome (s : state) : bool :=
  match requests (log s), map_to_list (finds s) with
  | [], [(key, mkFind dev tallies d None)] =>
    bool_decide (key = "B") && bool_decide (dev = "B") && bool_decide (d = 1%Z)
    && bool_decide (tallies = [["A"]])
  | _, _ => false
  end.

(** ** Targets (lines 78-104) *)

(** An item of the lists [flatten] is given: a string, or a list or set of
    strings. *)
Inductive target_item :=
| One (s : string)
| Several (l : list string).

(** Lines 79-84. *)
Definition _flatten (current : list string) (item : target_item) : list string :=
  match item with
  | Several l => current ++ l
  | One s => current ++ [s]
  end.

(** Lines 78-86. *)
Definition flatten (value : list target_item) : list string := foldl _flatten [] value.

(** [s.split(sep)] for a separator of one character: the pieces between the
    separators, empty ones included, so at least one piece. *)
Fixpoint str_split (sep : Ascii.ascii) (s : string) : list string :=
  match s with
  | EmptyString => [EmptyString]
  | String a s' =>
    if bool_decide (a = sep) then EmptyString :: str_split sep s'
    else match str_split sep s' with
         | piece :: pieces => String a piece :: pieces
         | [] => [String a EmptyString]
         end
  end.

(** The character occurs in the string. *)
Fixpoint str_mentions (a : Ascii.ascii) (s : string) : bool :=
  match s with
  | EmptyString => false
  | String b s' => bool_decide (b = a) || str_mentions a s'
  end.

(** The character of the string [","]. *)
Definition comma : Ascii.ascii := Ascii.Ascii false false true true false true false false.

Section targets.
Context (E : Env).

(** [all_public_valve_employees_steam_ids] of the module [all_valve_employees]
    (line 22), which is not in the repository; modelled from the spec, where
    the alias stands for a list of ids. *)
Context (all_public_valve_employees_steam_ids : list string).

(** Lines 90-93. *)
Definition special_values : gmap string target_item :=
  {[ "GabeNewell" := One (gaben_steam_id E);
     "OtherValveEmployees" := Several all_public_valve_employees_steam_ids ]}.

(** Lines 89-104. *)
Definition parse_targets (value : list string) : list string :=
  let value := flatten ((λ item, Several (str_split comma item)) <$> value) in
  let value := (λ item, match special_values !! item with
                        | Some special => special
                        | None => One item
                        end) <$> value in
  flatten value.

End targets.

(** ** Records and their history *)

(** A record and the records it has replaced, the latest first. *)
Fixpoint find_history (self : Find) : list Find :=
  self :: match self with
          | mkFind _ _ _ (Some previous_find) => find_history previous_find
          | mkFind _ _ _ None => []
          end.

(** Every chain recorded for a target, whatever its depth. *)
Definition find_chains (self : Find) : list (list string) :=
  find_history self ≫= steam_id_tallies.

(** The shape lines 207-228 give a record of the target [key]: a first chain
    as long as the depth, then chains at least that long, and behind it the
    record of a greater depth that it replaced. *)
Fixpoint well_formed (key : string) (self : Find) : Prop :=
  match self with
  | mkFind dev tallies d previous =>
    dev = key
    ∧ (∃ first others,
         tallies = first :: others ∧ d = Z.of_nat (length first)
         ∧ Forall (λ chain, (d ≤ Z.of_nat (length chain))%Z) others)
    ∧ match previous with
      | Some previous_find => (d < depth previous_find)%Z ∧ well_formed key previous_find
      | None => True
      end
  end.

(** ** The tree of calls *)

(** Lines 282-310: [c'] is one of the coroutines the call [c] builds. *)
Definition made_by (E : Env) (c c' : call) : Prop :=
  ∃ raw_friend_list cached,
    c' ∈ futures_of c (friends_in_order E c raw_friend_list) cached.

(** [Q] holds of the call of a task and of the coroutines it still holds,
    which are its own; a task past line 231 is below [--max_depth]. *)
Definition task_inv (E : Env) (Q : call → Prop) (t : task) : Prop :=
  match t with
  | Created c => Q c
  | Sleeping c | Requesting c _ => Q c ∧ (c_depth c < max_depth (args E))%Z
  | Waiting c _ _ rest =>
    Q c ∧ (c_depth c < max_depth (args E))%Z ∧ Forall (made_by E c) (concat rest)
  | Returned | Raised _ => True
  end.

Definition pool_inv (E : Env) (Q : call → Prop) (s : state) : Prop :=
  Forall (λ e, task_inv E Q (status e)) (pool s).

(** Every chain of the registry is the chain of a call on the target that
    satisfies [Q]. *)
Definition registry_inv (E : Env) (Q : call → Prop) (s : state) : Prop :=
  ∀ key f chain,
    finds s !! key = Some f → chain ∈ find_chains f →
    key ∈ target_steam_ids E
    ∧ ∃ c, Q c ∧ c_steam_id c = key ∧ c_steam_ids_tally c = chain.

(** The accounts a call has walked through, its own last. *)
Definition path (c : call) : list string := c_steam_ids_tally c ++ [c_steam_id c].

(** The call's depth is the length of its chain, within [--max_depth]. *)
Definition within_max_depth (E : Env) (c : call) : Prop :=
  depth_is_length c ∧ length (c_steam_ids_tally c) ≤ Z.to_nat (max_depth (args E)).

(** The call's path starts at the initial account. *)
Definition from_initial (E : Env) (c : call) : Prop :=
  head (path c) = Some (initial_steam_id (args E)).

(** No two neighbours of the list are equal. *)
Definition no_step_in_place (l : list string) : Prop :=
  ∀ j x y, l !! j = Some x → l !! S j = Some y → x ≠ y.

(** From the fourth on, an item is none of those before it. *)
Definition new_from_fourth (l : list string) : Prop :=
  ∀ j x, 3 ≤ j → l !! j = Some x → x ∉ take j l.

Definition guarded (c : call) : Prop :=
  no_step_in_place (path c) ∧ new_from_fourth (c_steam_ids_tally c).

(** No task sleeps or has a request under way. *)
Definition offline (t : task) : bool :=
  match t with
  | Sleeping _ | Requesting _ _ => false
  | _ => true
  end.

(** ** After the traversal: vocabulary *)

(** The ids of the GetPlayerSummaries requests of a log, oldest first. *)
Definition profile_requests (l : list event) : list (list string) :=
  omap (λ ev, match ev with EvGetProfiles keys => Some keys | _ => None end) l.

(** The ids looked up in the [profiles] table. *)
Definition profile_lookups (l : list event) : list string :=
  omap (λ ev, match ev with EvSelectProfile key => Some key | _ => None end) l.

(** The ids of the rows written to the [profiles] table. *)
Definition profile_inserts (l : list event) : list string :=
  omap (λ ev, match ev with EvInsertProfile key => Some key | _ => None end) l.

(** Lines 415-416. *)
Definition get_steam_profile_name (mapped_steam_profiles : gmap string SteamProfile)
    (steam_id : string) : string :=
  match mapped_steam_profiles !! steam_id with
  | Some profile => name profile
  | None => steam_id
  end.

(** A Steam whose GetPlayerSummaries answers with a public profile for each
    id asked. *)
Definition public_profiles (keys : list string) : option (list player_summary) :=
  Some ((λ key, mkPlayerSummary key ("name of " +:+ key)
                                  ("https://steamcommunity.com/profiles/" +:+ key))
          <$> keys).

Definition with_profiles (answer : list string → option (list player_summary)) (E : Env)
  : Env :=
  mkEnv (args E) (gaben_steam_id E) (target_steam_ids E) (get_friend_list E)
        answer (random_shuffle E).

(** A run that has found ["D"] through ["A"] and ["B"], a [profiles] table
    that has ["A"], and a Steam that knows everybody. *)
Definition found_D : gmap string Find := {[ "D" := mkFind "D" [["A"; "B"]] 2 None ]}.

Definition knows_A : profiles_table := [("A", mkPlayerSummary "A" "Alice" "https://a")].

Definition everybody_public : Env :=
  with_profiles public_profiles (world "A" 3 2 ["D"] diamond).

(** Every task of the pool is [offline]. *)
Definition all_offline (s : state) : Prop :=
  Forall (λ e, offline (status e) = true) (pool s).

(** Every record of the registry is of a target and [well_formed]. *)
Definition registry_well_formed (E : Env) (s : state) : Prop :=
  ∀ key f, finds s !! key = Some f → key ∈ target_steam_ids E ∧ well_formed key f.

(** The request of a task that waits for an answer is, in the log, the
    one the task is numbered with. *)
Definition requests_numbered (s : state) : Prop :=
  ∀ j c nth, status_of s j = Some (Requesting c nth) →
             requests (log s) !! nth = Some (c_steam_id c).

(** The rows a run has added to the table [db]: each under an id that was
    requested, each a JSON text. *)
Definition rows_requested (db : friend_lists_table) (s : state) : Prop :=
  ∃ rows, friend_lists s = db ++ rows
          ∧ Forall (λ row, row.1 ∈ requests (log s)
                           ∧ ∃ raw_friend_list, row.2 = Some (json_dumps raw_friend_list))
                   rows.

(** The tasks that sleep or wait for an answer, and the requests sent, are
    for accounts the table [db] had no row for. *)
Definition misses_only (db : friend_lists_table) (s : state) : Prop :=
  (∀ j c, status_of s j = Some (Sleeping c) → select_response db (c_steam_id c) = None)
  ∧ (∀ j c nth, status_of s j = Some (Requesting c nth) →
                select_response db (c_steam_id c) = None)
  ∧ (∀ key, key ∈ requests (log s) → select_response db key = None).

(** The same world with [--shuffle_friends], under a generator that turns
    every list around. *)
Definition shuffling (E : Env) : Env :=
  mkEnv (mkArgs (initial_steam_id (args E)) (max_depth (args E))
                (simultaneous_requests (args E)) (request_delay (args E))
                true (cached_only (args E)))
        (gaben_steam_id E) (target_steam_ids E) (get_friend_list E)
        (get_player_summaries E) reverse.

(** The tasks a task awaits are in the pool and were created after it. *)
Definition chunks_younger (s : state) : Prop :=
  ∀ p c r chunk rest,
    status_of s p = Some (Waiting c r chunk rest) →
    ∀ j, j ∈ chunk → p < j < length (pool s).

(** The record of a target found by the first call: the empty chain first,
    depth 0, nothing replaced. *)
Definition found_at_once (key : string) (f : Find) : Prop :=
  ∃ others, f = mkFind key ([] :: others) 0 None.

(** The delays a log has slept, oldest first. *)
Definition sleeps (l : list event) : list QArith_base.Q :=
  omap (λ ev, match ev with EvSleep delay => Some delay | _ => None end) l.

Definition is_asleep (t : task) : bool :=
  match t with
  | Sleeping _ => true
  | _ => false
  end.

(** How many tasks of the pool are in [asyncio.sleep]. *)
Definition asleep (l : list entry) : nat :=
  length (filter (λ e, is_asleep (status e) = true) l).

(** * Properties *)

(** ** Chunking *)

Lemma batched_loop_sizes {A} fuel (l : list A) n :
  Forall (λ chunk, 0 < length chunk ≤ n) (batched_loop fuel l n).
Proof.
  revert l. induction fuel as [|fuel IH]; intros l; simpl; [constructor|].
  destruct (take n l) as [|x chunk] eqn:Htake; constructor; [|apply IH].
  rewrite <-Htake, length_take. split; [|lia].
  apply (f_equal length) in Htake. rewrite length_take in Htake. simpl in *; lia.
Qed.

Lemma take_nil_inv {A} n (l : list A) : 0 < n → take n l = [] → l = [].
Proof. destruct n, l; simpl; intros; try done; lia. Qed.

Lemma batched_loop_concat {A} fuel (l : list A) n :
  0 < n → length l ≤ fuel → concat (batched_loop fuel l n) = l.
Proof.
  intros Hn. revert l. induction fuel as [|fuel IH]; intros l Hl; simpl.
  - destruct l; [done | simpl in Hl; lia].
  - destruct (take n l) as [|x chunk] eqn:Htake.
    + symmetry. by apply (take_nil_inv n).
    + rewrite concat_cons, IH.
      * rewrite <-Htake. apply take_drop.
      * rewrite length_drop. destruct l; [by rewrite take_nil in Htake|].
        simpl in Hl |- *. lia.
Qed.

Lemma batched_loop_length {A} fuel (l : list A) n :
  0 < n → length l ≤ fuel → length (batched_loop fuel l n) = (length l + n - 1) / n.
Proof.
  intros Hn. revert l. induction fuel as [|fuel IH]; intros l Hl.
  - destruct l; [|simpl in Hl; lia]. simpl length.
    symmetry. apply Nat.div_small. lia.
  - cbn [batched_loop]. destruct (take n l) as [|x chunk] eqn:Htake.
    + apply (take_nil_inv n) in Htake as ->; [|done]. simpl length.
      symmetry. apply Nat.div_small. lia.
    + assert (0 < length l) by (destruct l; [by rewrite take_nil in Htake|simpl; lia]).
      cbn [length]. rewrite IH by (rewrite length_drop; lia).
      rewrite length_drop.
      destruct (decide (n ≤ length l)) as [Hle|Hgt].
      * replace (length l + n - 1) with ((length l - n + n - 1) + 1 * n) by lia.
        rewrite Nat.div_add by lia. lia.
      * replace (length l - n + n - 1) with (n - 1) by lia.
        rewrite (Nat.div_small (n - 1)) by lia.
        replace (length l + n - 1) with ((length l - 1) + 1 * n) by lia.
        rewrite Nat.div_add by lia. rewrite Nat.div_small by lia. done.
Qed.

(** The fuel [batched] gives its loop is enough: more changes nothing. *)
Lemma batched_loop_fuel {A} fuel (l : list A) n :
  length l ≤ fuel → batched_loop fuel l n = batched l n.
Proof.
  unfold batched. revert l. induction fuel as [|fuel IH]; intros l Hl.
  - destruct l; simpl in *; [done|lia].
  - destruct l as [|a l]; [by destruct n|].
    simpl length. simpl batched_loop.
    destruct (take n (a :: l)) as [|x chunk] eqn:Htake; [done|].
    f_equal. destruct n as [|n]; [done|]. simpl drop.
    rewrite IH by (rewrite length_drop; simpl in *; lia).
    clear IH Htake.
    assert (Hfuel : ∀ f1 f2 (k : list A), length k ≤ f1 → length k ≤ f2 →
               batched_loop f1 k (S n) = batched_loop f2 k (S n)).
    { induction f1 as [|f1 IH1]; intros f2 k H1 H2.
      - destruct k; simpl in *; [by destruct f2|lia].
      - destruct f2 as [|f2]; [destruct k; simpl in *; [done|lia]|].
        destruct k as [|b k]; [done|]. simpl.
        f_equal. apply IH1; rewrite length_drop; simpl in *; lia. }
    apply Hfuel; rewrite length_drop; simpl in *; lia.
Qed.

(** ** The registry update *)

Lemma record_find_lookup registry key tally d :
  record_find registry key tally d !! key =
  Some match registry !! key with
       | None => mkFind key [tally] d None
       | Some prior =>
         if bool_decide (depth prior > d)%Z
         then mkFind key [tally] d (Some prior)
         else mkFind (valve_dev_steam_id prior) (steam_id_tallies prior ++ [tally])
                     (depth prior) (previous_depth_find prior)
       end.
Proof.
  unfold record_find. destruct (registry !! key) as [prior|];
    [case_bool_decide|]; by rewrite lookup_insert_eq.
Qed.

Lemma record_find_lookup_ne registry key tally d key' :
  key ≠ key' → record_find registry key tally d !! key' = registry !! key'.
Proof.
  intros Hne. unfold record_find. destruct (registry !! key) as [prior|];
    [case_bool_decide|]; by rewrite lookup_insert_ne.
Qed.

Section find_facts.
Context (E : Env).
Implicit Types (s : state) (c : call) (i j : nat) (t : task).

(** *** What a step leaves alone *)

Lemma status_of_set_status i j t s :
  status_of (set_status i t s) j
  = if decide (i = j) then (λ _, t) <$> status_of s j else status_of s j.
Proof.
  unfold status_of, set_status; simpl. case_decide as Hij.
  - subst. rewrite list_lookup_alter_eq. by destruct (pool s !! j).
  - by rewrite list_lookup_alter_ne.
Qed.

Lemma status_of_lt s i t : status_of s i = Some t → i < length (pool s).
Proof.
  unfold status_of. intros H. apply lookup_lt_is_Some.
  destruct (pool s !! i); [eauto | done].
Qed.

Lemma finds_uncaught i s : finds (uncaught i s) = finds s.
Proof. unfold uncaught. by repeat case_match. Qed.

Lemma friend_lists_uncaught i s : friend_lists (uncaught i s) = friend_lists s.
Proof. unfold uncaught. by repeat case_match. Qed.

Lemma pool_uncaught i s : pool (uncaught i s) = pool s.
Proof. unfold uncaught. by repeat case_match. Qed.

Lemma status_of_uncaught i j s : status_of (uncaught i s) j = status_of s j.
Proof. unfold status_of. by rewrite pool_uncaught. Qed.

Lemma log_uncaught i s :
  log (uncaught i s) = log s ∨ log (uncaught i s) = log s ++ [EvExit 1].
Proof. unfold uncaught. repeat case_match; auto. Qed.

Lemma finds_next_chunk i c r chunks s : finds (next_chunk i c r chunks s) = finds s.
Proof. by destruct chunks. Qed.

Lemma friend_lists_next_chunk i c r chunks s :
  friend_lists (next_chunk i c r chunks s) = friend_lists s.
Proof. by destruct chunks. Qed.

Lemma exit_status_next_chunk i c r chunks s :
  exit_status (next_chunk i c r chunks s) = exit_status s.
Proof. by destruct chunks. Qed.

Lemma log_next_chunk i c r chunks s :
  log (next_chunk i c r chunks s)
  = log s ++ (EvCreateTask i <$> seq (length (pool s)) (length (default [] (head chunks)))).
Proof. destruct chunks; simpl; [by rewrite app_nil_r | done]. Qed.

Lemma finds_expand i c r raw cached s : finds (expand E i c r raw cached s) = finds s.
Proof. unfold expand. repeat case_decide; simpl; auto using finds_next_chunk. Qed.

Lemma friend_lists_expand i c r raw cached s :
  friend_lists (expand E i c r raw cached s) = friend_lists s.
Proof. unfold expand. repeat case_decide; simpl; auto using friend_lists_next_chunk. Qed.

Lemma exit_status_expand i c r raw cached s :
  exit_status (expand E i c r raw cached s) = exit_status s.
Proof. unfold expand. repeat case_decide; simpl; auto using exit_status_next_chunk. Qed.

Lemma log_expand i c r raw cached s :
  ∃ ids, log (expand E i c r raw cached s) = log s ++ (EvCreateTask i <$> ids).
Proof.
  unfold expand. repeat case_decide; simpl;
    try (exists []; simpl; by rewrite app_nil_r).
  eexists. apply log_next_chunk.
Qed.

Lemma target_check_inr c s s1 :
  target_check E c s = inr s1 →
  friend_lists s1 = friend_lists s ∧ pool s1 = pool s ∧ exit_status s1 = exit_status s
  ∧ (log s1 = log s ∨ log s1 = log s ++ [EvInput])
  ∧ finds s1 = if bool_decide (c_steam_id c ∈ target_steam_ids E)
               then record_find (finds s) (c_steam_id c) (c_steam_ids_tally c) (c_depth c)
               else finds s.
Proof.
  unfold target_check, gaben_notice. intros H.
  repeat case_match; simplify_eq/=; auto 10.
Qed.

Lemma target_check_inl c s ex :
  target_check E c s = inl ex →
  c_steam_id c ∈ target_steam_ids E ∧ c_steam_id c = gaben_steam_id E
  ∧ c_meta c = MetaEmpty ∧ ex = KeyError "previous_was_from_cache".
Proof.
  unfold target_check, gaben_notice. intros H.
  repeat case_match; simplify_eq/=; repeat case_bool_decide; done.
Qed.

Lemma finds_acquire i c s : finds (acquire E i c s) = finds s.
Proof. unfold acquire. repeat case_match; simpl; try done; by rewrite finds_expand. Qed.

Lemma friend_lists_acquire i c s : friend_lists (acquire E i c s) = friend_lists s.
Proof.
  unfold acquire. repeat case_match; simpl; try done; by rewrite friend_lists_expand.
Qed.

Lemma exit_status_acquire i c s : exit_status (acquire E i c s) = exit_status s.
Proof.
  unfold acquire. repeat case_match; simpl; try done; by rewrite exit_status_expand.
Qed.

(** The registry changes only in the first run of a call on a target, and
    then by [record_find]. *)
Lemma step_finds i s s' :
  step E i s = Some s' →
  finds s' = finds s
  ∨ ∃ c, status_of s i = Some (Created c) ∧ c_steam_id c ∈ target_steam_ids E
         ∧ finds s' = record_find (finds s) (c_steam_id c) (c_steam_ids_tally c) (c_depth c).
Proof.
  unfold step. destruct (exit_status s); [done|].
  destruct (status_of s i) as [[c|c|c nth|c r chunk rest| |e]|] eqn:Hi; try done;
    intros ?; simplify_eq.
  - rewrite finds_uncaught. unfold start.
    destruct (target_check E c s) as [ex|s1] eqn:Htc; [by left|].
    apply target_check_inr in Htc as (_ & _ & _ & _ & Hf).
    rewrite finds_acquire, Hf. case_bool_decide; eauto.
  - left. by rewrite finds_uncaught.
  - left. rewrite finds_uncaught. unfold deliver.
    repeat case_match; simpl; try done. by rewrite finds_expand.
  - left. unfold resume in *. repeat case_match; simplify_eq/=;
      rewrite finds_uncaught; [done|]. by rewrite finds_next_chunk.
Qed.

(** The table changes only when a request is answered, and then by one
    row at its end. *)
Lemma step_friend_lists i s s' :
  step E i s = Some s' →
  friend_lists s' = friend_lists s
  ∨ ∃ c nth r raw,
      status_of s i = Some (Requesting c nth)
      ∧ get_friend_list E nth (c_steam_id c) = Some r ∧ json r = Some raw
      ∧ friend_lists s' = insert_row (friend_lists s) (c_steam_id c) (Some (json_dumps raw)).
Proof.
  unfold step. destruct (exit_status s); [done|].
  destruct (status_of s i) as [[c|c|c nth|c r chunk rest| |e]|] eqn:Hi; try done;
    intros ?; simplify_eq; rewrite ?friend_lists_uncaught.
  - left. unfold start. destruct (target_check E c s) as [ex|s1] eqn:Htc; [done|].
    apply target_check_inr in Htc as (Hf & _). by rewrite friend_lists_acquire.
  - by left.
  - unfold deliver.
    destruct (get_friend_list E nth (c_steam_id c)) as [r|] eqn:Hget; [|by left].
    destruct (json r) as [raw|] eqn:Hjson; [|by left].
    right. exists c, nth, r, raw. by rewrite friend_lists_expand.
  - left. unfold resume in *. repeat case_match; simplify_eq/=;
      rewrite friend_lists_uncaught; [done|]. by rewrite friend_lists_next_chunk.
Qed.

(** Induction along a run. *)
Lemma run_ind (P : state → Prop) :
  (∀ i s s', step E i s = Some s' → P s → P s') →
  ∀ schedule s s', run E schedule s = Some s' → P s → P s'.
Proof.
  intros Hstep. induction schedule as [|i schedule IH]; intros s s' Hrun Hs; simpl in *.
  - by simplify_eq.
  - destruct (step E i s) as [s1|] eqn:H1; [|done]. eauto.
Qed.

End find_facts.

Ltac by_compute := eapply bool_decide_eq_true_1; vm_compute; reflexivity.

Section registry.
Context (E : Env).
Implicit Types (s : state) (c : call) (i j : nat) (t : task).

Lemma status_of_raise i j c r ex s :
  status_of (raise i c r ex s) j
  = if decide (i = j) then (λ _, Raised (mkFindError (c_steam_id c) r ex)) <$> status_of s j
    else status_of s j.
Proof. apply status_of_set_status. Qed.

Lemma status_of_emit ev s j : status_of (emit ev s) j = status_of s j.
Proof. done. Qed.

(** What the first run of a call does to the registry. *)
Lemma step_created_finds i s c s' :
  status_of s i = Some (Created c) → step E i s = Some s' →
  finds s' = match target_check E c s with
             | inl _ => finds s
             | inr s1 => finds s1
             end.
Proof.
  unfold step. destruct (exit_status s); [done|]. intros -> ?; simplify_eq.
  rewrite finds_uncaught. unfold start.
  destruct (target_check E c s); [done|]. by rewrite finds_acquire.
Qed.

Lemma step_created_enabled i s c :
  exit_status s = None → status_of s i = Some (Created c) →
  step E i s = Some (uncaught i (start E i c s)).
Proof. unfold step. by intros -> ->. Qed.

End registry.

(** C1.  A call of [find] on a target either stops at line 204 (the first
    call, on Gabe Newell's id: its [meta] has no ["previous_was_from_cache"])
    and leaves the registry as it was, or updates it in one of three ways: no
    record yet, a new one at the current depth with the current chain alone;
    a record at a greater depth, a new one at the current depth with the
    current chain alone and a link to the old one; otherwise the current chain
    added to the record, whose depth stays. *)
Theorem registry_update_cases (E : Env) (s : state) (i : nat) (c : call) :
  exit_status s = None →
  status_of s i = Some (Created c) →
  c_steam_id c ∈ target_steam_ids E →
  ∃ s', step E i s = Some s' ∧
    ((c_steam_id c = gaben_steam_id E ∧ c_meta c = MetaEmpty
      ∧ finds s' = finds s
      ∧ status_of s' i
        = Some (Raised (mkFindError (c_steam_id c) NoResponse
                                    (KeyError "previous_was_from_cache"))))
     ∨ (¬ (c_steam_id c = gaben_steam_id E ∧ c_meta c = MetaEmpty)
        ∧ (finds s !! c_steam_id c = None →
           finds s' = <[c_steam_id c :=
                          mkFind (c_steam_id c) [c_steam_ids_tally c] (c_depth c) None]>
                        (finds s))
        ∧ (∀ prior, finds s !! c_steam_id c = Some prior →
             (c_depth c < depth prior)%Z →
             finds s' = <[c_steam_id c :=
                            mkFind (c_steam_id c) [c_steam_ids_tally c] (c_depth c)
                                   (Some prior)]> (finds s))
        ∧ (∀ prior, finds s !! c_steam_id c = Some prior →
             (c_depth c >= depth prior)%Z →
             finds s' = <[c_steam_id c :=
                            mkFind (valve_dev_steam_id prior)
                                   (steam_id_tallies prior ++ [c_steam_ids_tally c])
                                   (depth prior) (previous_depth_find prior)]>
                          (finds s)))).
Proof.
  intros Hexit Hi Htarget. eexists. split; [by apply step_created_enabled|].
  rewrite status_of_uncaught, finds_uncaught. unfold start.
  destruct (target_check E c s) as [ex|s1] eqn:Htc.
  - left. apply target_check_inl in Htc as (_ & Hg & Hm & ->).
    repeat split; try done. rewrite status_of_raise, decide_True, Hi; done.
  - right. split.
    { intros [Hg Hm]. unfold target_check, gaben_notice in Htc.
      rewrite !bool_decide_eq_true_2, Hm in Htc; done. }
    apply target_check_inr in Htc as (_ & _ & _ & _ & Hf1).
    rewrite bool_decide_eq_true_2 in Hf1 by done.
    rewrite finds_acquire, Hf1. unfold record_find.
    repeat split.
    + by intros ->.
    + intros prior -> Hlt. rewrite bool_decide_eq_true_2; [done | lia].
    + intros prior -> Hge. rewrite bool_decide_eq_false_2; [done | lia].
Qed.

Lemma registry_update_cases_witness :
  ∃ s', step (world "D" 6 2 ["D"] diamond) 0 (initial (world "D" 6 2 ["D"] diamond) [])
        = Some s'
        ∧ finds s' = <["D" := mkFind "D" [[]] 0 None]> ∅.
Proof.
  assert (Htarget : "D" ∈ target_steam_ids (world "D" 6 2 ["D"] diamond)) by by_compute.
  destruct (registry_update_cases (world "D" 6 2 ["D"] diamond)
              (initial (world "D" 6 2 ["D"] diamond) []) 0
              (mkCall "D" [] 0 MetaEmpty) eq_refl eq_refl Htarget)
    as (s' & Hstep & [(Hg & _)|(_ & Hnone & _)]).
  - discriminate Hg.
  - exists s'. split; [exact Hstep | exact (Hnone eq_refl)].
Defined.

Lemma step_registry_record (E : Env) i s s' key f :
  step E i s = Some s' → finds s !! key = Some f →
  finds s' !! key = Some f
  ∨ ∃ c, status_of s i = Some (Created c) ∧ c_steam_id c = key
         ∧ c_steam_id c ∈ target_steam_ids E
         ∧ finds s' !! key
           = Some (if bool_decide (c_depth c < depth f)%Z
                   then replaced key (c_steam_ids_tally c) (c_depth c) f
                   else appended (c_steam_ids_tally c) f).
Proof.
  intros Hstep Hf. destruct (step_finds E i s s' Hstep) as [->|(c & Hc & Ht & ->)];
    [by left|].
  destruct (decide (c_steam_id c = key)) as [<-|Hne].
  - right. exists c. repeat split; try done.
    rewrite record_find_lookup, Hf. f_equal.
    repeat case_bool_decide; try done; lia.
  - left. by rewrite record_find_lookup_ne.
Qed.

(** C3.  Along any run the depth recorded for a target never grows: a step
    leaves the record alone, or is the discovery of the target by a call,
    which replaces the record when the call's depth is strictly smaller
    (keeping the old one behind it) and otherwise only adds the call's chain,
    the depth staying. *)
Theorem find_depth_never_increases (E : Env) (schedule : list nat) (s s' : state)
    (key : string) (f : Find) :
  run E schedule s = Some s' →
  finds s !! key = Some f →
  (∃ f', finds s' !! key = Some f' ∧ (depth f' ≤ depth f)%Z)
  ∧ (∀ i s1 s2 f1,
       step E i s1 = Some s2 → finds s1 !! key = Some f1 →
       finds s2 !! key = Some f1
       ∨ ∃ c, status_of s1 i = Some (Created c) ∧ c_steam_id c = key
              ∧ ((c_depth c < depth f1)%Z
                 ∧ finds s2 !! key
                   = Some (mkFind key [c_steam_ids_tally c] (c_depth c) (Some f1))
                 ∨ (c_depth c >= depth f1)%Z
                   ∧ finds s2 !! key
                     = Some (mkFind (valve_dev_steam_id f1)
                                    (steam_id_tallies f1 ++ [c_steam_ids_tally c])
                                    (depth f1) (previous_depth_find f1)))).
Proof.
  intros Hrun Hf. split.
  - refine (run_ind E (λ s, ∃ f', finds s !! key = Some f' ∧ (depth f' ≤ depth f)%Z)
                    _ schedule s s' Hrun _); [|by eauto with lia].
    intros i s1 s2 Hstep (f1 & Hf1 & Hle).
    destruct (step_registry_record E i s1 s2 key f1 Hstep Hf1) as [->|(c & _ & _ & _ & ->)].
    + eauto.
    + eexists; split; [done|]. case_bool_decide; simpl; lia.
  - intros i s1 s2 f1 Hstep Hf1.
    destruct (step_registry_record E i s1 s2 key f1 Hstep Hf1) as [->|(c & Hc & Hk & _ & ->)];
      [by left|].
    right. exists c. repeat split; try done.
    case_bool_decide; [left|right]; (split; [lia|done]).
Qed.

Lemma uncaught_not_raised i s t :
  status_of s i = Some t → is_raised t = false → uncaught i s = s.
Proof.
  unfold status_of, uncaught. destruct (pool s !! i) as [[p t']|]; [|done].
  intros ? Ht; simplify_eq/=. by destruct p, t.
Qed.

Lemma log_uncaught_app i s :
  ∃ l, log (uncaught i s) = log s ++ l ∧ ∀ ev, ev ∈ l → ev = EvExit 1.
Proof.
  destruct (log_uncaught i s) as [->| ->].
  - exists []. rewrite app_nil_r. split; [done|]. by intros ev ?%elem_of_nil.
  - exists [EvExit 1]. split; [done|]. by intros ev ->%list_elem_of_singleton.
Qed.

Lemma length_pool_set_status i t s : length (pool (set_status i t s)) = length (pool s).
Proof. simpl. apply length_alter. Qed.

(** C4.  At or beyond [--max_depth] a call does its target check and then
    returns: the table is not read or written, nothing is requested, no task
    is created and no other task changes.  The registry ends as the same call
    leaves it under any other [--max_depth]; it is [record_find]'s when the
    account is a target, unless the call is the first one, on Gabe Newell's
    id, which stops at line 204. *)
Theorem depth_cutoff (E : Env) (s : state) (i : nat) (c : call) :
  exit_status s = None →
  status_of s i = Some (Created c) →
  (c_depth c >= max_depth (args E))%Z →
  ∃ s', step E i s = Some s'
    ∧ friend_lists s' = friend_lists s
    ∧ length (pool s') = length (pool s)
    ∧ (∀ j, j ≠ i → status_of s' j = status_of s j)
    ∧ (∃ l, log s' = log s ++ l ∧ ∀ ev, ev ∈ l → ev = EvInput ∨ ev = EvExit 1)
    ∧ (∀ d s'', step (with_max_depth d E) i s = Some s'' → finds s'' = finds s')
    ∧ ((status_of s' i = Some Returned
        ∧ finds s' = if bool_decide (c_steam_id c ∈ target_steam_ids E)
                     then record_find (finds s) (c_steam_id c) (c_steam_ids_tally c)
                                      (c_depth c)
                     else finds s)
       ∨ (c_steam_id c ∈ target_steam_ids E ∧ c_steam_id c = gaben_steam_id E
          ∧ c_meta c = MetaEmpty ∧ finds s' = finds s
          ∧ status_of s' i
            = Some (Raised (mkFindError (c_steam_id c) NoResponse
                                        (KeyError "previous_was_from_cache"))))).
Proof.
  intros Hexit Hi Hdepth. eexists. split; [by apply step_created_enabled|].
  assert (Hmax : ∀ d s'', step (with_max_depth d E) i s = Some s'' →
                          finds s'' = finds (start E i c s)).
  { intros d s'' Hstep. rewrite <-(finds_uncaught i (start E i c s)).
    rewrite (step_created_finds _ i s c s'' Hi Hstep).
    rewrite (step_created_finds E i s c _ Hi (step_created_enabled E i s c Hexit Hi)).
    done. }
  revert Hmax. unfold start.
  destruct (target_check E c s) as [ex|s1] eqn:Htc; intros Hmax.
  - apply target_check_inl in Htc as (Ht & Hg & Hm & ->).
    rewrite friend_lists_uncaught, pool_uncaught, finds_uncaught.
    split; [done|]. split; [apply length_pool_set_status|].
    split. { intros j Hj. rewrite status_of_uncaught, status_of_raise, decide_False; done. }
    split. { destruct (log_uncaught_app i (raise i c NoResponse
                         (KeyError "previous_was_from_cache") s)) as (l & Hl & Hev).
             exists l. split; [done|]. intros ev ?. right. by apply Hev. }
    split; [done|]. right. repeat split; try done.
    rewrite status_of_uncaught, status_of_raise, decide_True, Hi; done.
  - apply target_check_inr in Htc as (Hfl & Hpool & Hex & Hlog & Hf).
    rewrite finds_uncaught.
    unfold acquire in *. rewrite bool_decide_eq_true_2 in * by done.
    assert (Hst : status_of (set_status i Returned s1) i = Some Returned).
    { rewrite status_of_set_status, decide_True by done.
      unfold status_of. rewrite Hpool. fold (status_of s i). by rewrite Hi. }
    rewrite (uncaught_not_raised i _ Returned Hst eq_refl) in *. simpl.
    split; [done|]. split; [by rewrite length_alter, Hpool|].
    split. { intros j Hj. rewrite status_of_set_status, decide_False by done.
             unfold status_of. by rewrite Hpool. }
    split. { destruct Hlog as [->| ->].
             - exists []. rewrite app_nil_r. split; [done|]. by intros ev ?%elem_of_nil.
             - exists [EvInput]. split; [done|].
               intros ev ->%list_elem_of_singleton. by left. }
    split; [done|]. left. by split.
Qed.

Lemma depth_cutoff_witness :
  ∃ s', step (world "D" 0 2 ["D"] diamond) 0 (initial (world "D" 0 2 ["D"] diamond) [])
        = Some s'
        ∧ friend_lists s' = [] ∧ log s' = []
        ∧ finds s' = <["D" := mkFind "D" [[]] 0 None]> ∅.
Proof.
  destruct (depth_cutoff (world "D" 0 2 ["D"] diamond)
              (initial (world "D" 0 2 ["D"] diamond) []) 0
              (mkCall "D" [] 0 MetaEmpty) eq_refl eq_refl ltac:(simpl; lia))
    as (s' & Hstep & Hfl & _ & _ & (l & Hlog & Hev) & _ & [(_ & Hf)|(_ & Hg & _)]).
  - exists s'. split; [exact Hstep|]. split; [exact Hfl|]. split; [|exact Hf].
    vm_compute in Hstep. injection Hstep as <-. reflexivity.
  - discriminate Hg.
Defined.

Lemma find_depth_never_increases_witness :
  ∃ s', run (world "D" 6 2 ["D"] diamond) [0]
            (mkState {["D" := mkFind "D" [["X"; "Y"]] 2 None]} [] []
                     [mkEntry None (Created (mkCall "D" [] 0 MetaEmpty))] None)
        = Some s'
        ∧ ∃ f', finds s' !! "D" = Some f' ∧ (depth f' ≤ 2)%Z.
Proof.
  eexists. split; [vm_compute; reflexivity|].
  eapply (proj1 (find_depth_never_increases (world "D" 6 2 ["D"] diamond) [0]
                   (mkState {["D" := mkFind "D" [["X"; "Y"]] 2 None]} [] []
                            [mkEntry None (Created (mkCall "D" [] 0 MetaEmpty))] None)
                   _ "D" (mkFind "D" [["X"; "Y"]] 2 None) _ _)).
  Unshelve. all: vm_compute; reflexivity.
Defined.

(** ** The pool *)

(** The run leaves the task in state [t] and creates no task. *)
Tactic Notation "no_new_task" uconstr(t) :=
  eexists t, []; unfold spawned; simpl; by rewrite app_nil_r.

Section pool_facts.
Context (E : Env).
Implicit Types (s : state) (c : call) (i j : nat) (t : task).

Lemma pool_next_chunk i c r chunks s :
  pool (next_chunk i c r chunks s)
  = match chunks with
    | [] => alter (set_entry Returned) i (pool s)
    | chunk :: rest =>
      alter (set_entry (Waiting c r (seq (length (pool s)) (length chunk)) rest)) i
            (pool s ++ spawned i chunk)
    end.
Proof. by destruct chunks. Qed.

Lemma status_of_alter i j t (l : list entry) s :
  pool s = alter (set_entry t) i l →
  status_of s j = if decide (i = j) then (λ _, t) <$> (status <$> l !! j)
                  else status <$> l !! j.
Proof.
  unfold status_of. intros ->. case_decide as Hij.
  - subst. rewrite list_lookup_alter_eq. by destruct (l !! j).
  - by rewrite list_lookup_alter_ne.
Qed.

Lemma batched_bounded {A} (l : list A) n :
  Forall (λ chunk, 0 < length chunk ≤ n) (batched l n).
Proof. apply batched_loop_sizes. Qed.

(** How [expand] leaves the pool: the task returns, raises at
    [batched], or awaits the first chunk of its coroutines. *)
Lemma pool_expand i c r raw cached s :
  ∃ t chunk,
    pool (expand E i c r raw cached s) = alter (set_entry t) i (pool s ++ spawned i chunk)
    ∧ match t with
      | Returned => chunk = []
      | Raised e => chunk = [] ∧ e = mkFindError (c_steam_id c) r ValueError
                    ∧ (simultaneous_requests (args E) < 1)%Z
      | Waiting c' r' ids rest =>
        c' = c ∧ r' = r ∧ ids = seq (length (pool s)) (length chunk)
        ∧ Forall (λ ch, 0 < length ch ≤ Z.to_nat (simultaneous_requests (args E)))
                 (chunk :: rest)
      | _ => False
      end.
Proof.
  unfold expand.
  set (futures := futures_of c _ cached).
  case_bool_decide as Hlen.
  - case_bool_decide as Hn.
    + no_new_task (Raised (mkFindError (c_steam_id c) r ValueError)).
    + pose proof (batched_bounded futures (Z.to_nat (simultaneous_requests (args E)))) as Hb.
      rewrite pool_next_chunk.
      destruct (batched futures _) as [|chunk rest].
      * no_new_task Returned.
      * by exists (Waiting c r (seq (length (pool s)) (length chunk)) rest), chunk.
  - no_new_task Returned.
Qed.

Lemma pool_acquire i c s :
  ∃ t chunk,
    pool (acquire E i c s) = alter (set_entry t) i (pool s ++ spawned i chunk)
    ∧ after_run (Z.to_nat (simultaneous_requests (args E))) (pool s) t chunk.
Proof.
  unfold acquire. case_bool_decide.
  { no_new_task Returned. }
  cbn zeta. destruct (select_response _ _) as [cached|].
  - destruct (load_cached cached) as [ex|raw].
    + no_new_task (Raised _).
    + destruct (pool_expand i c FromCache raw true (emit (EvSelect (c_steam_id c)) s))
        as (t & chunk & Hpool & Ht).
      exists t, chunk. split; [done|].
      destruct t; simpl in *; [done|done|done|by destruct Ht as (_ & _ & ? & ?)|done|by destruct Ht].
  - destruct (cached_only (args E)).
    1,3: no_new_task Returned.
    all: no_new_task (Sleeping c).
Qed.

Lemma pool_start i c s :
  ∃ t chunk,
    pool (start E i c s) = alter (set_entry t) i (pool s ++ spawned i chunk)
    ∧ after_run (Z.to_nat (simultaneous_requests (args E))) (pool s) t chunk.
Proof.
  unfold start. destruct (target_check E c s) as [ex|s1] eqn:Htc.
  - no_new_task (Raised _).
  - apply target_check_inr in Htc as (_ & <- & _). apply pool_acquire.
Qed.

Lemma exit_status_start i c s : exit_status (start E i c s) = exit_status s.
Proof.
  unfold start. destruct (target_check E c s) as [ex|s1] eqn:Htc; [done|].
  apply target_check_inr in Htc as (_ & _ & <- & _). apply exit_status_acquire.
Qed.

Lemma pool_deliver i c nth s :
  ∃ t chunk,
    pool (deliver E i c nth s) = alter (set_entry t) i (pool s ++ spawned i chunk)
    ∧ after_run (Z.to_nat (simultaneous_requests (args E))) (pool s) t chunk.
Proof.
  unfold deliver. destruct (get_friend_list E nth (c_steam_id c)) as [r|].
  2: { no_new_task (Raised _). }
  destruct (json r) as [raw|].
  2: { no_new_task (Raised _). }
  destruct (pool_expand i c (Http r) raw false
              (emit (EvInsert (c_steam_id c))
                 (with_friend_lists
                    (insert_row (friend_lists s) (c_steam_id c) (Some (json_dumps raw))) s)))
    as (t & chk & Hpool & Ht).
  exists t, chk. split; [done|].
  destruct t; simpl in *; [done|done|done|by destruct Ht as (_ & _ & ? & ?)|done|by destruct Ht].
Qed.

Lemma exit_status_deliver i c nth s : exit_status (deliver E i c nth s) = exit_status s.
Proof.
  unfold deliver. repeat case_match; try done. by rewrite exit_status_expand.
Qed.

Lemma all_completed_spec s chunk :
  all_completed s chunk = true ↔
  ∀ j, j ∈ chunk → ∃ t, status_of s j = Some t ∧ is_settled t = true.
Proof.
  unfold all_completed. rewrite forallb_forall. split.
  - intros H j Hj. apply list_elem_of_In in Hj. specialize (H j Hj).
    destruct (status_of s j) as [t|]; [eauto | done].
  - intros H j Hj. apply list_elem_of_In in Hj.
    destruct (H j Hj) as (t & -> & Ht). done.
Qed.

Lemma any_exception_spec s chunk :
  any_exception s chunk = true ↔
  ∃ j e, j ∈ chunk ∧ status_of s j = Some (Raised e).
Proof.
  unfold any_exception. rewrite existsb_exists. split.
  - intros (j & Hj & Hr). apply list_elem_of_In in Hj.
    destruct (status_of s j) as [[]|] eqn:Hs; try done. eauto.
  - intros (j & e & Hj & Hr). exists j. rewrite Hr. split; [|done].
    by apply list_elem_of_In.
Qed.

Lemma exit_status_uncaught i s l t :
  pool s = alter (set_entry t) i l → i < length l →
  exit_status (uncaught i s)
  = if bool_decide (parent <$> l !! i = Some None) && is_raised t then Some 1%Z
    else exit_status s.
Proof.
  intros Hpool Hlt. unfold uncaught. rewrite Hpool, list_lookup_alter_eq.
  destruct (lookup_lt_is_Some_2 l i Hlt) as [[p t0] ->]. simpl.
  destruct p; simpl; [by repeat case_match|]. by destruct t.
Qed.

(** What a step does to the pool and to the process: a task that awaits a
    chunk with a failed task leaves the process; any other step changes the
    entry of its task, adds the tasks of one chunk at most, and ends the
    process only when the first call has raised. *)
Lemma step_pool i s s' :
  chunks_bounded (Z.to_nat (simultaneous_requests (args E))) s →
  step E i s = Some s' →
  ∃ t0, status_of s i = Some t0 ∧ is_settled t0 = false
    ∧ (∀ c r chunk rest, t0 = Waiting c r chunk rest → all_completed s chunk = true)
    ∧ (pool s' = pool s ∧ exit_status s' = Some 1%Z
       ∨ ∃ t chunk,
           pool s' = alter (set_entry t) i (pool s ++ spawned i chunk)
           ∧ after_run (Z.to_nat (simultaneous_requests (args E))) (pool s) t chunk
           ∧ (∀ c r chk rest, t0 = Waiting c r chk rest → any_exception s chk = false)
           ∧ exit_status s'
             = if bool_decide (parent <$> pool s !! i = Some None) && is_raised t
               then Some 1%Z else None).
Proof.
  intros Hbounded. unfold step. destruct (exit_status s) eqn:Hexit; [done|].
  destruct (status_of s i) as [t0|] eqn:Hi; [|done].
  pose proof (status_of_lt s i t0 Hi) as Hlt.
  assert (Hshape : ∀ X t chunk,
            pool X = alter (set_entry t) i (pool s ++ spawned i chunk) →
            exit_status X = None →
            pool (uncaught i X) = alter (set_entry t) i (pool s ++ spawned i chunk)
            ∧ exit_status (uncaught i X)
              = if bool_decide (parent <$> pool s !! i = Some None) && is_raised t
                then Some 1%Z else None).
  { intros X t chunk HX HeX. rewrite pool_uncaught. split; [done|].
    rewrite (exit_status_uncaught i X _ t HX) by (rewrite length_app; lia).
    by rewrite lookup_app_l, HeX by done. }
  destruct t0 as [c|c|c nth|c r chunk rest| |e]; try done;
    intros ?; simplify_eq; eexists; (split; [done|]); (split; [done|]).
  - split; [done|]. right. destruct (pool_start i c s) as (t & chunk & Hp & Ht).
    exists t, chunk. destruct (Hshape _ t chunk Hp) as [? ?].
    { by rewrite exit_status_start. }
    done.
  - split; [done|]. right. eexists (Requesting _ _), [].
    destruct (Hshape (wake i c s) (Requesting c (length (requests (log s)))) []) as [? ?];
      [simpl; by rewrite app_nil_r|done|done].
  - split; [done|]. right. destruct (pool_deliver i c nth s) as (t & chunk & Hp & Ht).
    exists t, chunk. destruct (Hshape _ t chunk Hp) as [? ?].
    { by rewrite exit_status_deliver. }
    done.
  - unfold resume in *. destruct (all_completed s chunk) eqn:Hall; [|done].
    split; [by intros c' r' chunk' rest' [= <- <- <- <-]|].
    destruct (any_exception s chunk) eqn:Hany; simplify_eq/=.
    + left. rewrite pool_uncaught. split; [done|]. unfold uncaught. by repeat case_match.
    + right. destruct rest as [|chk rest].
      * exists Returned, [].
        destruct (Hshape (next_chunk i c r [] s) Returned []) as [? ?];
          [simpl; by rewrite app_nil_r|done|].
        repeat split; try done. by intros c' r' chunk' rest' [= <- <- <- <-].
      * eexists (Waiting _ _ _ _), chk.
        destruct (Hshape (next_chunk i c r (chk :: rest) s)
                    (Waiting c r (seq (length (pool s)) (length chk)) rest) chk)
          as [? ?]; [done|done|].
        repeat split; try done.
        -- by destruct (Hbounded _ _ _ _ _ Hi) as [_ ?].
        -- by intros c' r' chunk' rest' [= <- <- <- <-].
Qed.

End pool_facts.

(** ** Chunks are awaited one at a time *)

Section batches.
Context (E : Env).
Implicit Types (s : state) (c : call) (i j : nat) (t : task).

Local Abbreviation n := (Z.to_nat (simultaneous_requests (args E))).

Lemma lookup_spawned_parent i chunk j e :
  spawned i chunk !! j = Some e → parent e = Some i ∧ ∃ c, status e = Created c.
Proof.
  unfold spawned. rewrite list_lookup_fmap. destruct (chunk !! j); intros ?; simplify_eq/=.
  eauto.
Qed.

Lemma chunks_bounded_step i s s' :
  chunks_bounded n s → step E i s = Some s' → chunks_bounded n s'.
Proof.
  intros Hb Hstep.
  destruct (step_pool E i s s' Hb Hstep)
    as (t0 & Hi & _ & _ & [[Hpool _]|(t & chunk & Hpool & Ht & _)]).
  { intros p c r chk rest. unfold status_of. rewrite Hpool. apply Hb. }
  intros p c r chk rest. rewrite (status_of_alter i p t _ s' Hpool).
  case_decide as Hip.
  - subst p. destruct ((pool s ++ spawned i chunk) !! i); [|done].
    intros [= ->]. destruct Ht as [-> Ht]. apply Forall_cons in Ht as [? ?].
    split; [|done]. rewrite length_seq. done.
  - destruct (decide (p < length (pool s))) as [Hlt|Hge].
    + rewrite lookup_app_l by done. apply Hb.
    + rewrite lookup_app_r by lia.
      destruct (spawned i chunk !! (p - length (pool s))) as [e|] eqn:He; [|done].
      apply lookup_spawned_parent in He as (_ & c0 & Hc0). simpl. by rewrite Hc0.
Qed.

Lemma children_awaited_step i s s' :
  chunks_bounded n s → children_awaited s → step E i s = Some s' → children_awaited s'.
Proof.
  intros Hb Hinv Hstep.
  destruct (step_pool E i s s' Hb Hstep)
    as (t0 & Hi & Hunsettled & Hdone & [[Hpool _]|(t & chunk & Hpool & Ht & _)]).
  { intros j e p. unfold status_of. rewrite Hpool. apply Hinv. }
  assert (Hlt : i < length (pool s)) by eauto using status_of_lt.
  (* no task that [i] created earlier is still running *)
  assert (Hnone : ∀ j e, pool s !! j = Some e → parent e = Some i →
                         is_settled (status e) = true).
  { intros j e Hj Hp. destruct (is_settled (status e)) eqn:Hs; [done|].
    destruct (Hinv j e i Hj Hp Hs) as (c & r & chk & rest & Hw & Hin).
    rewrite Hw in Hi. injection Hi as <-.
    pose proof (proj1 (all_completed_spec s chk) (Hdone c r chk rest eq_refl) j Hin)
      as (tj & Htj & Hsj).
    unfold status_of in Htj. rewrite Hj in Htj. simpl in Htj. congruence. }
  intros j e p Hj Hp Hs. rewrite Hpool in Hj.
  destruct (decide (j < length (pool s))) as [Hjlt|Hjge].
  - (* a task that was there before the step *)
    assert (∃ e0, pool s !! j = Some e0 ∧ parent e0 = Some p
                  ∧ (j ≠ i → e = e0)) as (e0 & Hj0 & Hp0 & He0).
    { destruct (decide (i = j)) as [->|Hij].
      - rewrite list_lookup_alter_eq, lookup_app_l in Hj by done.
        destruct (pool s !! j) as [e0|]; [|done]. simplify_eq/=. by exists e0.
      - rewrite list_lookup_alter_ne, lookup_app_l in Hj by done. by exists e. }
    assert (Hpi : p ≠ i).
    { intros ->. specialize (Hnone j e0 Hj0 Hp0).
      destruct (decide (j = i)) as [->|Hji].
      - unfold status_of in Hi. rewrite Hj0 in Hi. simpl in Hi. congruence.
      - rewrite <-(He0 Hji) in Hnone. by rewrite Hnone in Hs. }
    assert (Hs0 : is_settled (status e0) = false).
    { destruct (decide (j = i)) as [->|Hji].
      - unfold status_of in Hi. rewrite Hj0 in Hi. simpl in Hi. congruence.
      - by rewrite <-(He0 Hji). }
    destruct (Hinv j e0 p Hj0 Hp0 Hs0) as (c & r & chk & rest & Hw & Hin).
    exists c, r, chk, rest. split; [|done].
    rewrite (status_of_alter i p t _ s' Hpool), decide_False by done.
    rewrite lookup_app_l by eauto using status_of_lt. done.
  - (* a task the step created *)
    rewrite list_lookup_alter_ne, lookup_app_r in Hj by lia.
    pose proof (lookup_lt_Some _ _ _ Hj) as Hbound.
    apply lookup_spawned_parent in Hj as (Hpe & _).
    rewrite Hpe in Hp. injection Hp as <-.
    unfold spawned in Hbound. rewrite length_fmap in Hbound.
    rewrite (status_of_alter i i t _ s' Hpool), decide_True by done.
    rewrite lookup_app_l by done. fold (status_of s i). rewrite Hi. simpl.
    destruct t as [c|c|c nth|c r ids rest| |e']; simpl in Ht;
      try (subst chunk; simpl in Hbound; lia); [done|].
    destruct Ht as [-> _]. eexists c, r, _, rest. split; [done|].
    apply elem_of_seq. lia.
Qed.

Lemma chunks_bounded_initial db : chunks_bounded n (initial E db).
Proof. intros [|[|p]] c r chunk rest; done. Qed.

Lemma children_awaited_initial db : children_awaited (initial E db).
Proof.
  intros [|j] e p He Hp; simpl in He; [by simplify_eq|].
  by rewrite lookup_nil in He.
Qed.

Lemma reachable_batches s :
  reachable E s → chunks_bounded n s ∧ children_awaited s.
Proof.
  intros (db & schedule & Hrun).
  refine (run_ind E (λ s, chunks_bounded n s ∧ children_awaited s) _ schedule _ s Hrun _).
  - intros i s1 s2 Hstep [Hb Hc]. split;
      eauto using chunks_bounded_step, children_awaited_step.
  - split; [apply chunks_bounded_initial | apply children_awaited_initial].
Qed.

Lemma is_in_flight_spec p s j :
  is_in_flight p s j = true ↔
  ∃ e, pool s !! j = Some e ∧ parent e = Some p ∧ is_settled (status e) = false.
Proof.
  unfold is_in_flight. destruct (pool s !! j) as [e|].
  - rewrite andb_true_iff, bool_decide_eq_true, negb_true_iff. split.
    + intros [? ?]. by exists e.
    + by intros (e' & [= <-] & ? & ?).
  - split; [done|]. by intros (e' & ? & _).
Qed.

Lemma in_flight_bound p s :
  chunks_bounded n s → children_awaited s → length (in_flight p s) ≤ n.
Proof.
  intros Hb Hc. destruct (in_flight p s) as [|j0 l] eqn:Hfl; [simpl; lia|].
  assert (Hj0 : j0 ∈ in_flight p s) by (rewrite Hfl; left).
  apply list_elem_of_filter in Hj0 as [Hj0 _].
  apply is_in_flight_spec in Hj0 as (e0 & He0 & Hp0 & Hs0).
  destruct (Hc j0 e0 p He0 Hp0 Hs0) as (c & r & chunk & rest & Hw & _).
  destruct (Hb p c r chunk rest Hw) as [[_ Hlen] _].
  rewrite <-Hfl. etrans; [|exact Hlen].
  apply submseteq_length, NoDup_submseteq.
  - apply NoDup_filter, NoDup_seq.
  - intros j [Hj _]%list_elem_of_filter.
    apply is_in_flight_spec in Hj as (e & He & Hp & Hs).
    destruct (Hc j e p He Hp Hs) as (c' & r' & chunk' & rest' & Hw' & Hin).
    rewrite Hw in Hw'. by simplify_eq.
Qed.

End batches.

Section expansion.
Context (E : Env).
Implicit Types (s : state) (c : call) (i j : nat) (t : task).

Lemma length_futures_of c friends cached :
  length (futures_of c friends cached) = length friends.
Proof. apply length_imap. Qed.

Lemma status_of_next_chunk i c r chunks s t0 :
  status_of s i = Some t0 →
  status_of (next_chunk i c r chunks s) i
  = Some match chunks with
         | [] => Returned
         | chunk :: rest => Waiting c r (seq (length (pool s)) (length chunk)) rest
         end.
Proof.
  intros Hi. pose proof (status_of_lt s i t0 Hi) as Hlt.
  destruct chunks as [|chunk rest].
  - rewrite (status_of_alter i i Returned (pool s) (next_chunk i c r [] s) eq_refl),
      decide_True by done.
    fold (status_of s i). by rewrite Hi.
  - rewrite (status_of_alter i i _ (pool s ++ spawned i chunk)
               (next_chunk i c r (chunk :: rest) s) eq_refl), decide_True by done.
    rewrite lookup_app_l by done. fold (status_of s i). by rewrite Hi.
Qed.

(** What [expand] does with the chunks of its coroutines. *)
Lemma expand_chunks i c r raw cached s t0 :
  (1 ≤ simultaneous_requests (args E))%Z →
  status_of s i = Some t0 →
  match batched (futures_of c (friends_in_order E c raw) cached)
                (Z.to_nat (simultaneous_requests (args E))) with
  | [] =>
    status_of (expand E i c r raw cached s) i = Some Returned
    ∧ pool (expand E i c r raw cached s) = alter (set_entry Returned) i (pool s)
  | chunk :: rest =>
    status_of (expand E i c r raw cached s) i
    = Some (Waiting c r (seq (length (pool s)) (length chunk)) rest)
    ∧ pool (expand E i c r raw cached s)
      = alter (set_entry (Waiting c r (seq (length (pool s)) (length chunk)) rest)) i
              (pool s ++ spawned i chunk)
  end.
Proof.
  intros Hn Hi. unfold expand.
  set (futures := futures_of c _ cached).
  set (n := Z.to_nat (simultaneous_requests (args E))).
  case_bool_decide as Hlen.
  - rewrite bool_decide_eq_false_2 by lia.
    rewrite (status_of_next_chunk i c r _ s t0 Hi), pool_next_chunk.
    by destruct (batched futures n).
  - destruct futures; [|simpl in Hlen; lia]. simpl.
    rewrite status_of_set_status, decide_True, Hi; done.
Qed.

End expansion.

(** C6.  With [n = --simultaneous_requests] at least one: the coroutines of
    an expansion are cut into [ceil(M/n)] chunks of one to [n], [M] being the
    number of neighbours to visit; the expansion turns the first chunk into
    tasks and keeps the others; a task that awaits a chunk runs again only
    when every task of the chunk has settled, and then leaves the process,
    returns or starts the next chunk alone; so a task that has not settled
    belongs to the chunk its creator awaits, and no task has more than [n]
    of its tasks in flight. *)
Theorem batches_are_sequential (E : Env) (s : state) (p : nat) :
  (1 ≤ simultaneous_requests (args E))%Z →
  reachable E s →
  let n := Z.to_nat (simultaneous_requests (args E)) in
  (∀ c r raw cached t0,
     status_of s p = Some t0 →
     let friends := friends_in_order E c raw in
     let chunks := batched (futures_of c friends cached) n in
     concat chunks = futures_of c friends cached
     ∧ length chunks = (length friends + n - 1) / n
     ∧ Forall (λ chunk, 0 < length chunk ≤ n) chunks
     ∧ match chunks with
       | [] => status_of (expand E p c r raw cached s) p = Some Returned
               ∧ pool (expand E p c r raw cached s) = alter (set_entry Returned) p (pool s)
       | chunk :: rest =>
         status_of (expand E p c r raw cached s) p
         = Some (Waiting c r (seq (length (pool s)) (length chunk)) rest)
         ∧ pool (expand E p c r raw cached s)
           = alter (set_entry (Waiting c r (seq (length (pool s)) (length chunk)) rest)) p
                   (pool s ++ spawned p chunk)
       end)
  ∧ (∀ c r chunk rest s',
       status_of s p = Some (Waiting c r chunk rest) →
       step E p s = Some s' →
       (∀ j, j ∈ chunk → ∃ t, status_of s j = Some t ∧ is_settled t = true)
       ∧ (exit_status s' = Some 1%Z ∧ pool s' = pool s
          ∨ match rest with
            | [] => pool s' = alter (set_entry Returned) p (pool s)
            | next :: rest' =>
              pool s'
              = alter (set_entry (Waiting c r (seq (length (pool s)) (length next)) rest')) p
                      (pool s ++ spawned p next)
            end))
  ∧ (∀ j e,
       pool s !! j = Some e → parent e = Some p → is_settled (status e) = false →
       ∃ c r chunk rest,
         status_of s p = Some (Waiting c r chunk rest) ∧ j ∈ chunk ∧ length chunk ≤ n)
  ∧ length (in_flight p s) ≤ n.
Proof.
  intros Hn Hreach n. destruct (reachable_batches E s Hreach) as [Hb Hc].
  split; [|split; [|split]].
  - intros c r raw cached t0 Hp friends chunks.
    split; [apply batched_loop_concat; [lia|done]|].
    split; [unfold chunks, batched;
            rewrite batched_loop_length, length_futures_of by (done || lia); done|].
    split; [apply batched_bounded|].
    apply (expand_chunks E p c r raw cached s t0 Hn Hp).
  - intros c r chunk rest s' Hp. unfold step.
    destruct (exit_status s); [done|]. rewrite Hp. unfold resume.
    destruct (all_completed s chunk) eqn:Hall; [|done].
    split; [by apply all_completed_spec|].
    destruct (any_exception s chunk); simplify_eq/=; rewrite pool_uncaught.
    + left. split; [|done]. unfold uncaught. by repeat case_match.
    + right. rewrite pool_next_chunk. by destruct rest.
  - intros j e Hj Hp Hs. destruct (Hc j e p Hj Hp Hs) as (c & r & chunk & rest & Hw & Hin).
    exists c, r, chunk, rest. repeat split; try done.
    by destruct (Hb p c r chunk rest Hw) as [[_ ?] _].
  - by apply in_flight_bound.
Qed.

Lemma batches_are_sequential_witness :
  ∃ s, run (world "A" 3 2 ["D"] diamond) [0; 0; 0]
           (initial (world "A" 3 2 ["D"] diamond) []) = Some s
       ∧ in_flight 0 s = [1; 2] ∧ length (in_flight 0 s) ≤ 2.
Proof.
  eexists. split; [vm_compute; reflexivity|]. split; [vm_compute; reflexivity|].
  refine (proj2 (proj2 (proj2
            (batches_are_sequential (world "A" 3 2 ["D"] diamond) _ 0 _ _)))).
  - simpl. lia.
  - exists [], [0; 0; 0]. vm_compute. reflexivity.
Defined.


(** ** The friend-list cache *)

Lemma select_response_app {V} (table rows : list (string * V)) key v :
  select_response table key = Some v → select_response (table ++ rows) key = Some v.
Proof.
  induction table as [|row table IH]; simpl; [done|]. case_bool_decide; auto.
Qed.

Lemma select_response_insert_new {V} (table : list (string * V)) key v :
  select_response table key = None → select_response (insert_row table key v) key = Some v.
Proof.
  unfold insert_row. induction table as [|row table IH]; simpl.
  - by rewrite bool_decide_eq_true_2.
  - case_bool_decide; [done | auto].
Qed.

Lemma requests_app l1 l2 : requests (l1 ++ l2) = requests l1 ++ requests l2.
Proof. apply omap_app. Qed.

Lemma requests_quiet l : Forall (λ ev, is_traffic ev = false) l → requests l = [].
Proof.
  induction 1 as [|ev l Hev _ IH]; [done|].
  change (ev :: l) with ([ev] ++ l). rewrite requests_app, IH. by destruct ev.
Qed.

Section cache.
Context (E : Env).
Implicit Types (s : state) (c : call) (i j : nat) (t : task).

Lemma step_select_response i s s' key cached :
  step E i s = Some s' →
  select_response (friend_lists s) key = Some cached →
  select_response (friend_lists s') key = Some cached.
Proof.
  intros Hstep Hsel.
  destruct (step_friend_lists E i s s' Hstep) as [->|(c & nth & r & raw & _ & _ & _ & ->)];
    [done|]. by apply select_response_app.
Qed.

Lemma log_expand_quiet i c r raw cached s :
  ∃ l, log (expand E i c r raw cached s) = log s ++ l
       ∧ Forall (λ ev, is_traffic ev = false) l.
Proof.
  destruct (log_expand E i c r raw cached s) as (ids & ->).
  eexists. split; [done|]. apply Forall_fmap, Forall_true. done.
Qed.

(** A call whose account has a row runs on the row's value. *)
Lemma acquire_hit i c s cached :
  select_response (friend_lists s) (c_steam_id c) = Some cached →
  acquire E i c s
  = if bool_decide (c_depth c >= max_depth (args E))%Z then set_status i Returned s
    else match load_cached cached with
         | inl ex => raise i c FromCache ex (emit (EvSelect (c_steam_id c)) s)
         | inr raw => expand E i c FromCache raw true (emit (EvSelect (c_steam_id c)) s)
         end.
Proof. intros Hsel. unfold acquire. cbn zeta. simpl friend_lists. by rewrite Hsel. Qed.

Lemma start_hit i c s cached :
  select_response (friend_lists s) (c_steam_id c) = Some cached →
  (∃ l, log (start E i c s) = log s ++ l ∧ Forall (λ ev, is_traffic ev = false) l)
  ∧ friend_lists (start E i c s) = friend_lists s
  ∧ ∃ t chunk, pool (start E i c s) = alter (set_entry t) i (pool s ++ spawned i chunk)
               ∧ match t with
                 | Returned | Raised _ | Waiting _ _ _ _ => True
                 | _ => False
                 end.
Proof.
  intros Hsel. unfold start.
  destruct (target_check E c s) as [ex|s1] eqn:Htc.
  { split; [exists []; by rewrite app_nil_r|]. split; [done|].
    no_new_task (Raised (mkFindError (c_steam_id c) NoResponse ex)). }
  apply target_check_inr in Htc as (Hfl & Hpool & _ & Hlog & _).
  rewrite <-Hfl in Hsel. rewrite (acquire_hit i c s1 cached Hsel), <-Hfl, <-Hpool.
  assert (∃ l1, log s1 = log s ++ l1 ∧ Forall (λ ev, is_traffic ev = false) l1)
    as (l1 & Hl1 & Hq1).
  { destruct Hlog as [->| ->]; [exists []; by rewrite app_nil_r|].
    eexists; split; [done|]. by repeat constructor. }
  case_bool_decide.
  { split; [by exists l1|]. split; [done|].
    no_new_task Returned. }
  destruct (load_cached cached) as [ex|raw].
  { split; [|split; [done|no_new_task (Raised (mkFindError (c_steam_id c) FromCache ex))]].
    exists (l1 ++ [EvSelect (c_steam_id c)]). simpl. rewrite Hl1, <-app_assoc.
    split; [done|]. apply Forall_app. split; [done|]. by repeat constructor. }
  split; [|split; [by rewrite friend_lists_expand|]].
  - destruct (log_expand_quiet i c FromCache raw true (emit (EvSelect (c_steam_id c)) s1))
      as (l2 & -> & Hq2).
    exists (l1 ++ [EvSelect (c_steam_id c)] ++ l2). simpl. rewrite Hl1, <-!app_assoc.
    split; [done|]. apply Forall_app. split; [done|]. by constructor.
  - destruct (pool_expand E i c FromCache raw true (emit (EvSelect (c_steam_id c)) s1))
      as (t & chunk & Hp & Ht).
    exists t, chunk. split; [done|]. by destruct t.
Qed.

End cache.

(** C5.  Once the table has a row for an account, whatever its value, every
    run from there still finds that row first, and a call on the account that
    starts then neither sleeps nor sends a request nor writes a row: it raises
    or goes on with the value decoded from the row.  A row written where there
    was none is the row found, and decodes to the list that was dumped. *)
Theorem cache_idempotence (E : Env) (s s' : state) (key : string) (cached : column)
    (schedule : list nat) :
  select_response (friend_lists s) key = Some cached →
  run E schedule s = Some s' →
  select_response (friend_lists s') key = Some cached
  ∧ (∀ j c s'',
       status_of s' j = Some (Created c) → c_steam_id c = key →
       step E j s' = Some s'' →
       requests (log s'') = requests (log s')
       ∧ friend_lists s'' = friend_lists s'
       ∧ (∃ l, log s'' = log s' ++ l ∧ Forall (λ ev, is_traffic ev = false) l)
       ∧ (∃ t, status_of s'' j = Some t
               ∧ match t with
                 | Returned | Raised _ | Waiting _ _ _ _ => True
                 | _ => False
                 end)
       ∧ (∀ s1 raw,
            target_check E c s' = inr s1 →
            (c_depth c < max_depth (args E))%Z →
            load_cached cached = inr raw →
            s'' = uncaught j (expand E j c FromCache raw true (emit (EvSelect key) s1))))
  ∧ (∀ table raw,
       select_response table key = None →
       select_response (insert_row table key (Some (json_dumps raw))) key
       = Some (Some (json_dumps raw))
       ∧ load_cached (Some (json_dumps raw)) = inr raw).
Proof.
  intros Hsel Hrun.
  assert (Hsel' : select_response (friend_lists s') key = Some cached).
  { refine (run_ind E (λ s, select_response (friend_lists s) key = Some cached)
                    _ schedule s s' Hrun Hsel).
    intros i s1 s2 Hstep. by apply (step_select_response E i). }
  split; [done|]. split.
  - intros j c s'' Hj <- Hstep.
    pose proof Hstep as Hstep0.
    unfold step in Hstep. destruct (exit_status s') eqn:Hexit; [done|].
    rewrite Hj in Hstep. injection Hstep as <-.
    destruct (start_hit E j c s' cached Hsel') as ((l & Hl & Hq) & Hfl & t & chunk & Hp & Ht).
    destruct (log_uncaught_app j (start E j c s')) as (l' & Hl' & Hq').
    assert (Hquiet : Forall (λ ev, is_traffic ev = false) (l ++ l')).
    { apply Forall_app. split; [done|]. apply Forall_forall. by intros ev ->%Hq'. }
    split; [|split; [|split; [|split]]].
    + rewrite Hl', Hl, <-app_assoc, requests_app, (requests_quiet _ Hquiet).
      by rewrite app_nil_r.
    + by rewrite friend_lists_uncaught.
    + exists (l ++ l'). by rewrite Hl', Hl, <-app_assoc.
    + exists t. split; [|done]. rewrite status_of_uncaught.
      rewrite (status_of_alter j j t _ _ Hp), decide_True by done.
      rewrite lookup_app_l by eauto using status_of_lt.
      fold (status_of s' j). by rewrite Hj.
    + intros s1 raw Htc Hdepth Hload. f_equal. unfold start. rewrite Htc.
      apply target_check_inr in Htc as (Hfl1 & _).
      rewrite <-Hfl1 in Hsel'.
      rewrite (acquire_hit E j c s1 cached Hsel'), bool_decide_eq_false_2, Hload by lia.
      done.
  - intros table raw Hnone. split; [by apply select_response_insert_new | done].
Qed.

Lemma cache_idempotence_witness :
  ∃ s', run (world "A" 3 2 ["D"] diamond) [0; 0; 0; 1; 1; 1; 3; 3; 3; 1; 2; 2; 2]
            (initial (world "A" 3 2 ["D"] diamond) []) = Some s'
        ∧ select_response (friend_lists s') "D" = Some (Some (Dumped None))
        ∧ ∃ s'', step (world "A" 3 2 ["D"] diamond) 4 s' = Some s''
                 ∧ requests (log s'') = requests (log s').
Proof.
  eexists. split; [vm_compute; reflexivity|].
  split; [vm_compute; reflexivity|].
  lazymatch goal with
  | |- ∃ s'', step ?E 4 ?s = Some s'' ∧ _ =>
    pose proof (cache_idempotence E s s "D" (Some (Dumped None)) []
                  ltac:(vm_compute; reflexivity) eq_refl) as (_ & H & _)
  end.
  eexists. split; [vm_compute; reflexivity|].
  refine (proj1 (H 4 (mkCall "D" ["A"; "C"] 2
                             (MetaOf 0 1 (MetaOf 1 2 MetaEmpty false) false)) _ _ eq_refl _));
    vm_compute; reflexivity.
Defined.

(** The limit of the above: two calls on ["D"] that both looked for the row
    before either answer came back.  The first answer writes the row; the
    other call, asleep since its own miss, still sends its request. *)
Lemma concurrent_misses_request_twice :
  ∃ s s' c,
    run (world "A" 3 2 ["D"] diamond) [0; 0; 0; 1; 2; 1; 2; 2; 1; 4; 3; 4; 4]
        (initial (world "A" 3 2 ["D"] diamond) []) = Some s
    ∧ select_response (friend_lists s) "D" = Some (Some (Dumped None))
    ∧ status_of s 3 = Some (Sleeping c) ∧ c_steam_id c = "D"
    ∧ step (world "A" 3 2 ["D"] diamond) 3 s = Some s'
    ∧ requests (log s') = requests (log s) ++ ["D"].
Proof.
  eexists. eexists. eexists. split; [vm_compute; reflexivity|].
  split; [vm_compute; reflexivity|]. split; [vm_compute; reflexivity|].
  split; [vm_compute; reflexivity|]. split; vm_compute; reflexivity.
Qed.

(** ** Cache-only modes *)

Lemma cache_lookup_log table ids acc :
  Forall (λ ev, ∃ key, ev = EvSelectProfile key) acc.2 →
  Forall (λ ev, ∃ key, ev = EvSelectProfile key) (foldl (cache_lookup table) acc ids).2.
Proof.
  revert acc. induction ids as [|key ids IH]; intros [[mapped unmapped] l] Hl; [done|].
  simpl. apply IH. destruct (select_response table key); simpl in *;
    (apply Forall_app; split; [done|]; repeat constructor; by exists key).
Qed.

Lemma cache_pass_log table ids :
  Forall (λ ev, ∃ key, ev = EvSelectProfile key) (cache_pass table ids).2.
Proof. apply cache_lookup_log. constructor. Qed.

Section cache_only.
Context (E : Env).
Implicit Types (s : state) (c : call) (i j : nat) (t : task).

Lemma resolve_profiles_offline registry table :
  cached_only (args E) = CachedAll ∨ cached_only (args E) = ProfilesOnly →
  Forall (λ ev, ∃ key, ev = EvSelectProfile key)
         (resolver_log (resolve_profiles E registry table))
  ∧ profiles (resolve_profiles E registry table) = table
  ∧ resolver_exit (resolve_profiles E registry table) = None.
Proof.
  intros Hmode. unfold resolve_profiles.
  pose proof (cache_pass_log table (elements (related_steam_ids registry))) as Hlog.
  destruct (cache_pass table _) as [[mapped unmapped] l]. simpl in Hlog.
  by destruct Hmode as [-> | ->].
Qed.

End cache_only.

(** C8.  A call that has passed its target check below [--max_depth] and
    finds no row for its account: under [--cached_only all] or [friends_only]
    it returns, with nothing requested, written or created; otherwise it
    sleeps [--request_delay].  A sleeping call sends its request when it runs
    again; when the answer decodes, the row is written, null or not, and the
    expansion runs on the state that has the row.  Under [--cached_only all]
    or [profiles_only] the resolver only reads the [profiles] table. *)
Theorem cache_only_mode (E : Env) (s s1 : state) (i : nat) (c : call) :
  exit_status s = None →
  status_of s i = Some (Created c) →
  target_check E c s = inr s1 →
  (c_depth c < max_depth (args E))%Z →
  select_response (friend_lists s) (c_steam_id c) = None →
  (∃ s', step E i s = Some s'
     ∧ friend_lists s' = friend_lists s
     ∧ pool s' = alter (set_entry (match cached_only (args E) with
                                   | CachedAll | FriendsOnly => Returned
                                   | _ => Sleeping c
                                   end)) i (pool s)
     ∧ requests (log s') = requests (log s)
     ∧ match cached_only (args E) with
       | CachedAll | FriendsOnly =>
         status_of s' i = Some Returned
         ∧ log s' = log s1 ++ [EvSelect (c_steam_id c)]
       | _ =>
         status_of s' i = Some (Sleeping c)
         ∧ log s' = log s1 ++ [EvSelect (c_steam_id c); EvSleep (request_delay (args E))]
       end)
  ∧ (∀ s2, exit_status s2 = None → status_of s2 i = Some (Sleeping c) →
       ∃ s3, step E i s2 = Some s3
         ∧ status_of s3 i = Some (Requesting c (length (requests (log s2))))
         ∧ log s3 = log s2 ++ [EvGet (c_steam_id c)]
         ∧ friend_lists s3 = friend_lists s2)
  ∧ (∀ s3 nth r raw,
       exit_status s3 = None → status_of s3 i = Some (Requesting c nth) →
       get_friend_list E nth (c_steam_id c) = Some r → json r = Some raw →
       ∃ s4, step E i s3 = Some s4
         ∧ friend_lists s4 = friend_lists s3 ++ [(c_steam_id c, Some (json_dumps raw))]
         ∧ s4 = uncaught i
                  (expand E i c (Http r) raw false
                     (emit (EvInsert (c_steam_id c))
                        (with_friend_lists
                           (friend_lists s3 ++ [(c_steam_id c, Some (json_dumps raw))]) s3)))
         ∧ ∃ l, log s4 = log s3 ++ EvInsert (c_steam_id c) :: l
                ∧ Forall (λ ev, is_traffic ev = false) l)
  ∧ (cached_only (args E) = CachedAll ∨ cached_only (args E) = ProfilesOnly →
     ∀ registry table,
       Forall (λ ev, (∃ key, ev = EvSelectProfile key) ∨ ev = EvExit 0)
              (resolver_log (after_traversal E registry table))
       ∧ profiles (after_traversal E registry table) = table).
Proof.
  intros Hexit Hi Htc Hdepth Hmiss. split; [|split; [|split]].
  - eexists. split; [by apply step_created_enabled|].
    unfold start. rewrite Htc.
    apply target_check_inr in Htc as (Hfl & Hpool & _ & Hlog & _).
    unfold acquire. rewrite bool_decide_eq_false_2 by lia. cbn zeta. simpl friend_lists.
    rewrite Hfl, Hmiss.
    assert (Hreq : requests (log s1) = requests (log s)).
    { destruct Hlog as [->| ->]; [done|]. rewrite requests_app. simpl. by rewrite app_nil_r. }
    assert (Hst : ∀ t, status_of (set_status i t s1) i = Some t).
    { intros t. rewrite status_of_set_status, decide_True by done.
      unfold status_of. rewrite Hpool. fold (status_of s i). by rewrite Hi. }
    destruct (cached_only (args E));
      (erewrite uncaught_not_raised; [|exact (Hst _)|done]); simpl;
      rewrite ?Hpool, ?requests_app, ?Hreq; simpl; rewrite ?app_nil_r;
      repeat split; try done; try exact (Hst _); by rewrite <-app_assoc.
  - intros s2 Hexit2 Hi2. unfold step. rewrite Hexit2, Hi2. eexists. split; [done|].
    unfold wake.
    assert (Hst : status_of (set_status i (Requesting c (length (requests (log s2))))
                               (emit (EvGet (c_steam_id c)) s2)) i
                  = Some (Requesting c (length (requests (log s2))))).
    { by rewrite status_of_set_status, decide_True, status_of_emit, Hi2. }
    erewrite uncaught_not_raised; [|apply Hst|done]. by rewrite Hst.
  - intros s3 nth r raw Hexit3 Hi3 Hget Hjson. unfold step. rewrite Hexit3, Hi3.
    eexists. split; [done|]. unfold deliver. rewrite Hget, Hjson. cbn zeta.
    rewrite friend_lists_uncaught, friend_lists_expand. split; [done|]. split; [done|].
    match goal with |- context [uncaught i ?x] =>
      destruct (log_uncaught_app i x) as (l' & -> & Hq') end.
    match goal with |- context [expand E i c ?a ?b ?d ?x] =>
      destruct (log_expand_quiet E i c a b d x) as (l & -> & Hq) end.
    exists (l ++ l'). simpl. rewrite <-!app_assoc. split; [done|].
    apply Forall_app. split; [done|]. apply Forall_forall. by intros ev ->%Hq'.
  - intros Hmode registry table. unfold after_traversal. case_bool_decide.
    + simpl. split; [|done]. constructor; [by right | constructor].
    + destruct (resolve_profiles_offline E registry table Hmode) as (Hlog & Hp & _).
      split; [|done]. eapply Forall_impl; [done|]. intros ev ?. by left.
Qed.

Lemma cache_only_mode_witness :
  ∃ s', step (with_cached_only FriendsOnly (world "A" 3 2 ["D"] diamond)) 0
             (initial (with_cached_only FriendsOnly (world "A" 3 2 ["D"] diamond)) [])
        = Some s'
        ∧ status_of s' 0 = Some Returned ∧ requests (log s') = [].
Proof.
  destruct (cache_only_mode (with_cached_only FriendsOnly (world "A" 3 2 ["D"] diamond))
              (initial (with_cached_only FriendsOnly (world "A" 3 2 ["D"] diamond)) [])
              (initial (with_cached_only FriendsOnly (world "A" 3 2 ["D"] diamond)) [])
              0 (mkCall "A" [] 0 MetaEmpty) eq_refl eq_refl
              ltac:(vm_compute; reflexivity) ltac:(simpl; lia) eq_refl)
    as ((s' & Hstep & _ & _ & Hreq & Hst & _) & _).
  exists s'. split; [exact Hstep|]. split; [exact Hst | exact Hreq].
Defined.

(** ** Errors *)

Section errors.
Context (E : Env).
Implicit Types (s : state) (c : call) (i j : nat) (t : task).

Local Abbreviation n := (Z.to_nat (simultaneous_requests (args E))).

Lemma step_exited i s code : exit_status s = Some code → step E i s = None.
Proof. unfold step. by intros ->. Qed.

Lemma step_settled i s t : status_of s i = Some t → is_settled t = true → step E i s = None.
Proof. unfold step. intros -> Ht. destruct (exit_status s); [done|]. by destruct t. Qed.

(** A task that has settled stays as it is. *)
Lemma settled_stays i j s s' t :
  chunks_bounded n s → step E i s = Some s' →
  status_of s j = Some t → is_settled t = true → status_of s' j = Some t.
Proof.
  intros Hb Hstep Hj Ht.
  destruct (step_pool E i s s' Hb Hstep)
    as (t0 & Hi & Hu & _ & [[Hpool _]|(t' & chunk & Hpool & _)]).
  { unfold status_of. by rewrite Hpool. }
  rewrite (status_of_alter i j t' _ s' Hpool), decide_False by congruence.
  rewrite lookup_app_l by eauto using status_of_lt. done.
Qed.

Lemma parents_older_step i s s' :
  chunks_bounded n s → parents_older s → step E i s = Some s' → parents_older s'.
Proof.
  intros Hb Hinv Hstep.
  destruct (step_pool E i s s' Hb Hstep)
    as (t0 & Hi & _ & _ & [[Hpool _]|(t & chunk & Hpool & _)]).
  { intros j e. rewrite Hpool. apply Hinv. }
  pose proof (status_of_lt s i t0 Hi) as Hlt.
  intros j e. rewrite Hpool. destruct (decide (j < length (pool s))) as [Hj|Hj].
  - destruct (decide (i = j)) as [->|Hij].
    + rewrite list_lookup_alter_eq, lookup_app_l by done.
      destruct (pool s !! j) as [e0|] eqn:He0; [|done]. intros [= <-]. simpl.
      by apply (Hinv j e0).
    + rewrite list_lookup_alter_ne, lookup_app_l by done. apply Hinv.
  - rewrite list_lookup_alter_ne, lookup_app_r by lia.
    intros (-> & _)%lookup_spawned_parent. lia.
Qed.

Lemma raised_awaited_step i s s' :
  chunks_bounded n s → children_awaited s → parents_older s → raised_awaited s →
  step E i s = Some s' → raised_awaited s'.
Proof.
  intros Hb Hc Ho Hinv Hstep Hexit'.
  destruct (step_pool E i s s' Hb Hstep)
    as (t0 & Hi & Hu & _ & [[_ Hex]|(t & chunk & Hpool & _ & Hany & _)]);
    [congruence|].
  assert (Hexit : exit_status s = None).
  { unfold step in Hstep. by destruct (exit_status s). }
  pose proof (status_of_lt s i t0 Hi) as Hlt.
  intros j e p err Hj Hp Herr. rewrite Hpool in Hj.
  destruct (decide (j < length (pool s))) as [Hjlt|Hjge].
  2: { rewrite list_lookup_alter_ne, lookup_app_r in Hj by lia.
       apply lookup_spawned_parent in Hj as (_ & c0 & Hc0). congruence. }
  assert (∃ e0, pool s !! j = Some e0 ∧ parent e0 = Some p
                ∧ (is_settled (status e0) = false ∨ status e0 = Raised err))
    as (e0 & Hj0 & Hp0 & Hs0).
  { destruct (decide (i = j)) as [->|Hij].
    - rewrite list_lookup_alter_eq, lookup_app_l in Hj by done.
      destruct (pool s !! j) as [e0|] eqn:He0; [|done]. simplify_eq/=.
      exists e0. repeat split; try done. left.
      unfold status_of in Hi. rewrite He0 in Hi. simpl in Hi. congruence.
    - rewrite list_lookup_alter_ne, lookup_app_l in Hj by done. exists e. auto. }
  assert (∃ c r chk rest, status_of s p = Some (Waiting c r chk rest) ∧ j ∈ chk)
    as (c & r & chk & rest & Hw & Hin).
  { destruct Hs0 as [Hs0|Hs0]; [by apply (Hc j e0)|by apply (Hinv Hexit j e0 p err)]. }
  exists c, r, chk, rest. split; [|done].
  assert (Hpi : p ≠ i).
  { intros ->. rewrite Hw in Hi. injection Hi as <-.
    pose proof (Ho j e0 Hj0) as Hlt0. rewrite Hp0 in Hlt0.
    assert (status e0 = Raised err) as Hr.
    { destruct Hs0 as [Hs0|Hs0]; [|done].
      destruct (decide (i = j)) as [->|Hij]; [lia|].
      rewrite list_lookup_alter_ne, lookup_app_l in Hj by done. congruence. }
    assert (any_exception s chk = true) as Hex.
    { apply any_exception_spec. exists j, err. split; [done|].
      unfold status_of. by rewrite Hj0, <-Hr. }
    rewrite (Hany c r chk rest eq_refl) in Hex. done. }
  rewrite (status_of_alter i p t _ s' Hpool), decide_False by done.
  rewrite lookup_app_l by eauto using status_of_lt. done.
Qed.

Lemma exit_is_failure_step i s s' :
  chunks_bounded n s → parents_older s → exit_is_failure s →
  step E i s = Some s' → exit_is_failure s'.
Proof.
  intros Hb Ho [Hcode Hroot] Hstep.
  assert (Hexit : exit_status s = None).
  { unfold step in Hstep. by destruct (exit_status s). }
  destruct (step_pool E i s s' Hb Hstep)
    as (t0 & Hi & Hu & _ & [[Hpool Hex]|(t & chunk & Hpool & _ & _ & Hex)]).
  { split; [congruence|]. done. }
  pose proof (status_of_lt s i t0 Hi) as Hlt.
  split.
  - intros code. rewrite Hex. case_match; congruence.
  - intros e. rewrite (status_of_alter i 0 t _ s' Hpool).
    destruct (decide (i = 0)) as [->|Hi0].
    + rewrite lookup_app_l by done.
      destruct (pool s !! 0) as [e0|] eqn:He0; [|done].
      intros [= ->]. rewrite Hex. simpl.
      pose proof (Ho 0 e0 He0) as Hp0. destruct (parent e0); [lia|].
      by rewrite bool_decide_eq_true_2.
    + rewrite lookup_app_l by lia. intros Hr%Hroot. congruence.
Qed.

Lemma reachable_errors s :
  reachable E s →
  chunks_bounded n s ∧ children_awaited s ∧ parents_older s ∧ raised_awaited s
  ∧ exit_is_failure s.
Proof.
  intros (db & schedule & Hrun).
  refine (run_ind E (λ s, chunks_bounded n s ∧ children_awaited s ∧ parents_older s
                          ∧ raised_awaited s ∧ exit_is_failure s)
                  _ schedule _ s Hrun _).
  - intros i s1 s2 Hstep (Hb & Hc & Ho & Hr & Hx).
    eauto 10 using chunks_bounded_step, children_awaited_step, parents_older_step,
      raised_awaited_step, exit_is_failure_step.
  - split; [apply chunks_bounded_initial|]. split; [apply children_awaited_initial|].
    split; [|split].
    + intros [|j] e He; simpl in He; [by simplify_eq|]. by rewrite lookup_nil in He.
    + intros _ [|j] e p err He; simpl in He; [by simplify_eq|].
      by rewrite lookup_nil in He.
    + by split.
Qed.

(** While a task runs, so does every task up to the first call. *)
Lemma unsettled_root s j t :
  children_awaited s → parents_older s →
  status_of s j = Some t → is_settled t = false →
  ∃ t0, status_of s 0 = Some t0 ∧ is_settled t0 = false.
Proof.
  intros Hc Ho. revert t. induction (lt_wf j) as [j _ IH]. intros t Hj Ht.
  unfold status_of in Hj. destruct (pool s !! j) as [e|] eqn:He; [|done].
  simpl in Hj. injection Hj as <-.
  pose proof (Ho j e He) as Hp. destruct (parent e) as [p|] eqn:Hpe.
  - destruct (Hc j e p He Hpe Ht) as (c & r & chunk & rest & Hw & _).
    by apply (IH p Hp (Waiting c r chunk rest)).
  - subst j. exists (status e). unfold status_of. by rewrite He.
Qed.

End errors.

Section wrapping.
Context (E : Env).
Implicit Types (s : state) (c : call) (i j : nat) (t : task).

Lemma requests_log_uncaught i s : requests (log (uncaught i s)) = requests (log s).
Proof.
  destruct (log_uncaught i s) as [->| ->]; [done|].
  rewrite requests_app. simpl. by rewrite app_nil_r.
Qed.

Lemma requests_log_expand i c r raw cached s :
  requests (log (expand E i c r raw cached s)) = requests (log s).
Proof.
  destruct (log_expand_quiet E i c r raw cached s) as (l & -> & Hq).
  by rewrite requests_app, (requests_quiet l Hq), app_nil_r.
Qed.

Lemma requests_log_next_chunk i c r chunks s :
  requests (log (next_chunk i c r chunks s)) = requests (log s).
Proof.
  rewrite log_next_chunk, requests_app.
  rewrite (requests_quiet (EvCreateTask i <$> _)); [by rewrite app_nil_r|].
  apply Forall_fmap, Forall_true. done.
Qed.

Lemma requests_log_start i c s : requests (log (start E i c s)) = requests (log s).
Proof.
  unfold start. destruct (target_check E c s) as [ex|s1] eqn:Htc; [done|].
  apply target_check_inr in Htc as (_ & _ & _ & Hlog & _).
  assert (requests (log s1) = requests (log s)) as <-.
  { destruct Hlog as [->| ->]; [done|]. rewrite requests_app. simpl. by rewrite app_nil_r. }
  unfold acquire. repeat case_match; simpl; rewrite ?requests_log_expand; simpl;
    rewrite ?requests_app; simpl; by rewrite ?app_nil_r.
Qed.

Lemma requests_log_deliver i c nth s :
  requests (log (deliver E i c nth s)) = requests (log s).
Proof.
  unfold deliver. repeat case_match; simpl; rewrite ?requests_log_expand; simpl;
    rewrite ?requests_app; simpl; by rewrite ?app_nil_r.
Qed.

(** A request leaves only when a sleeping call wakes up. *)
Lemma step_requests i s s' :
  step E i s = Some s' →
  requests (log s') = requests (log s)
  ∨ ∃ c, status_of s i = Some (Sleeping c)
         ∧ requests (log s') = requests (log s) ++ [c_steam_id c].
Proof.
  unfold step. destruct (exit_status s); [done|].
  destruct (status_of s i) as [[c|c|c nth|c r chunk rest| |e]|] eqn:Hi; try done;
    intros ?; simplify_eq; rewrite ?requests_log_uncaught.
  - left. apply requests_log_start.
  - right. exists c. split; [done|]. simpl. by rewrite requests_app.
  - left. apply requests_log_deliver.
  - left. unfold resume in *. repeat case_match; simplify_eq/=;
      rewrite requests_log_uncaught; simpl;
      rewrite ?requests_log_next_chunk, ?requests_app; simpl; by rewrite ?app_nil_r.
Qed.

Lemma status_of_run i X t l s t0 :
  pool X = alter (set_entry t) i (pool s ++ l) → status_of s i = Some t0 →
  status_of X i = Some t.
Proof.
  intros HX Hi. rewrite (status_of_alter i i t _ X HX), decide_True by done.
  rewrite lookup_app_l by eauto using status_of_lt. fold (status_of s i). by rewrite Hi.
Qed.

(** Lines 324-327: what a [FindError] carries. *)
Lemma step_raised i s s' e :
  step E i s = Some s' → status_of s' i = Some (Raised e) →
  (∃ c, status_of s i = Some (Created c) ∧ steam_id e = c_steam_id c
        ∧ (response e = NoResponse ∧ cause e = KeyError "previous_was_from_cache"
           ∧ c_steam_id c = gaben_steam_id E ∧ c_meta c = MetaEmpty
           ∨ response e = FromCache
             ∧ ∃ cached, select_response (friend_lists s) (c_steam_id c) = Some cached))
  ∨ (∃ c nth, status_of s i = Some (Requesting c nth) ∧ steam_id e = c_steam_id c
              ∧ match get_friend_list E nth (c_steam_id c) with
                | None => response e = NoResponse ∧ cause e = TransportError
                | Some r => response e = Http r
                end).
Proof.
  unfold step. destruct (exit_status s); [done|].
  destruct (status_of s i) as [[c|c|c nth|c r chunk rest| |e0]|] eqn:Hi; try done;
    intros ?; simplify_eq; rewrite ?status_of_uncaught.
  - intros Hr. left. exists c. split; [done|]. revert Hr. unfold start.
    destruct (target_check E c s) as [ex|s1] eqn:Htc.
    + apply target_check_inl in Htc as (_ & Hg & Hm & ->).
      rewrite status_of_raise, decide_True, Hi by done. intros [= <-]. simpl. auto 10.
    + apply target_check_inr in Htc as (Hfl & Hpool & _).
      assert (Hi1 : status_of s1 i = Some (Created c)).
      { unfold status_of. by rewrite Hpool. }
      unfold acquire. case_bool_decide.
      { rewrite status_of_set_status, decide_True, Hi1 by done. done. }
      cbn zeta. simpl friend_lists. rewrite Hfl.
      destruct (select_response (friend_lists s) (c_steam_id c)) as [cached|] eqn:Hsel.
      * destruct (load_cached cached) as [ex|raw].
        -- rewrite status_of_raise, decide_True, status_of_emit, Hi1 by done.
           intros [= <-]. simpl. eauto.
        -- destruct (pool_expand E i c FromCache raw true (emit (EvSelect (c_steam_id c)) s1))
             as (t & chunk & Hp & Ht).
           rewrite (status_of_run i _ t _ _ _ Hp Hi1). intros [= ->].
           destruct Ht as (_ & -> & _). simpl. eauto.
      * destruct (cached_only (args E));
          rewrite status_of_set_status, decide_True by done; simpl;
          rewrite ?status_of_emit, Hi1; done.
  - unfold wake. rewrite status_of_set_status, decide_True, status_of_emit, Hi by done.
    done.
  - intros Hr. right. exists c, nth. split; [done|]. revert Hr. unfold deliver.
    destruct (get_friend_list E nth (c_steam_id c)) as [r|].
    2: { rewrite status_of_raise, decide_True, Hi by done. by intros [= <-]. }
    destruct (json r) as [raw|].
    2: { rewrite status_of_raise, decide_True, Hi by done. by intros [= <-]. }
    match goal with |- context [expand E i c ?a ?b ?d ?x] =>
      destruct (pool_expand E i c a b d x) as (t & chunk & Hp & Ht) end.
    rewrite (status_of_run i _ t _ _ _ Hp Hi). intros [= ->].
    by destruct Ht as (_ & -> & _).
  - unfold resume in *. destruct (all_completed s chunk); [|done].
    destruct (any_exception s chunk); simplify_eq/=; rewrite status_of_uncaught.
    + unfold status_of in *. simpl. by rewrite Hi.
    + rewrite (status_of_next_chunk i c r _ s _ Hi). by destruct rest.
Qed.

End wrapping.

(** C9, as the code has it.  A call that raises leaves as a [FindError] with
    its own [steam_id] and its [response] variable: [None] when the call fails
    at line 204 or when the request itself fails, ["<from cache>"] after a
    row was found, the response once [client.get] has returned.  The step
    sends no request, and the task never runs again.  While the process
    runs, a task that has raised is in the chunk its creator awaits, the
    first call has not returned, and the creator leaves the process with
    status 1 as soon as the chunk has completed; the first call raising ends
    it with status 1 too.  No step removes a row or a registry entry. *)
Theorem find_errors_are_fatal (E : Env) (s : state) :
  reachable E s →
  (∀ i s' e,
     step E i s = Some s' → status_of s' i = Some (Raised e) →
     requests (log s') = requests (log s)
     ∧ ((∃ c, status_of s i = Some (Created c) ∧ steam_id e = c_steam_id c
              ∧ (response e = NoResponse ∧ cause e = KeyError "previous_was_from_cache"
                 ∧ c_steam_id c = gaben_steam_id E ∧ c_meta c = MetaEmpty
                 ∨ response e = FromCache
                   ∧ ∃ cached,
                       select_response (friend_lists s) (c_steam_id c) = Some cached))
        ∨ (∃ c nth, status_of s i = Some (Requesting c nth) ∧ steam_id e = c_steam_id c
                    ∧ match get_friend_list E nth (c_steam_id c) with
                      | None => response e = NoResponse ∧ cause e = TransportError
                      | Some r => response e = Http r
                      end)))
  ∧ (∀ j e,
       status_of s j = Some (Raised e) →
       step E j s = None
       ∧ ∀ i s', step E i s = Some s' → status_of s' j = Some (Raised e))
  ∧ (∀ j e,
       status_of s j = Some (Raised e) →
       exit_status s = Some 1%Z
       ∨ (∃ t0, status_of s 0 = Some t0 ∧ is_settled t0 = false)
         ∧ ∃ p c r chunk rest,
             parent <$> pool s !! j = Some (Some p)
             ∧ status_of s p = Some (Waiting c r chunk rest) ∧ j ∈ chunk
             ∧ (all_completed s chunk = true →
                ∃ s', step E p s = Some s' ∧ exit_status s' = Some 1%Z))
  ∧ (∀ code, exit_status s = Some code → code = 1%Z ∧ ∀ j, step E j s = None)
  ∧ (∀ i s',
       step E i s = Some s' →
       friend_lists s `prefix_of` friend_lists s'
       ∧ ∀ key, is_Some (finds s !! key) → is_Some (finds s' !! key)).
Proof.
  intros Hreach.
  destruct (reachable_errors E s Hreach) as (Hb & Hc & Ho & Hr & Hcode & Hroot).
  split; [|split; [|split; [|split]]].
  - intros i s' e Hstep Hraised. split; [|by apply (step_raised E i s s')].
    destruct (step_requests E i s s' Hstep) as [?|(c & Hi & _)]; [done|].
    destruct (step_raised E i s s' e Hstep Hraised)
      as [(c' & Hi' & _)|(c' & nth & Hi' & _)]; congruence.
  - intros j e Hj. split; [by apply (step_settled E j s (Raised e))|].
    intros i s' Hstep. by apply (settled_stays E i j s s' (Raised e)).
  - intros j e Hj. destruct (exit_status s) as [code|] eqn:Hexit.
    { left. f_equal. by apply Hcode. }
    right. unfold status_of in Hj.
    destruct (pool s !! j) as [e0|] eqn:He0; [|done]. simpl in Hj. injection Hj as Hj.
    pose proof (Ho j e0 He0) as Hp. destruct (parent e0) as [p|] eqn:Hpe.
    2: { subst j. assert (status_of s 0 = Some (Raised e)) as Hs0.
         { unfold status_of. rewrite He0. simpl. by rewrite Hj. }
         by apply Hroot in Hs0. }
    destruct (Hr Hexit j e0 p e He0 Hpe Hj) as (c & r & chunk & rest & Hw & Hin).
    split; [by apply (unsettled_root s p (Waiting c r chunk rest))|].
    exists p, c, r, chunk, rest. simpl. rewrite Hpe. repeat split; try done.
    intros Hall. unfold step. rewrite Hexit, Hw. unfold resume. rewrite Hall.
    assert (any_exception s chunk = true) as ->.
    { apply any_exception_spec. exists j, e. split; [done|].
      unfold status_of. rewrite He0. simpl. by rewrite Hj. }
    eexists. split; [done|]. unfold uncaught. by repeat case_match.
  - intros code Hexit. split; [by apply Hcode|]. intros j. by apply (step_exited E j s code).
  - intros i s' Hstep. split.
    + destruct (step_friend_lists E i s s' Hstep) as [->|(c & nth & r & raw & _ & _ & _ & ->)];
        [done|]. by apply prefix_app_r.
    + intros key [f Hf].
      destruct (step_registry_record E i s s' key f Hstep Hf) as [->|(c & _ & _ & _ & ->)];
        eauto.
Qed.

(** C9, as the spec has it, fails: Steam cannot be reached, and the
    [FindError] of the first call carries neither a response nor the
    marker. *)
Lemma find_error_without_response :
  ∃ s, run (unplugged (world "A" 3 2 ["D"] diamond)) [0; 0; 0]
           (initial (unplugged (world "A" 3 2 ["D"] diamond)) []) = Some s
       ∧ status_of s 0 = Some (Raised (mkFindError "A" NoResponse TransportError))
       ∧ exit_status s = Some 1%Z
       ∧ ∀ e, status_of s 0 = Some (Raised e) →
              response e ≠ FromCache ∧ ∀ r, response e ≠ Http r.
Proof.
  eexists. split; [vm_compute; reflexivity|].
  split; [vm_compute; reflexivity|]. split; [vm_compute; reflexivity|].
  intros e He. vm_compute in He. injection He as <-. split; [done|]. by intros r.
Qed.

Lemma find_errors_are_fatal_witness :
  ∃ s s', run (unplugged (world "A" 3 2 ["D"] diamond)) [0; 0]
              (initial (unplugged (world "A" 3 2 ["D"] diamond)) []) = Some s
          ∧ step (unplugged (world "A" 3 2 ["D"] diamond)) 0 s = Some s'
          ∧ requests (log s') = requests (log s).
Proof.
  eexists. eexists. split; [vm_compute; reflexivity|]. split; [vm_compute; reflexivity|].
  lazymatch goal with
  | |- requests (log ?s') = requests (log ?s) =>
    assert (Hreach : reachable (unplugged (world "A" 3 2 ["D"] diamond)) s)
      by (exists [], [0; 0]; vm_compute; reflexivity);
    refine (proj1 (proj1 (find_errors_are_fatal _ s Hreach) 0 s'
                     (mkFindError "A" NoResponse TransportError) _ _));
    vm_compute; reflexivity
  end.
Defined.

(** ** The diamond scenario *)

Section exploration.
Context (E : Env).
Implicit Types (s : state) (i : nat).

Lemma successors_step i s s' : step E i s = Some s' → s' ∈ successors E s.
Proof.
  intros Hstep. unfold successors. apply list_elem_of_omap. exists i. split; [|done].
  apply elem_of_seq. split; [lia|]. simpl.
  unfold step in Hstep. destruct (exit_status s); [done|].
  destruct (status_of s i) as [t|] eqn:Hi; [|done]. eauto using status_of_lt.
Qed.

Lemma quiescent_spec s : quiescent E s ↔ ∀ i, step E i s = None.
Proof.
  unfold quiescent. split.
  - intros Hq i. destruct (step E i s) as [s'|] eqn:Hstep; [|done].
    apply successors_step in Hstep. rewrite Hq in Hstep. by apply elem_of_nil in Hstep.
  - intros Hq. unfold successors.
    induction (seq 0 (length (pool s))) as [|i l IH]; [done|].
    simpl. by rewrite Hq.
Qed.

(** [all_runs] looks at every schedule. *)
Lemma all_runs_sound fuel P s :
  all_runs E fuel P s = true →
  ∀ schedule s', run E schedule s = Some s' → quiescent E s' → P s' = true.
Proof.
  revert s. induction fuel as [|fuel IH]; intros s Hall schedule s' Hrun Hq; [done|].
  change (match successors E s with
          | [] => P s
          | s1 :: next => forallb (all_runs E fuel P) (s1 :: next)
          end = true) in Hall.
  destruct schedule as [|i schedule]; simpl in Hrun.
  - simplify_eq. unfold quiescent in Hq. by rewrite Hq in Hall.
  - destruct (step E i s) as [s1|] eqn:Hstep; [|done].
    apply successors_step in Hstep.
    destruct (successors E s) as [|s2 next] eqn:Hsucc; [by apply elem_of_nil in Hstep|].
    rewrite forallb_forall in Hall.
    apply (IH s1 (Hall s1 (proj1 (list_elem_of_In _ _) Hstep)) schedule); done.
Qed.

End exploration.

Lemma diamond_outcome_spec s :
  diamond_outcome s = true →
  exit_status s = None ∧ status_of s 0 = Some Returned
  ∧ ∃ f, finds s = {["D" := f]} ∧ valve_dev_steam_id f = "D" ∧ depth f = 2%Z
         ∧ previous_depth_find f = None
         ∧ steam_id_tallies f ≡ₚ [["A"; "B"]; ["A"; "C"]].
Proof.
  unfold diamond_outcome. intros H.
  destruct (exit_status s); [done|].
  destruct (status_of s 0) as [[]|]; try done.
  destruct (map_to_list (finds s)) as [|[key [dev tallies d [prev|]]] [|? ?]] eqn:Hl;
    try done.
  apply andb_true_iff in H as [H Hch]. apply andb_true_iff in H as [H Hd].
  apply andb_true_iff in H as [Hk Hdev].
  apply bool_decide_eq_true in Hk as ->. apply bool_decide_eq_true in Hdev as ->.
  apply bool_decide_eq_true in Hd as ->.
  split; [done|]. split; [done|]. eexists. split.
  { rewrite <-(list_to_map_to_list (finds s)), Hl. simpl. by rewrite insert_empty. }
  repeat split. simpl.
  apply orb_true_iff in Hch as [->%bool_decide_eq_true| ->%bool_decide_eq_true];
    [done | apply Permutation_swap].
Qed.

(** C7.  From ["A"], with target ["D"], [--max_depth 3], the friend lists
    A: B, C; B: D; C: D, an empty database and one to three simultaneous
    requests: however the tasks are scheduled, when no task can run any more
    the first call has returned and the registry is one record, of ["D"], at
    depth 2, whose chains are [A, B] and [A, C] in some order. *)
Theorem diamond_scenario (n : Z) (schedule : list nat) (s : state) :
  (1 ≤ n ≤ 3)%Z →
  run (world "A" 3 n ["D"] diamond) schedule (initial (world "A" 3 n ["D"] diamond) [])
  = Some s →
  quiescent (world "A" 3 n ["D"] diamond) s →
  exit_status s = None ∧ status_of s 0 = Some Returned
  ∧ ∃ f, finds s = {["D" := f]} ∧ valve_dev_steam_id f = "D" ∧ depth f = 2%Z
         ∧ previous_depth_find f = None
         ∧ steam_id_tallies f ≡ₚ [["A"; "B"]; ["A"; "C"]].
Proof.
  intros Hn Hrun Hq. apply diamond_outcome_spec.
  assert (n = 1 ∨ n = 2 ∨ n = 3)%Z as [->|[->| ->]] by lia;
    (eapply (all_runs_sound _ 40); [|exact Hrun|exact Hq]); vm_compute; reflexivity.
Qed.

Lemma diamond_scenario_witness :
  ∃ s, run (world "A" 3 2 ["D"] diamond)
           [0; 0; 0; 1; 2; 1; 2; 2; 1; 4; 3; 4; 3; 3; 4; 1; 2; 0]
           (initial (world "A" 3 2 ["D"] diamond) []) = Some s
       ∧ quiescent (world "A" 3 2 ["D"] diamond) s
       ∧ requests (log s) = ["A"; "B"; "C"; "D"; "D"]
       ∧ ∃ f, finds s = {["D" := f]} ∧ depth f = 2%Z
              ∧ steam_id_tallies f ≡ₚ [["A"; "B"]; ["A"; "C"]].
Proof.
  eexists. split; [vm_compute; reflexivity|]. split; [vm_compute; reflexivity|].
  split; [vm_compute; reflexivity|].
  lazymatch goal with
  | |- ∃ f, finds ?s = _ ∧ _ =>
    destruct (diamond_scenario 2
                [0; 0; 0; 1; 2; 1; 2; 2; 1; 4; 3; 4; 3; 3; 4; 1; 2; 0] s
                ltac:(lia) ltac:(vm_compute; reflexivity) ltac:(vm_compute; reflexivity))
      as (_ & _ & f & Hf & _ & Hd & _ & Hp)
  end.
  exists f. split; [exact Hf|]. split; [exact Hd | exact Hp].
Defined.

(** The same graph with [--max_depth 1]: ["D"] is out of reach and the
    registry stays empty. *)
Lemma diamond_out_of_reach (schedule : list nat) (s : state) :
  run (world "A" 1 2 ["D"] diamond) schedule (initial (world "A" 1 2 ["D"] diamond) [])
  = Some s →
  quiescent (world "A" 1 2 ["D"] diamond) s →
  finds s = ∅.
Proof.
  intros Hrun Hq. apply map_to_list_empty_iff.
  apply (bool_decide_eq_true_1 (map_to_list (finds s) = [])).
  refine (all_runs_sound _ 40 (λ s, bool_decide (map_to_list (finds s) = [])) _ _
            schedule s Hrun Hq).
  vm_compute. reflexivity.
Qed.

(** A database that has the friend list of ["A"], and [--cached_only
    friends_only]: the list is used, ["B"] is found through ["A"], and no
    request is sent. *)
Lemma cached_friends_only (schedule : list nat) (s : state) :
  run (with_cached_only FriendsOnly (world "A" 3 2 ["B"] diamond)) schedule
      (initial (with_cached_only FriendsOnly (world "A" 3 2 ["B"] diamond))
               [("A", Some (Dumped (Some (friends_named ["B"]))))])
  = Some s →
  quiescent (with_cached_only FriendsOnly (world "A" 3 2 ["B"] diamond)) s →
  requests (log s) = [] ∧ finds s !! "B" = Some (mkFind "B" [["A"]] 1 None).
Proof.
  intros Hrun Hq.
  assert (cached_outcome s = true) as H.
  { eapply (all_runs_sound _ 40); [|exact Hrun|exact Hq]. vm_compute. reflexivity. }
  unfold cached_outcome in H.
  destruct (requests (log s)); [|done]. split; [done|].
  destruct (map_to_list (finds s)) as [|[key [dev tallies d [prev|]]] [|? ?]] eqn:Hl;
    try done.
  apply andb_true_iff in H as [H Hch]. apply andb_true_iff in H as [H Hd].
  apply andb_true_iff in H as [Hk Hdev].
  apply bool_decide_eq_true in Hk as ->. apply bool_decide_eq_true in Hdev as ->.
  apply bool_decide_eq_true in Hd as ->. apply bool_decide_eq_true in Hch as ->.
  rewrite <-(list_to_map_to_list (finds s)), Hl. apply lookup_insert_eq.
Qed.

(** ** Chains and depths *)

Lemma batched_loop_elem_of {A} fuel (l : list A) n x :
  x ∈ concat (batched_loop fuel l n) → x ∈ l.
Proof.
  revert l. induction fuel as [|fuel IH]; intros l; simpl; [by intros ?%elem_of_nil|].
  destruct (take n l) as [|y chunk] eqn:Htake; [by intros ?%elem_of_nil|].
  rewrite concat_cons, elem_of_app, <-Htake. intros [Hx|Hx];
    rewrite <-(take_drop n l); apply elem_of_app; [by left|].
  right. by apply IH.
Qed.

Section calls.
Context (E : Env) (P : call → Prop).
Hypothesis P_child : ∀ c c', P c → child_of c c' → P c'.
Implicit Types (s : state) (c : call) (i j : nat) (t : task).

Lemma all_calls_set_status i t s :
  Forall P (all_calls s) → Forall P (task_calls t) → Forall P (all_calls (set_status i t s)).
Proof.
  unfold all_calls. rewrite !Forall_bind. simpl. intros Hs Ht.
  apply Forall_alter; [done|]. by intros e _ _.
Qed.

Lemma all_calls_next_chunk i c r chunks s :
  Forall P (all_calls s) → P c → Forall P (concat chunks) →
  Forall P (all_calls (next_chunk i c r chunks s)).
Proof.
  intros Hs Hc Hch. destruct chunks as [|chunk rest]; [by apply all_calls_set_status|].
  rewrite concat_cons in Hch. apply Forall_app in Hch as [Hchunk Hrest].
  unfold next_chunk, create_tasks. cbn zeta.
  apply all_calls_set_status; [|by constructor].
  unfold all_calls in *. simpl. rewrite bind_app. apply Forall_app. split; [done|].
  unfold spawned. rewrite Forall_bind, Forall_fmap. eapply Forall_impl; [exact Hchunk|].
  intros c' Hc'. simpl. by constructor.
Qed.

Lemma futures_of_child c friends cached c' :
  c' ∈ futures_of c friends cached → child_of c c'.
Proof.
  unfold futures_of. intros (idx & f & -> & _)%elem_of_lookup_imap_1. by split.
Qed.

Lemma all_calls_expand i c r raw cached s :
  Forall P (all_calls s) → P c → Forall P (all_calls (expand E i c r raw cached s)).
Proof.
  intros Hs Hc. unfold expand. repeat case_bool_decide.
  - by apply all_calls_set_status.
  - apply all_calls_next_chunk; [done..|]. apply Forall_forall.
    intros c' Hc'%batched_loop_elem_of. eauto using futures_of_child.
  - by apply all_calls_set_status.
Qed.

Lemma all_calls_start i c s :
  Forall P (all_calls s) → P c → Forall P (all_calls (start E i c s)).
Proof.
  intros Hs Hc. unfold start. destruct (target_check E c s) as [ex|s1] eqn:Htc.
  { by apply all_calls_set_status. }
  apply target_check_inr in Htc as (_ & Hpool & _).
  assert (Hs1 : Forall P (all_calls s1)) by (unfold all_calls; by rewrite Hpool).
  unfold acquire. repeat case_match;
    try (apply all_calls_set_status; [done|by repeat constructor]).
  by apply all_calls_expand.
Qed.

Lemma all_calls_deliver i c nth s :
  Forall P (all_calls s) → P c → Forall P (all_calls (deliver E i c nth s)).
Proof.
  intros Hs Hc. unfold deliver. repeat case_match;
    try (apply all_calls_set_status; [done|by repeat constructor]).
  by apply all_calls_expand.
Qed.

Lemma all_calls_lookup s j t c :
  Forall P (all_calls s) → status_of s j = Some t → c ∈ task_calls t → P c.
Proof.
  unfold all_calls, status_of. rewrite Forall_bind, Forall_lookup. intros Hs Hj Hc.
  destruct (pool s !! j) as [e|] eqn:He; [|done]. simpl in Hj. injection Hj as <-.
  specialize (Hs j e He). simpl in Hs. rewrite Forall_forall in Hs. auto.
Qed.

Lemma all_calls_uncaught i s : all_calls (uncaught i s) = all_calls s.
Proof. unfold all_calls. by rewrite pool_uncaught. Qed.

Lemma all_calls_step i s s' :
  Forall P (all_calls s) → step E i s = Some s' → Forall P (all_calls s').
Proof.
  intros Hs. unfold step. destruct (exit_status s); [done|].
  destruct (status_of s i) as [[c|c|c nth|c r chunk rest| |e]|] eqn:Hi; try done;
    intros ?; simplify_eq; rewrite ?all_calls_uncaught.
  - apply all_calls_start; [done|]. eapply all_calls_lookup; [done..|]. by left.
  - apply all_calls_set_status; [done|]. repeat constructor.
    eapply all_calls_lookup; [done..|]. by left.
  - apply all_calls_deliver; [done|]. eapply all_calls_lookup; [done..|]. by left.
  - unfold resume in *. destruct (all_completed s chunk); [|done].
    destruct (any_exception s chunk); simplify_eq/=; rewrite all_calls_uncaught; [done|].
    apply all_calls_next_chunk; [done| |].
    + eapply all_calls_lookup; [done..|]. by left.
    + apply Forall_forall. intros c' Hc'. eapply all_calls_lookup; [done..|]. by right.
Qed.

End calls.

Lemma depth_is_length_child c c' : depth_is_length c → child_of c c' → depth_is_length c'.
Proof.
  unfold depth_is_length. intros Hc [-> ->]. rewrite length_app, Hc. simpl. lia.
Qed.

(** Every call is made at the depth that is the length of its chain, and
    the registry is only ever given such a chain and depth. *)
Lemma chains_have_the_depth (E : Env) (s : state) :
  reachable E s →
  (∀ j t c, status_of s j = Some t → c ∈ task_calls t → depth_is_length c)
  ∧ (∀ i s',
       step E i s = Some s' →
       finds s' = finds s
       ∨ ∃ c, status_of s i = Some (Created c) ∧ c_steam_id c ∈ target_steam_ids E
              ∧ depth_is_length c
              ∧ finds s' = record_find (finds s) (c_steam_id c) (c_steam_ids_tally c)
                                       (Z.of_nat (length (c_steam_ids_tally c)))).
Proof.
  intros (db & schedule & Hrun).
  assert (Hall : Forall depth_is_length (all_calls s)).
  { refine (run_ind E (λ s, Forall depth_is_length (all_calls s)) _ schedule _ s Hrun _).
    - intros i s1 s2 Hstep H1.
      by apply (all_calls_step E depth_is_length depth_is_length_child i s1 s2).
    - by repeat constructor. }
  split.
  - intros j t c. by apply all_calls_lookup.
  - intros i s' Hstep. destruct (step_finds E i s s' Hstep) as [?|(c & Hi & Ht & Hf)];
      [by left|].
    right. exists c. assert (depth_is_length c) as Hc.
    { eapply all_calls_lookup; [done..|]. by left. }
    repeat split; try done. by rewrite <-Hc.
Qed.

(** X23.  A first call on a target other than Gabe Newell's id is recorded
    at depth 0 with the empty chain alone. *)
Lemma first_call_on_a_target (E : Env) (db : friend_lists_table) :
  initial_steam_id (args E) ∈ target_steam_ids E →
  initial_steam_id (args E) ≠ gaben_steam_id E →
  ∃ s, step E 0 (initial E db) = Some s
       ∧ finds s = {[initial_steam_id (args E) :=
                       mkFind (initial_steam_id (args E)) [[]] 0 None]}.
Proof.
  intros Ht Hg. eexists. split; [by apply step_created_enabled|].
  rewrite finds_uncaught. unfold start, target_check, gaben_notice. simpl.
  rewrite bool_decide_eq_true_2, bool_decide_eq_false_2 by done.
  rewrite finds_acquire. apply insert_empty.
Qed.

(** C10 fails on the first call when the initial account is Gabe Newell's
    and a target: line 204 reads [meta["previous_was_from_cache"]] in the
    empty [meta] of line 340, the call raises before line 207, the registry
    stays empty and the process ends with status 1. *)
Lemma first_call_on_gabe_newell_raises :
  ∃ s, step from_gabe 0 (initial from_gabe []) = Some s
       ∧ finds s = ∅
       ∧ status_of s 0
         = Some (Raised (mkFindError "76561197960287930" NoResponse
                                     (KeyError "previous_was_from_cache")))
       ∧ exit_status s = Some 1%Z
       ∧ quiescent from_gabe s.
Proof.
  eexists. split; [vm_compute; reflexivity|].
  split; [vm_compute; reflexivity|]. split; [vm_compute; reflexivity|].
  split; vm_compute; reflexivity.
Qed.

(** ** The cycle guard *)

(** What line 288 tests is the account of the call, not the neighbour. *)
Lemma eligible_spec steam_id steam_ids_tally f :
  eligible steam_id steam_ids_tally f = true ↔
  relationship f = "friend" ∧ steamid f ≠ steam_id
  ∧ (length steam_ids_tally < 3 ∨ steam_id ∉ steam_ids_tally).
Proof.
  unfold eligible.
  rewrite !andb_true_iff, orb_true_iff, !bool_decide_eq_true. tauto.
Qed.

(** C2 fails in the ring A, B, C, D: the call on ["D"] has the chain
    [A, B, C], of length 3, and its neighbours ["C"] and ["A"], both in the
    chain, are eligible and are called with the chain [A, B, C, D]; and a
    call on ["A"] with that chain would refuse a neighbour ["E"] that is not
    in it. *)
Lemma cycle_guard_tests_the_caller :
  eligible "D" ["A"; "B"; "C"] (mkFriend "A" "friend") = true
  ∧ eligible "D" ["A"; "B"; "C"] (mkFriend "C" "friend") = true
  ∧ eligible "A" ["A"; "B"; "C"] (mkFriend "E" "friend") = false
  ∧ ∃ s m7 m8,
      run (world "A" 6 2 [] ring) [0; 0; 0; 1; 1; 1; 4; 4; 4; 6; 6; 6]
          (initial (world "A" 6 2 [] ring) []) = Some s
      ∧ status_of s 7 = Some (Created (mkCall "C" ["A"; "B"; "C"; "D"] 4 m7))
      ∧ status_of s 8 = Some (Created (mkCall "A" ["A"; "B"; "C"; "D"] 4 m8)).
Proof.
  split; [vm_compute; reflexivity|]. split; [vm_compute; reflexivity|].
  split; [vm_compute; reflexivity|].
  eexists. eexists. eexists. split; [vm_compute; reflexivity|].
  split; vm_compute; reflexivity.
Qed.

(** * Further properties *)

(** ** Chunking, in general *)

Lemma elem_of_concat {A} (x : A) (ls : list (list A)) :
  x ∈ concat ls ↔ ∃ l, l ∈ ls ∧ x ∈ l.
Proof.
  induction ls as [|l ls IH]; simpl.
  - split; [by intros ?%elem_of_nil | by intros (l & ?%elem_of_nil & _)].
  - rewrite elem_of_app, IH. split.
    + intros [Hx|(l' & Hl' & Hx)]; [exists l | exists l']; split; try done;
        [by left | by right].
    + intros (l' & [->|Hl']%elem_of_cons & Hx); [by left | right; by exists l'].
Qed.

Lemma batched_loop_lookup {A} fuel (l : list A) n i :
  0 < n → length l ≤ fuel →
  batched_loop fuel l n !! i
  = if decide (i * n < length l) then Some (take n (drop (i * n) l)) else None.
Proof.
  intros Hn. revert l i. induction fuel as [|fuel IH]; intros l i Hl.
  - destruct l; [|simpl in Hl; lia]. by rewrite decide_False by (simpl; lia).
  - cbn [batched_loop]. destruct (take n l) as [|x chunk] eqn:Htake.
    + apply (take_nil_inv n) in Htake as ->; [|done].
      by rewrite decide_False by (simpl; lia).
    + assert (0 < length l) by (destruct l; [by rewrite take_nil in Htake|simpl; lia]).
      destruct i as [|i].
      * rewrite decide_True by lia. change (0 * n) with 0. by rewrite drop_0, Htake.
      * cbn [lookup list_lookup]. rewrite IH by (rewrite length_drop; lia).
        rewrite length_drop, drop_drop.
        replace (S i * n) with (n + i * n) by lia.
        destruct (decide (i * n < length l - n)), (decide (n + i * n < length l));
          try done; lia.
Qed.

(** X1.  [batched] with a chunk size of one or more cuts its input into
    consecutive slices: the chunks put end to end are the input, and the
    chunk of index [i] is the [chunk_size] items from position
    [i * chunk_size] on, as long as that position exists. *)
Theorem batched_slices {A} (iterable : list A) (chunk_size i : nat) :
  0 < chunk_size →
  concat (batched iterable chunk_size) = iterable
  ∧ batched iterable chunk_size !! i
    = if decide (i * chunk_size < length iterable)
      then Some (take chunk_size (drop (i * chunk_size) iterable))
      else None.
Proof.
  intros Hn. split.
  - by apply batched_loop_concat.
  - by apply batched_loop_lookup.
Qed.

Lemma batched_slices_witness :
  concat (batched ["a"; "b"; "c"; "d"; "e"] 2) = ["a"; "b"; "c"; "d"; "e"]
  ∧ batched ["a"; "b"; "c"; "d"; "e"] 2 !! 2 = Some ["e"].
Proof. apply (batched_slices ["a"; "b"; "c"; "d"; "e"] 2 2). lia. Defined.

(** X2.  [batched], as lines 32-35 define it, yields no chunk exactly when
    there is nothing to cut or the chunk size is zero: [islice(iterator, 0)]
    is empty at once, and the items are dropped without an error. *)
Theorem batched_yields_nothing {A} (iterable : list A) (chunk_size : nat) :
  batched iterable chunk_size = [] ↔ iterable = [] ∨ chunk_size = 0.
Proof.
  unfold batched. split.
  - intros H. destruct iterable as [|x l]; [by left|]. right.
    destruct chunk_size; [done|]. discriminate H.
  - intros [->| ->]; [done|]. by destruct iterable.
Qed.

(** ** Targets *)

Lemma foldl_flatten current value :
  foldl _flatten current value
  = current ++ concat ((λ item, match item with
                                | One s => [s]
                                | Several l => l
                                end) <$> value).
Proof.
  revert current. induction value as [|item value IH]; intros current; simpl.
  - by rewrite app_nil_r.
  - rewrite IH. destruct item; simpl; by rewrite <-app_assoc.
Qed.

Lemma flatten_concat value :
  flatten value = concat ((λ item, match item with
                                   | One s => [s]
                                   | Several l => l
                                   end) <$> value).
Proof. apply foldl_flatten. Qed.

Lemma flatten_app v1 v2 : flatten (v1 ++ v2) = flatten v1 ++ flatten v2.
Proof. by rewrite !flatten_concat, fmap_app, concat_app. Qed.

Lemma comma_is_the_comma : String comma EmptyString = ",".
Proof. reflexivity. Qed.

Lemma str_split_plain s : str_mentions comma s = false → str_split comma s = [s].
Proof.
  induction s as [|a s IH]; simpl; [done|].
  intros [Ha Hs]%orb_false_iff. rewrite Ha, IH; done.
Qed.

Section targets_facts.
Context (E : Env) (employees : list string).

Lemma special_values_lookup item :
  special_values E employees !! item
  = if decide (item = "GabeNewell") then Some (One (gaben_steam_id E))
    else if decide (item = "OtherValveEmployees") then Some (Several employees)
    else None.
Proof.
  unfold special_values. repeat case_decide; subst.
  - by rewrite lookup_insert_eq.
  - rewrite lookup_insert_ne by done. by rewrite lookup_singleton_eq.
  - rewrite lookup_insert_ne by done. by rewrite lookup_singleton_ne.
Qed.

Lemma parse_targets_app_eq v1 v2 :
  parse_targets E employees (v1 ++ v2)
  = parse_targets E employees v1 ++ parse_targets E employees v2.
Proof. unfold parse_targets. by rewrite !fmap_app, !flatten_app, !fmap_app, !flatten_app. Qed.

End targets_facts.

(** X3.  What [parse_targets] gives: each argument is cut at its commas;
    a piece that is the alias [GabeNewell] stands for Gabe Newell's id, a
    piece that is the alias [OtherValveEmployees] for every id of the
    employees' list, and any other piece, the empty one too, for itself.  An
    id that comes from an alias is not cut or looked up again. *)
Theorem parse_targets_spec (E : Env) (employees : list string) (x : string)
    (value : list string) :
  x ∈ parse_targets E employees value ↔
  ∃ item piece,
    item ∈ value ∧ piece ∈ str_split comma item
    ∧ (piece = "GabeNewell" ∧ x = gaben_steam_id E
       ∨ piece = "OtherValveEmployees" ∧ x ∈ employees
       ∨ piece ≠ "GabeNewell" ∧ piece ≠ "OtherValveEmployees" ∧ x = piece).
Proof.
  unfold parse_targets. rewrite !flatten_concat, elem_of_concat. split.
  - intros (l & Hl & Hx).
    apply list_elem_of_fmap in Hl as (special & -> & Hs).
    apply list_elem_of_fmap in Hs as (piece & -> & Hp).
    apply elem_of_concat in Hp as (pieces & Hps & Hp).
    apply list_elem_of_fmap in Hps as (several & -> & Hsev).
    apply list_elem_of_fmap in Hsev as (item & -> & Hitem).
    exists item, piece. split; [done|]. split; [done|].
    rewrite special_values_lookup in Hx. repeat case_decide; subst.
    + left. by apply list_elem_of_singleton in Hx.
    + right. by left.
    + right. right. by apply list_elem_of_singleton in Hx.
  - intros (item & piece & Hitem & Hp & Hx).
    eexists. split.
    + apply list_elem_of_fmap. eexists. split; [done|].
      apply list_elem_of_fmap. exists piece. split; [done|].
      apply elem_of_concat. exists (str_split comma item). split; [|done].
      apply list_elem_of_fmap. exists (Several (str_split comma item)). split; [done|].
      apply list_elem_of_fmap. by exists item.
    + rewrite special_values_lookup.
      destruct Hx as [[-> ->]|[[-> Hx]|(Hg & Ho & ->)]].
      * rewrite decide_True by done. by apply list_elem_of_singleton.
      * rewrite decide_False, decide_True by done. done.
      * rewrite !decide_False by done. by apply list_elem_of_singleton.
Qed.

(** X4.  The targets come in the order of the command line, one argument
    after the other, and the default of line 144 is Gabe Newell's id followed
    by the employees' list. *)
Theorem parse_targets_in_order (E : Env) (employees : list string)
    (v1 v2 : list string) :
  parse_targets E employees (v1 ++ v2)
  = parse_targets E employees v1 ++ parse_targets E employees v2
  ∧ parse_targets E employees ["GabeNewell"; "OtherValveEmployees"]
    = gaben_steam_id E :: employees.
Proof.
  split; [apply parse_targets_app_eq|].
  unfold parse_targets. rewrite !flatten_concat. simpl.
  rewrite !special_values_lookup. simpl. by rewrite app_nil_r.
Qed.

(** X5.  Ids that hold no comma and are no alias are the targets as they
    stand. *)
Theorem parse_targets_plain (E : Env) (employees : list string) (value : list string) :
  Forall (λ item, str_mentions comma item = false
                  ∧ item ≠ "GabeNewell" ∧ item ≠ "OtherValveEmployees") value →
  parse_targets E employees value = value.
Proof.
  induction 1 as [|item value (Hc & Hg & Ho) _ IH]; [done|].
  change (item :: value) with ([item] ++ value) at 1.
  rewrite parse_targets_app_eq, IH. f_equal.
  unfold parse_targets. rewrite !flatten_concat. simpl.
  rewrite (str_split_plain item Hc). simpl.
  rewrite special_values_lookup, !decide_False by done. done.
Qed.

Lemma parse_targets_plain_witness :
  parse_targets (world "A" 6 2 [] diamond) ["1"; "2"] ["76561198000000001"; "76561198000000002"]
  = ["76561198000000001"; "76561198000000002"].
Proof.
  apply (parse_targets_plain (world "A" 6 2 [] diamond) ["1"; "2"]).
  repeat constructor; done.
Defined.

(** ** The ids of a record *)

Lemma Find_history_ind (P : Find → Prop) :
  (∀ dev tallies d, P (mkFind dev tallies d None)) →
  (∀ dev tallies d previous, P previous → P (mkFind dev tallies d (Some previous))) →
  ∀ f, P f.
Proof.
  intros Hnone Hsome. fix IH 1.
  intros [dev tallies d [previous|]]; [apply Hsome, IH | apply Hnone].
Qed.

Lemma find_history_self f : f ∈ find_history f.
Proof. destruct f as [? ? ? [?|]]; by left. Qed.

Lemma elem_of_get_related_steam_ids (include_previous_depths : bool) (f : Find)
    (x : string) :
  x ∈ get_related_steam_ids include_previous_depths f ↔
  ∃ g, g ∈ (if include_previous_depths then find_history f else [f])
       ∧ (x = valve_dev_steam_id g ∨ ∃ chain, chain ∈ steam_id_tallies g ∧ x ∈ chain).
Proof.
  assert (Hown : ∀ dev tallies d previous,
             x ∈ dev :: concat tallies ↔
             x = valve_dev_steam_id (mkFind dev tallies d previous)
             ∨ ∃ chain, chain ∈ steam_id_tallies (mkFind dev tallies d previous)
                        ∧ x ∈ chain).
  { intros. by rewrite elem_of_cons, elem_of_concat. }
  induction f as [dev tallies d|dev tallies d previous IH] using Find_history_ind.
  - simpl. rewrite (Hown dev tallies d None). split.
    + intros H. eexists. split; [|exact H]. destruct include_previous_depths; by left.
    + intros (g & Hg & H).
      assert (g = mkFind dev tallies d None) as ->; [|done].
      destruct include_previous_depths; by apply list_elem_of_singleton in Hg.
  - destruct include_previous_depths.
    + cbn [get_related_steam_ids find_history].
      rewrite elem_of_app, (Hown dev tallies d (Some previous)), IH. split.
      * intros [H|(g & Hg & H)]; [eexists; split; [by left|done]|].
        exists g. split; [by right | done].
      * intros (g & [->|Hg]%elem_of_cons & H); [by left|]. right. by exists g.
    + cbn [get_related_steam_ids]. rewrite (Hown dev tallies d (Some previous)). split.
      * intros H. eexists. split; [by left | done].
      * by intros (g & ->%list_elem_of_singleton & H).
Qed.

(** X6.  The ids [get_related_steam_ids] gives for a record are the id the
    record carries and the ids of its chains; with [include_previous_depths],
    the default, also those of every record it has replaced, and without it
    those of no other record. *)
Theorem related_steam_ids_of_a_find (include_previous_depths : bool) (f : Find)
    (x : string) :
  x ∈ get_related_steam_ids include_previous_depths f ↔
  ∃ g, g ∈ (if include_previous_depths then find_history f else [f])
       ∧ (x = valve_dev_steam_id g ∨ ∃ chain, chain ∈ steam_id_tallies g ∧ x ∈ chain).
Proof. apply elem_of_get_related_steam_ids. Qed.

(** ** After the traversal *)

Lemma elem_of_find_chains f chain :
  chain ∈ find_chains f ↔ ∃ g, g ∈ find_history f ∧ chain ∈ steam_id_tallies g.
Proof.
  unfold find_chains. rewrite list_elem_of_bind. split; intros (g & ? & ?); by exists g.
Qed.

Lemma related_steam_ids_elem registry x :
  x ∈ related_steam_ids registry ↔
  ∃ key f, registry !! key = Some f ∧ x ∈ get_related_steam_ids true f.
Proof.
  unfold related_steam_ids. rewrite elem_of_list_to_set, elem_of_concat. split.
  - intros (l & Hl & Hx).
    apply list_elem_of_fmap in Hl as (f & -> & Hf).
    apply list_elem_of_fmap in Hf as ([key f'] & -> & Hkf).
    apply elem_of_map_to_list in Hkf. by exists key, f'.
  - intros (key & f & Hf & Hx). exists (get_related_steam_ids true f). split; [|done].
    apply list_elem_of_fmap. exists f. split; [done|].
    apply list_elem_of_fmap. exists (key, f). split; [done|].
    by apply elem_of_map_to_list.
Qed.

(** X7.  The ids the program sets out to resolve after the traversal are
    those of the registry and no other: the id carried by a record or by a
    record it has replaced, and the ids of the chains recorded for a target,
    at whatever depth. *)
Theorem ids_to_resolve (registry : gmap string Find) (x : string) :
  x ∈ related_steam_ids registry ↔
  ∃ key f,
    registry !! key = Some f
    ∧ ((∃ g, g ∈ find_history f ∧ x = valve_dev_steam_id g)
       ∨ ∃ chain, chain ∈ find_chains f ∧ x ∈ chain).
Proof.
  rewrite related_steam_ids_elem. split.
  - intros (key & f & Hf & Hx). exists key, f. split; [done|].
    apply elem_of_get_related_steam_ids in Hx as (g & Hg & [->|(chain & Hc & Hx)]).
    + left. by exists g.
    + right. exists chain. split; [|done]. apply elem_of_find_chains. by exists g.
  - intros (key & f & Hf & Hx). exists key, f. split; [done|].
    apply elem_of_get_related_steam_ids.
    destruct Hx as [(g & Hg & ->)|(chain & (g & Hg & Hc)%elem_of_find_chains & Hx)];
      exists g; (split; [done|]); [by left|right; by exists chain].
Qed.

Lemma cache_lookup_fold table ids mapped unmapped l :
  ∃ mapped' unmapped',
    foldl (cache_lookup table) (mapped, unmapped, l) ids
    = (mapped', unmapped', l ++ (EvSelectProfile <$> ids))
    ∧ (∀ x, mapped' !! x
            = match (if decide (x ∈ ids) then select_response table x else None) with
              | Some p => Some (from_player_summaries_response p)
              | None => mapped !! x
              end)
    ∧ (∀ x, x ∈ unmapped' ↔
            x ∈ unmapped ∧ ¬ (x ∈ ids ∧ is_Some (select_response table x))).
Proof.
  revert mapped unmapped l. induction ids as [|key ids IH]; intros mapped unmapped l.
  - exists mapped, unmapped. cbn [foldl fmap list_fmap]. rewrite app_nil_r.
    split; [done|]. split.
    + intros x. by rewrite decide_False by apply not_elem_of_nil.
    + intros x. split; [|by intros [? _]]. intros Hx. split; [done|].
      by intros [?%elem_of_nil _].
  - cbn [foldl]. unfold cache_lookup at 2.
    destruct (select_response table key) as [p|] eqn:Hsel.
    + destruct (IH (<[key := from_player_summaries_response p]> mapped)
                   (unmapped ∖ {[key]}) (l ++ [EvSelectProfile key]))
        as (mapped' & unmapped' & -> & Hm & Hu).
      exists mapped', unmapped'. split; [by rewrite <-app_assoc|]. split.
      * intros x. rewrite Hm. destruct (decide (x = key)) as [->|Hne].
        -- rewrite (decide_True (P := key ∈ key :: ids)) by by left.
           rewrite Hsel, lookup_insert_eq. by destruct (decide (key ∈ ids)).
        -- rewrite lookup_insert_ne by done.
           destruct (decide (x ∈ ids)) as [Hin|Hin].
           ++ by rewrite (decide_True (P := x ∈ key :: ids)) by by right.
           ++ rewrite (decide_False (P := x ∈ key :: ids)); [done|].
              by intros [?|?]%elem_of_cons.
      * intros x. rewrite Hu, elem_of_difference, elem_of_singleton, elem_of_cons.
        split.
        -- intros [[Hx Hne] Hn]. split; [done|]. intros [[?|?] ?]; [done|]. by apply Hn.
        -- intros [Hx Hn]. split; [split; [done|]|].
           ++ intros ->. apply Hn. split; [by left|]. by rewrite Hsel.
           ++ intros [? ?]. apply Hn. split; [by right|done].
    + destruct (IH mapped unmapped (l ++ [EvSelectProfile key]))
        as (mapped' & unmapped' & -> & Hm & Hu).
      exists mapped', unmapped'. split; [by rewrite <-app_assoc|]. split.
      * intros x. rewrite Hm. destruct (decide (x = key)) as [->|Hne].
        -- rewrite (decide_True (P := key ∈ key :: ids)) by by left.
           rewrite Hsel. by destruct (decide (key ∈ ids)).
        -- destruct (decide (x ∈ ids)) as [Hin|Hin].
           ++ by rewrite (decide_True (P := x ∈ key :: ids)) by by right.
           ++ rewrite (decide_False (P := x ∈ key :: ids)); [done|].
              by intros [?|?]%elem_of_cons.
      * intros x. rewrite Hu, elem_of_cons. split.
        -- intros [Hx Hn]. split; [done|]. intros [[->|?] Hs]; [|by apply Hn].
           rewrite Hsel in Hs. by destruct Hs.
        -- intros [Hx Hn]. split; [done|]. intros [? ?]. apply Hn. split; [by right|done].
Qed.

(** The first pass: every id is looked up once; the ids with a row are
    mapped to the profile of the first such row and leave the set. *)
Lemma cache_pass_spec table ids :
  ∃ mapped unmapped,
    cache_pass table ids = (mapped, unmapped, EvSelectProfile <$> ids)
    ∧ (∀ x, mapped !! x
            = if decide (x ∈ ids)
              then from_player_summaries_response <$> select_response table x
              else None)
    ∧ (∀ x, x ∈ unmapped ↔ x ∈ ids ∧ select_response table x = None).
Proof.
  destruct (cache_lookup_fold table ids ∅ (list_to_set ids) [])
    as (mapped & unmapped & Heq & Hm & Hu).
  exists mapped, unmapped. split; [done|]. split.
  - intros x. rewrite Hm, lookup_empty. case_decide; [|done].
    by destruct (select_response table x).
  - intros x. rewrite Hu, elem_of_list_to_set. split.
    + intros [Hx Hn]. split; [done|].
      destruct (select_response table x) eqn:Hs; [|done]. destruct Hn. by split.
    + intros [Hx Hs]. split; [done|]. rewrite Hs. by intros [_ [? ?]].
Qed.

Lemma profile_requests_app l1 l2 :
  profile_requests (l1 ++ l2) = profile_requests l1 ++ profile_requests l2.
Proof. apply omap_app. Qed.

Lemma profile_lookups_app l1 l2 :
  profile_lookups (l1 ++ l2) = profile_lookups l1 ++ profile_lookups l2.
Proof. apply omap_app. Qed.

Lemma profile_inserts_app l1 l2 :
  profile_inserts (l1 ++ l2) = profile_inserts l1 ++ profile_inserts l2.
Proof. apply omap_app. Qed.

Lemma profile_lookups_selects ids : profile_lookups (EvSelectProfile <$> ids) = ids.
Proof. induction ids; simpl; [done|]. by f_equal. Qed.

Lemma profile_requests_selects ids : profile_requests (EvSelectProfile <$> ids) = [].
Proof. by induction ids. Qed.

Lemma profile_inserts_selects ids : profile_inserts (EvSelectProfile <$> ids) = [].
Proof. by induction ids. Qed.

Lemma store_profiles_spec players r :
  mapped_steam_profiles (store_profiles players r)
  = foldl (λ m p, <[steamid_of p := from_player_summaries_response p]> m)
          (mapped_steam_profiles r) players
  ∧ profiles (store_profiles players r)
    = profiles r ++ ((λ p, (steamid_of p, p)) <$> players)
  ∧ resolver_log (store_profiles players r)
    = resolver_log r ++ ((λ p, EvInsertProfile (steamid_of p)) <$> players)
  ∧ resolver_exit (store_profiles players r) = resolver_exit r.
Proof.
  unfold store_profiles. revert r. induction players as [|p players IH]; intros r.
  - simpl. by rewrite !app_nil_r.
  - cbn [foldl]. destruct (IH (mkResolution
        (<[steamid_of p := from_player_summaries_response p]> (mapped_steam_profiles r))
        (insert_row (profiles r) (steamid_of p) p)
        (resolver_log r ++ [EvInsertProfile (steamid_of p)])
        (resolver_exit r))) as (-> & -> & -> & ->).
    unfold insert_row. simpl. by rewrite <-!app_assoc.
Qed.

Lemma profile_requests_stored (players : list player_summary) :
  profile_requests ((λ p, EvInsertProfile (steamid_of p)) <$> players) = [].
Proof. by induction players. Qed.

Lemma profile_lookups_stored (players : list player_summary) :
  profile_lookups ((λ p, EvInsertProfile (steamid_of p)) <$> players) = [].
Proof. by induction players. Qed.

Lemma profile_inserts_stored (players : list player_summary) :
  profile_inserts ((λ p, EvInsertProfile (steamid_of p)) <$> players)
  = steamid_of <$> players.
Proof. induction players; simpl; [done|]. by f_equal. Qed.

Lemma mapped_stored_other (players : list player_summary)
    (m : gmap string SteamProfile) x :
  x ∉ steamid_of <$> players →
  foldl (λ m p, <[steamid_of p := from_player_summaries_response p]> m) m players !! x
  = m !! x.
Proof.
  revert m. induction players as [|p players IH]; intros m Hx; [done|].
  simpl in *. apply not_elem_of_cons in Hx as [Hne Hx].
  rewrite IH by done. by rewrite lookup_insert_ne.
Qed.

Lemma mapped_stored_is_Some (players : list player_summary)
    (m : gmap string SteamProfile) x :
  is_Some (foldl (λ m p, <[steamid_of p := from_player_summaries_response p]> m)
                 m players !! x)
  ↔ is_Some (m !! x) ∨ x ∈ steamid_of <$> players.
Proof.
  revert m. induction players as [|p players IH]; intros m; simpl.
  - split; [by left|]. by intros [?|?%elem_of_nil].
  - rewrite IH, elem_of_cons. destruct (decide (x = steamid_of p)) as [->|Hne].
    + rewrite lookup_insert_eq. split; [by intros; right; left|]. intros _. left. by eexists.
    + rewrite lookup_insert_ne by done.
      split; [intros [?|?]; auto | intros [?|[?|?]]; auto; done].
Qed.

Section resolver_facts.
Context (E : Env).
Implicit Types (r : resolution) (chunk : list string).

Lemma fetch_chunks_exited chunks r code :
  resolver_exit r = Some code → foldl (fetch_chunk E) r chunks = r.
Proof.
  intros Hexit. induction chunks as [|chunk chunks IH]; [done|].
  simpl. unfold fetch_chunk at 2. by rewrite Hexit.
Qed.

Lemma fetch_chunk_answered r chunk players :
  resolver_exit r = None → get_player_summaries E chunk = Some players →
  fetch_chunk E r chunk
  = store_profiles players
      (mkResolution (mapped_steam_profiles r) (profiles r)
         (resolver_log r ++ [EvSleep (request_delay (args E)); EvGetProfiles chunk])
         None).
Proof. unfold fetch_chunk. by intros -> ->. Qed.

Lemma fetch_chunk_failed r chunk :
  resolver_exit r = None → get_player_summaries E chunk = None →
  fetch_chunk E r chunk
  = mkResolution (mapped_steam_profiles r) (profiles r)
      ((resolver_log r ++ [EvSleep (request_delay (args E)); EvGetProfiles chunk])
       ++ [EvExit 1%Z])
      (Some 1%Z).
Proof. unfold fetch_chunk. by intros -> ->. Qed.

(** The second pass, chunk after chunk: the chunks before the first request
    that fails are asked for and their answers stored; that request ends
    the run, and the chunks after it are not asked for. *)
Lemma fetch_chunks_spec chunks r :
  resolver_exit r = None →
  ∃ asked rest,
    chunks = asked ++ rest
    ∧ Forall (λ chunk, is_Some (get_player_summaries E chunk)) asked
    ∧ mapped_steam_profiles (foldl (fetch_chunk E) r chunks)
      = foldl (λ m p, <[steamid_of p := from_player_summaries_response p]> m)
              (mapped_steam_profiles r)
              (asked ≫= λ chunk, default [] (get_player_summaries E chunk))
    ∧ profiles (foldl (fetch_chunk E) r chunks)
      = profiles r
        ++ ((λ p, (steamid_of p, p))
              <$> (asked ≫= λ chunk, default [] (get_player_summaries E chunk)))
    ∧ profile_lookups (resolver_log (foldl (fetch_chunk E) r chunks))
      = profile_lookups (resolver_log r)
    ∧ profile_inserts (resolver_log (foldl (fetch_chunk E) r chunks))
      = profile_inserts (resolver_log r)
        ++ (steamid_of <$> (asked ≫= λ chunk, default [] (get_player_summaries E chunk)))
    ∧ match rest with
      | [] =>
        resolver_exit (foldl (fetch_chunk E) r chunks) = None
        ∧ profile_requests (resolver_log (foldl (fetch_chunk E) r chunks))
          = profile_requests (resolver_log r) ++ asked
      | bad :: _ =>
        get_player_summaries E bad = None
        ∧ resolver_exit (foldl (fetch_chunk E) r chunks) = Some 1%Z
        ∧ ∃ l, resolver_log (foldl (fetch_chunk E) r chunks)
               = l ++ [EvGetProfiles bad; EvExit 1%Z]
               ∧ profile_requests l = profile_requests (resolver_log r) ++ asked
      end.
Proof.
  revert r. induction chunks as [|chunk chunks IH]; intros r Hexit.
  { exists [], []. simpl. by rewrite !app_nil_r. }
  cbn [foldl].
  destruct (get_player_summaries E chunk) as [players|] eqn:Hget.
  - rewrite (fetch_chunk_answered r chunk players Hexit Hget).
    set (r0 := mkResolution (mapped_steam_profiles r) (profiles r)
                 (resolver_log r ++ [EvSleep (request_delay (args E)); EvGetProfiles chunk])
                 None).
    destruct (store_profiles_spec players r0) as (Hm & Hp & Hl & He).
    destruct (IH (store_profiles players r0) He)
      as (asked & rest & -> & Hok & Hm' & Hp' & Hlk & Hin & Hrest).
    exists (chunk :: asked), rest. split; [done|].
    split; [constructor; [by rewrite Hget|done]|].
    rewrite bind_cons, Hget. simpl default.
    rewrite Hm', Hp', Hlk, Hin, Hm, Hp, Hl. simpl.
    rewrite foldl_app, !fmap_app, <-!app_assoc.
    rewrite !profile_lookups_app, !profile_inserts_app.
    rewrite profile_lookups_stored, profile_inserts_stored. simpl.
    rewrite !app_nil_r, <-!app_assoc.
    repeat (split; [done|]).
    destruct rest as [|bad rest'].
    + destruct Hrest as [-> ->]. split; [done|].
      rewrite Hl. simpl. rewrite !profile_requests_app, profile_requests_stored. simpl.
      by rewrite app_nil_r, <-app_assoc.
    + destruct Hrest as (Hbad & -> & l & -> & Hreq). split; [done|]. split; [done|].
      exists l. split; [done|]. rewrite Hreq, Hl. simpl.
      rewrite !profile_requests_app, profile_requests_stored. simpl.
      by rewrite app_nil_r, <-app_assoc.
  - rewrite (fetch_chunk_failed r chunk Hexit Hget).
    exists [], (chunk :: chunks). split; [done|]. split; [constructor|].
    erewrite fetch_chunks_exited by done. simpl.
    rewrite !app_nil_r, !profile_lookups_app, !profile_inserts_app. simpl.
    rewrite !app_nil_r. repeat (split; [done|]).
    exists (resolver_log r ++ [EvSleep (request_delay (args E))]).
    rewrite <-!app_assoc. split; [done|].
    rewrite profile_requests_app. simpl. by rewrite !app_nil_r.
Qed.

(** [resolve_profiles] is the first pass followed by the requests for the
    chunks of the ids it left; a cache-only run has no chunk. *)
Lemma resolve_profiles_chunks registry table :
  ∃ (mapped : gmap string SteamProfile) (unmapped : gset string) chunks,
    (∀ x, mapped !! x
          = if decide (x ∈ related_steam_ids registry)
            then from_player_summaries_response <$> select_response table x
            else None)
    ∧ (∀ x, x ∈ unmapped ↔
            x ∈ related_steam_ids registry ∧ select_response table x = None)
    ∧ chunks = match cached_only (args E) with
               | CachedAll | ProfilesOnly => []
               | _ => batched (elements unmapped) 100
               end
    ∧ resolve_profiles E registry table
      = foldl (fetch_chunk E)
              (mkResolution mapped table
                            (EvSelectProfile <$> elements (related_steam_ids registry)) None)
              chunks.
Proof.
  unfold resolve_profiles.
  destruct (cache_pass_spec table (elements (related_steam_ids registry)))
    as (mapped & unmapped & -> & Hm & Hu).
  exists mapped, unmapped. eexists. split; [|split; [|split; [done|]]].
  - intros x. rewrite Hm.
    destruct (decide (x ∈ elements (related_steam_ids registry))) as [H|H],
             (decide (x ∈ related_steam_ids registry)) as [H'|H'];
      try done; by rewrite elem_of_elements in H.
  - intros x. rewrite Hu. by rewrite elem_of_elements.
  - by destruct (cached_only (args E)).
Qed.

Lemma chunks_of_the_missing (unmapped : gset string) chunks :
  chunks = match cached_only (args E) with
           | CachedAll | ProfilesOnly => []
           | _ => batched (elements unmapped) 100
           end →
  Forall (λ chunk, 0 < length chunk ≤ 100) chunks
  ∧ NoDup (concat chunks)
  ∧ (∀ x, x ∈ concat chunks → x ∈ unmapped).
Proof.
  intros ->.
  assert (Forall (λ chunk, 0 < length chunk ≤ 100) (batched (elements unmapped) 100)
          ∧ NoDup (concat (batched (elements unmapped) 100))
          ∧ (∀ x, x ∈ concat (batched (elements unmapped) 100) → x ∈ unmapped))
    as Hb.
  { split; [apply batched_loop_sizes|]. unfold batched.
    rewrite batched_loop_concat by lia. split; [apply NoDup_elements|].
    intros x. by rewrite elem_of_elements. }
  destruct (cached_only (args E)); try done;
    (split; [constructor|split; [constructor|by intros x ?%elem_of_nil]]).
Qed.

End resolver_facts.

Lemma select_response_is_Some {V} (table : list (string * V)) key :
  is_Some (select_response table key) ↔ key ∈ table.*1.
Proof.
  induction table as [|row table IH]; simpl.
  - split; [by intros [? ?] | by intros ?%elem_of_nil].
  - rewrite elem_of_cons. case_bool_decide as Hrow.
    + split; [by left | by eexists].
    + rewrite IH. split; [by right | by intros [?|?]].
Qed.

Lemma rows_of_players (players : list player_summary) :
  ((λ p, (steamid_of p, p)) <$> players).*1 = steamid_of <$> players.
Proof. induction players; simpl; [done|]. by f_equal. Qed.

Section resolver_properties.
Context (E : Env).
Implicit Types (r : resolution) (chunk : list string).

Lemma resolver_requests_prefix registry table :
  ∃ (mapped : gmap string SteamProfile) (unmapped : gset string) chunks asked rest,
    (∀ x, mapped !! x
          = if decide (x ∈ related_steam_ids registry)
            then from_player_summaries_response <$> select_response table x
            else None)
    ∧ (∀ x, x ∈ unmapped ↔
            x ∈ related_steam_ids registry ∧ select_response table x = None)
    ∧ chunks = match cached_only (args E) with
               | CachedAll | ProfilesOnly => []
               | _ => batched (elements unmapped) 100
               end
    ∧ chunks = asked ++ rest
    ∧ Forall (λ chunk, is_Some (get_player_summaries E chunk)) asked
    ∧ mapped_steam_profiles (resolve_profiles E registry table)
      = foldl (λ m p, <[steamid_of p := from_player_summaries_response p]> m) mapped
              (asked ≫= λ chunk, default [] (get_player_summaries E chunk))
    ∧ profiles (resolve_profiles E registry table)
      = table ++ ((λ p, (steamid_of p, p))
                    <$> (asked ≫= λ chunk, default [] (get_player_summaries E chunk)))
    ∧ profile_lookups (resolver_log (resolve_profiles E registry table))
      = elements (related_steam_ids registry)
    ∧ profile_inserts (resolver_log (resolve_profiles E registry table))
      = steamid_of <$> (asked ≫= λ chunk, default [] (get_player_summaries E chunk))
    ∧ match rest with
      | [] =>
        resolver_exit (resolve_profiles E registry table) = None
        ∧ profile_requests (resolver_log (resolve_profiles E registry table)) = asked
      | bad :: _ =>
        get_player_summaries E bad = None
        ∧ resolver_exit (resolve_profiles E registry table) = Some 1%Z
        ∧ profile_requests (resolver_log (resolve_profiles E registry table))
          = asked ++ [bad]
        ∧ ∃ l, resolver_log (resolve_profiles E registry table)
               = l ++ [EvGetProfiles bad; EvExit 1%Z]
               ∧ profile_requests l = asked
      end.
Proof.
  destruct (resolve_profiles_chunks E registry table)
    as (mapped & unmapped & chunks & Hm & Hu & Hchunks & ->).
  destruct (fetch_chunks_spec E chunks
              (mkResolution mapped table
                 (EvSelectProfile <$> elements (related_steam_ids registry)) None) eq_refl)
    as (asked & rest & Hsplit & Hok & Hmapped & Hprofiles & Hlk & Hin & Hrest).
  simpl in Hmapped, Hprofiles, Hlk, Hin, Hrest.
  rewrite profile_lookups_selects in Hlk. rewrite profile_inserts_selects in Hin.
  rewrite profile_requests_selects in Hrest. simpl in Hin, Hrest.
  exists mapped, unmapped, chunks, asked, rest.
  repeat (split; [done|]).
  destruct rest as [|bad rest']; [done|].
  destruct Hrest as (Hbad & Hexit & l & Hl & Hreq). repeat (split; [done|]).
  split; [|by exists l]. rewrite Hl, profile_requests_app, Hreq. done.
Qed.

Lemma resolver_exit_code registry table :
  ∀ code, resolver_exit (resolve_profiles E registry table) = Some code → code = 1%Z.
Proof.
  destruct (resolver_requests_prefix registry table)
    as (mapped & unmapped & chunks & asked & rest & _ & _ & _ & _ & _ & _ & _
        & _ & _ & Hrest).
  intros code. destruct rest as [|bad rest'].
  - destruct Hrest as (-> & _). done.
  - destruct Hrest as (_ & -> & _). congruence.
Qed.

End resolver_properties.

(** X8.  The resolver looks up every id related to a record once, and asks
    Steam only for ids that are related to a record and have no row in the
    [profiles] table, each in one request at most, a hundred at most per
    request and never an empty request. *)
Theorem resolver_asks_for_missing_profiles_only (E : Env) (registry : gmap string Find)
    (table : profiles_table) :
  profile_lookups (resolver_log (resolve_profiles E registry table))
  ≡ₚ elements (related_steam_ids registry)
  ∧ Forall (λ chunk, 0 < length chunk ≤ 100)
           (profile_requests (resolver_log (resolve_profiles E registry table)))
  ∧ NoDup (concat (profile_requests (resolver_log (resolve_profiles E registry table))))
  ∧ ∀ x, x ∈ concat (profile_requests (resolver_log (resolve_profiles E registry table))) →
         x ∈ related_steam_ids registry ∧ select_response table x = None.
Proof.
  destruct (resolver_requests_prefix E registry table)
    as (mapped & unmapped & chunks & asked & rest & _ & Hu & Hchunks & Hsplit & _ & _ & _
        & Hlk & _ & Hrest).
  destruct (chunks_of_the_missing E unmapped chunks Hchunks) as (Hsz & Hnd & Hin).
  split; [by rewrite Hlk|].
  assert (∃ tail, chunks
                  = profile_requests (resolver_log (resolve_profiles E registry table))
                    ++ tail) as (tail & Htail).
  { destruct rest as [|bad rest'].
    - destruct Hrest as (_ & ->). by exists [].
    - destruct Hrest as (_ & _ & -> & _). exists rest'. by rewrite <-app_assoc. }
  rewrite Htail in Hsz, Hnd, Hin. rewrite concat_app in Hnd, Hin.
  apply Forall_app in Hsz as [Hsz _]. apply NoDup_app in Hnd as (Hnd & _ & _).
  split; [done|]. split; [done|].
  intros x Hx. apply Hu, Hin, elem_of_app. by left.
Qed.

(** X9.  When the run is not cache-only for profiles and Steam answers
    every request, the resolver ends normally, the ids it has asked for are
    exactly the related ids without a row, and the requests are as few as a
    hundred ids per request allow: their number is that of the ids over a
    hundred, rounded up. *)
Theorem resolver_asks_for_every_missing_profile (E : Env) (registry : gmap string Find)
    (table : profiles_table) :
  cached_only (args E) ≠ CachedAll →
  cached_only (args E) ≠ ProfilesOnly →
  (∀ chunk, is_Some (get_player_summaries E chunk)) →
  resolver_exit (resolve_profiles E registry table) = None
  ∧ (∀ x, x ∈ concat (profile_requests (resolver_log (resolve_profiles E registry table)))
          ↔ x ∈ related_steam_ids registry ∧ select_response table x = None)
  ∧ length (profile_requests (resolver_log (resolve_profiles E registry table)))
    = (length (concat (profile_requests
                         (resolver_log (resolve_profiles E registry table)))) + 99) / 100.
Proof.
  intros Hall Hprofiles Hanswers.
  destruct (resolver_requests_prefix E registry table)
    as (mapped & unmapped & chunks & asked & rest & _ & Hu & Hchunks & Hsplit & _ & _ & _
        & _ & _ & Hrest).
  destruct rest as [|bad rest'].
  2: { destruct Hrest as (Hbad & _). destruct (Hanswers bad) as [? ?]. congruence. }
  destruct Hrest as (-> & ->). rewrite app_nil_r in Hsplit. subst asked.
  assert (chunks = batched (elements unmapped) 100) as ->.
  { rewrite Hchunks. by destruct (cached_only (args E)). }
  split; [done|]. unfold batched.
  rewrite batched_loop_concat by lia. split.
  - intros x. by rewrite elem_of_elements.
  - rewrite batched_loop_length by lia. f_equal. lia.
Qed.

Lemma resolver_asks_for_every_missing_profile_witness :
  resolver_exit (resolve_profiles everybody_public found_D knows_A) = None
  ∧ (∀ x, x ∈ concat (profile_requests
                        (resolver_log (resolve_profiles everybody_public found_D knows_A)))
          ↔ x ∈ related_steam_ids found_D ∧ select_response knows_A x = None)
  ∧ length (profile_requests
              (resolver_log (resolve_profiles everybody_public found_D knows_A)))
    = (length (concat (profile_requests
                         (resolver_log
                            (resolve_profiles everybody_public found_D knows_A)))) + 99)
      / 100.
Proof.
  apply (resolver_asks_for_every_missing_profile everybody_public found_D knows_A).
  - simpl. discriminate.
  - simpl. discriminate.
  - intros chunk. simpl. by eexists.
Defined.

(** X10.  The resolver ends in one of two ways.  Normally, and then every
    request it sent was answered; or with status 1, and then the last thing
    it did was a request that failed: the requests before it were answered,
    and nothing is asked or written after it. *)
Theorem resolver_stops_at_the_first_failure (E : Env) (registry : gmap string Find)
    (table : profiles_table) :
  match resolver_exit (resolve_profiles E registry table) with
  | None =>
    Forall (λ chunk, is_Some (get_player_summaries E chunk))
           (profile_requests (resolver_log (resolve_profiles E registry table)))
  | Some code =>
    code = 1%Z
    ∧ ∃ l bad,
        resolver_log (resolve_profiles E registry table)
        = l ++ [EvGetProfiles bad; EvExit 1%Z]
        ∧ get_player_summaries E bad = None
        ∧ Forall (λ chunk, is_Some (get_player_summaries E chunk)) (profile_requests l)
  end.
Proof.
  destruct (resolver_requests_prefix E registry table)
    as (mapped & unmapped & chunks & asked & rest & _ & _ & _ & _ & Hok & _ & _
        & _ & _ & Hrest).
  destruct rest as [|bad rest'].
  - destruct Hrest as (-> & ->). done.
  - destruct Hrest as (Hbad & -> & _ & l & Hl & Hreq). split; [done|].
    exists l, bad. by rewrite Hreq.
Qed.


(** X12.  After the resolver, a related id has a profile exactly when the
    [profiles] table has a row for it; an id without a row is shown as the
    id itself; and an id that had a row, and for which Steam returned
    nothing, is shown under the name of its first row. *)
Theorem names_after_the_resolver (E : Env) (registry : gmap string Find)
    (table : profiles_table) :
  (∀ x, x ∈ related_steam_ids registry →
        (is_Some (mapped_steam_profiles (resolve_profiles E registry table) !! x)
         ↔ is_Some (select_response (profiles (resolve_profiles E registry table)) x)))
  ∧ (∀ x, select_response (profiles (resolve_profiles E registry table)) x = None →
          get_steam_profile_name
            (mapped_steam_profiles (resolve_profiles E registry table)) x = x)
  ∧ (∀ x p,
       x ∈ related_steam_ids registry → select_response table x = Some p →
       x ∉ profile_inserts (resolver_log (resolve_profiles E registry table)) →
       get_steam_profile_name
         (mapped_steam_profiles (resolve_profiles E registry table)) x = personaname p).
Proof.
  destruct (resolver_requests_prefix E registry table)
    as (mapped & unmapped & chunks & asked & rest & Hm & _ & _ & _ & _ & Hmapped & Hp
        & _ & Hin & _).
  rewrite Hmapped, Hp, Hin.
  set (players := asked ≫= λ chunk, default [] (get_player_summaries E chunk)).
  assert (Hrow : ∀ x, is_Some (select_response
                                 (table ++ ((λ p, (steamid_of p, p)) <$> players)) x)
                      ↔ is_Some (select_response table x) ∨ x ∈ steamid_of <$> players).
  { intros x. rewrite !select_response_is_Some, fmap_app, elem_of_app.
    by rewrite rows_of_players. }
  split; [|split].
  - intros x Hx. rewrite mapped_stored_is_Some, Hrow, Hm, decide_True by done.
    by rewrite fmap_is_Some.
  - intros x Hnone. unfold get_steam_profile_name.
    destruct (foldl _ mapped players !! x) as [profile|] eqn:Hlookup; [|done].
    assert (is_Some (select_response
                       (table ++ ((λ p, (steamid_of p, p)) <$> players)) x)) as Hsome.
    { apply Hrow. apply (mk_is_Some _ profile), mapped_stored_is_Some in Hlookup
        as [Hcached|?]; [|by right].
      left. rewrite Hm in Hcached. case_decide; [|by destruct Hcached].
      by apply fmap_is_Some in Hcached. }
    rewrite Hnone in Hsome. by destruct Hsome.
  - intros x p Hx Hsel Hnot. unfold get_steam_profile_name.
    by rewrite mapped_stored_other, Hm, decide_True, Hsel.
Qed.

(** X13.  After the traversal the process ends with status 0 exactly when
    nothing was found, and then before any lookup or request; otherwise the
    resolver runs and the status, if any, is 1. *)
Theorem exit_status_after_the_traversal (E : Env) (registry : gmap string Find)
    (table : profiles_table) :
  (resolver_exit (after_traversal E registry table) = Some 0%Z ↔ registry = ∅)
  ∧ (registry = ∅ →
     resolver_log (after_traversal E registry table) = [EvExit 0%Z]
     ∧ profiles (after_traversal E registry table) = table)
  ∧ (registry ≠ ∅ →
     after_traversal E registry table = resolve_profiles E registry table).
Proof.
  unfold after_traversal. split; [|split].
  - case_bool_decide as Hsize.
    + apply map_size_empty_iff in Hsize. done.
    + split; [|by intros ->].
      intros Hzero.
      by apply (resolver_exit_code E registry table) in Hzero.
  - intros ->. by rewrite bool_decide_eq_true_2.
  - intros Hne. rewrite bool_decide_eq_false_2; [done|].
    by rewrite map_size_empty_iff.
Qed.

(** ** The tree of calls *)

Lemma reachable_step (E : Env) i s s' :
  reachable E s → step E i s = Some s' → reachable E s'.
Proof.
  intros (db & schedule & Hrun) Hstep. exists db, (schedule ++ [i]).
  revert Hrun. generalize (initial E db).
  induction schedule as [|k schedule IH]; intros s0; simpl.
  - intros [= ->]. by rewrite Hstep.
  - destruct (step E k s0); [apply IH | done].
Qed.

Lemma find_chains_unfold dev tallies d previous :
  find_chains (mkFind dev tallies d previous)
  = tallies ++ match previous with
               | Some previous_find => find_chains previous_find
               | None => []
               end.
Proof. unfold find_chains. cbn [find_history]. rewrite bind_cons. by destruct previous. Qed.

(** The chains of a target after [record_find]: the new one, and those it
    had. *)
Lemma find_chains_record_find registry key tally d key' f' chain :
  record_find registry key tally d !! key' = Some f' → chain ∈ find_chains f' →
  key' = key ∧ chain = tally
  ∨ ∃ f, registry !! key' = Some f ∧ chain ∈ find_chains f.
Proof.
  destruct (decide (key = key')) as [<-|Hne].
  2: { rewrite record_find_lookup_ne by done. intros Hf Hc. right. by exists f'. }
  rewrite record_find_lookup. intros [= <-].
  destruct (registry !! key) as [[dev tallies d0 previous]|] eqn:Hprior.
  - case_bool_decide; simpl; rewrite find_chains_unfold.
    + intros [->%list_elem_of_singleton|Hc]%elem_of_app; [by left|].
      right. by eexists.
    + rewrite <-app_assoc, !elem_of_app.
      intros [Hc|[->%list_elem_of_singleton|Hc]]; [|by left|];
        right; (eexists; split; [done|]); rewrite find_chains_unfold, elem_of_app; auto.
  - rewrite find_chains_unfold, app_nil_r. intros ->%list_elem_of_singleton. by left.
Qed.

(** [record_find] drops no chain. *)
Lemma find_chains_record_find_kept registry key tally d key' f :
  registry !! key' = Some f →
  ∃ f', record_find registry key tally d !! key' = Some f'
        ∧ ∀ chain, chain ∈ find_chains f → chain ∈ find_chains f'.
Proof.
  intros Hf. destruct (decide (key = key')) as [<-|Hne].
  2: { rewrite record_find_lookup_ne by done. by exists f. }
  rewrite record_find_lookup, Hf. eexists. split; [done|].
  destruct f as [dev tallies d0 previous]. intros chain.
  case_bool_decide; simpl; rewrite !find_chains_unfold, ?elem_of_app.
  - by right.
  - intros [?|?]; auto.
Qed.

Lemma made_by_child (E : Env) c c' : made_by E c c' → child_of c c'.
Proof. intros (raw & cached & Hc'). by apply futures_of_child in Hc'. Qed.

Section call_tree.
Context (E : Env) (Q : call → Prop).
Hypothesis Q_made :
  ∀ c c', Q c → (c_depth c < max_depth (args E))%Z → made_by E c c' → Q c'.
Implicit Types (s : state) (c : call) (i j : nat) (t : task).

Lemma pool_inv_set_status i t s :
  pool_inv E Q s → task_inv E Q t → pool_inv E Q (set_status i t s).
Proof.
  unfold pool_inv. simpl. intros Hs Ht. apply Forall_alter; [done|]. by intros e _ _.
Qed.

Lemma pool_inv_next_chunk i c r chunks s :
  pool_inv E Q s → Q c → (c_depth c < max_depth (args E))%Z →
  Forall (made_by E c) (concat chunks) →
  pool_inv E Q (next_chunk i c r chunks s).
Proof.
  intros Hs Hc Hd Hch. destruct chunks as [|chunk rest]; [by apply pool_inv_set_status|].
  rewrite concat_cons in Hch. apply Forall_app in Hch as [Hchunk Hrest].
  unfold next_chunk, create_tasks. cbn zeta.
  apply pool_inv_set_status; [|done].
  unfold pool_inv. simpl. apply Forall_app. split; [done|].
  unfold spawned. rewrite Forall_fmap. eapply Forall_impl; [exact Hchunk|].
  intros c' Hc'. simpl. eauto.
Qed.

Lemma pool_inv_expand i c r raw cached s :
  pool_inv E Q s → Q c → (c_depth c < max_depth (args E))%Z →
  pool_inv E Q (expand E i c r raw cached s).
Proof.
  intros Hs Hc Hd. unfold expand. repeat case_bool_decide.
  - by apply pool_inv_set_status.
  - apply pool_inv_next_chunk; [done..|]. apply Forall_forall.
    intros c' Hc'%batched_loop_elem_of. by exists raw, cached.
  - by apply pool_inv_set_status.
Qed.

Lemma pool_inv_acquire i c s :
  pool_inv E Q s → Q c → pool_inv E Q (acquire E i c s).
Proof.
  intros Hs Hc. unfold acquire. case_bool_decide as Hd; [by apply pool_inv_set_status|].
  assert ((c_depth c < max_depth (args E))%Z) by lia.
  cbn zeta. destruct (select_response _ _) as [cached|].
  - destruct (load_cached cached) as [ex|raw]; [by apply pool_inv_set_status|].
    by apply pool_inv_expand.
  - destruct (cached_only (args E)); by apply pool_inv_set_status.
Qed.

Lemma pool_inv_start i c s : pool_inv E Q s → Q c → pool_inv E Q (start E i c s).
Proof.
  intros Hs Hc. unfold start. destruct (target_check E c s) as [ex|s1] eqn:Htc.
  { by apply pool_inv_set_status. }
  apply target_check_inr in Htc as (_ & Hpool & _).
  apply pool_inv_acquire; [|done]. unfold pool_inv. by rewrite Hpool.
Qed.

Lemma pool_inv_deliver i c nth s :
  pool_inv E Q s → Q c → (c_depth c < max_depth (args E))%Z →
  pool_inv E Q (deliver E i c nth s).
Proof.
  intros Hs Hc Hd. unfold deliver.
  destruct (get_friend_list E nth (c_steam_id c)) as [r|];
    [|by apply pool_inv_set_status].
  destruct (json r) as [raw|]; [|by apply pool_inv_set_status].
  by apply pool_inv_expand.
Qed.

Lemma pool_inv_lookup s j t :
  pool_inv E Q s → status_of s j = Some t → task_inv E Q t.
Proof.
  unfold pool_inv, status_of. rewrite Forall_lookup. intros Hs Hj.
  destruct (pool s !! j) as [e|] eqn:He; [|done]. simpl in Hj. injection Hj as <-.
  by apply (Hs j e).
Qed.

Lemma pool_inv_calls s j t c :
  pool_inv E Q s → status_of s j = Some t → c ∈ task_calls t → Q c.
Proof.
  intros Hs Hj Hc. pose proof (pool_inv_lookup s j t Hs Hj) as Ht.
  destruct t as [c0|c0|c0 nth|c0 r chunk rest| |e]; simpl in *.
  - by apply list_elem_of_singleton in Hc as ->.
  - apply list_elem_of_singleton in Hc as ->. by destruct Ht.
  - apply list_elem_of_singleton in Hc as ->. by destruct Ht.
  - destruct Ht as (Hc0 & Hd & Hrest). apply elem_of_cons in Hc as [->|Hc]; [done|].
    rewrite Forall_forall in Hrest. eauto.
  - by apply elem_of_nil in Hc.
  - by apply elem_of_nil in Hc.
Qed.

Lemma pool_inv_step i s s' :
  pool_inv E Q s → step E i s = Some s' → pool_inv E Q s'.
Proof.
  intros Hs. unfold step. destruct (exit_status s); [done|].
  destruct (status_of s i) as [[c|c|c nth|c r chunk rest| |e]|] eqn:Hi; try done;
    pose proof (pool_inv_lookup s i _ Hs Hi) as Ht; simpl in Ht;
    intros ?; simplify_eq; unfold pool_inv; rewrite ?pool_uncaught.
  - by apply pool_inv_start.
  - by apply pool_inv_set_status.
  - destruct Ht. by apply pool_inv_deliver.
  - destruct Ht as (Hc & Hd & Hrest). unfold resume in *.
    destruct (all_completed s chunk); [|done].
    destruct (any_exception s chunk); simplify_eq/=; rewrite pool_uncaught; [done|].
    by apply pool_inv_next_chunk.
Qed.

Lemma registry_inv_step i s s' :
  pool_inv E Q s → registry_inv E Q s → step E i s = Some s' → registry_inv E Q s'.
Proof.
  intros Hp Hr Hstep key f chain.
  destruct (step_finds E i s s' Hstep) as [->|(c & Hi & Ht & ->)]; [apply Hr|].
  intros Hf Hchain.
  destruct (find_chains_record_find _ _ _ _ _ _ _ Hf Hchain) as [[-> ->]|(f0 & Hf0 & Hc0)].
  - split; [done|]. exists c. split; [|done].
    by apply (pool_inv_lookup s i (Created c)).
  - by apply (Hr key f0).
Qed.

(** What holds of the first call and passes from a call to the calls it
    makes holds of every call of a run, and of every chain recorded. *)
Lemma reachable_call_tree s :
  Q (mkCall (initial_steam_id (args E)) [] 0 MetaEmpty) →
  reachable E s →
  pool_inv E Q s ∧ registry_inv E Q s.
Proof.
  intros Hroot (db & schedule & Hrun).
  refine (run_ind E (λ s, pool_inv E Q s ∧ registry_inv E Q s) _ schedule _ s Hrun _).
  - intros i s1 s2 Hstep [Hp Hr].
    split; [by apply (pool_inv_step i s1) | by apply (registry_inv_step i s1)].
  - split; [by repeat constructor|]. intros key f chain Hf. simpl in Hf.
    by rewrite lookup_empty in Hf.
Qed.

End call_tree.

(** *** Depth *)

Lemma within_max_depth_made (E : Env) c c' :
  within_max_depth E c → (c_depth c < max_depth (args E))%Z → made_by E c c' →
  within_max_depth E c'.
Proof.
  intros [Hlen Hmax] Hd Hmade%made_by_child. split.
  - by apply (depth_is_length_child c).
  - destruct Hmade as [-> _]. unfold depth_is_length in Hlen.
    rewrite length_app. simpl. lia.
Qed.

(** X14.  In every state of every run, the depth of a call is the length
    of its chain, and neither a call's chain nor a chain of the registry is
    longer than [--max_depth] (than 0 when it is negative). *)
Theorem chains_within_max_depth (E : Env) (s : state) :
  reachable E s →
  (∀ j t c, status_of s j = Some t → c ∈ task_calls t →
            c_depth c = Z.of_nat (length (c_steam_ids_tally c))
            ∧ length (c_steam_ids_tally c) ≤ Z.to_nat (max_depth (args E)))
  ∧ (∀ key f chain, finds s !! key = Some f → chain ∈ find_chains f →
                    length chain ≤ Z.to_nat (max_depth (args E))).
Proof.
  intros Hreach.
  destruct (reachable_call_tree E (within_max_depth E) (within_max_depth_made E) s)
    as [Hp Hr]; [|done|].
  { split; [done|]. simpl. lia. }
  split.
  - intros j t c Hj Hc.
    by apply (pool_inv_calls E (within_max_depth E) (within_max_depth_made E) s j t c).
  - intros key f chain Hf Hchain.
    destruct (Hr key f chain Hf Hchain) as (_ & c & [_ Hmax] & _ & <-). done.
Qed.

Lemma chains_within_max_depth_witness :
  ∃ s, run (world "A" 3 2 ["D"] diamond) [0; 0; 0; 1; 1; 1; 3]
           (initial (world "A" 3 2 ["D"] diamond) []) = Some s
       ∧ finds s !! "D" = Some (mkFind "D" [["A"; "B"]] 2 None)
       ∧ ∀ key f chain, finds s !! key = Some f → chain ∈ find_chains f →
                        length chain ≤ 3.
Proof.
  eexists. split; [vm_compute; reflexivity|]. split; [vm_compute; reflexivity|].
  refine (proj2 (chains_within_max_depth (world "A" 3 2 ["D"] diamond) _ _)).
  exists [], [0; 0; 0; 1; 1; 1; 3]. vm_compute. reflexivity.
Defined.

(** *** Where chains start *)

Lemma head_path c : head (path c) = Some (default (c_steam_id c) (head (c_steam_ids_tally c))).
Proof. unfold path. by destruct (c_steam_ids_tally c). Qed.

Lemma from_initial_made (E : Env) c c' :
  from_initial E c → (c_depth c < max_depth (args E))%Z → made_by E c c' →
  from_initial E c'.
Proof.
  unfold from_initial. intros Hc _ [Htally _]%made_by_child.
  rewrite head_path, Htally. fold (path c). rewrite Hc. done.
Qed.

(** X15.  Every call of a run has walked from the initial account, and so
    has every chain of the registry: a chain that is not empty starts with
    the initial account, and the empty chain is recorded for the initial
    account alone. *)
Theorem chains_start_at_the_initial_account (E : Env) (s : state) :
  reachable E s →
  (∀ j t c, status_of s j = Some t → c ∈ task_calls t →
            head (c_steam_ids_tally c ++ [c_steam_id c])
            = Some (initial_steam_id (args E)))
  ∧ (∀ key f chain, finds s !! key = Some f → chain ∈ find_chains f →
                    head (chain ++ [key]) = Some (initial_steam_id (args E))).
Proof.
  intros Hreach.
  destruct (reachable_call_tree E (from_initial E) (from_initial_made E) s)
    as [Hp Hr]; [done..|].
  split.
  - intros j t c Hj Hc.
    by apply (pool_inv_calls E (from_initial E) (from_initial_made E) s j t c).
  - intros key f chain Hf Hchain.
    destruct (Hr key f chain Hf Hchain) as (_ & c & Hc & <- & <-). done.
Qed.

Lemma chains_start_at_the_initial_account_witness :
  ∃ s, run (world "A" 3 2 ["D"] diamond) [0; 0; 0; 1; 1; 1; 3]
           (initial (world "A" 3 2 ["D"] diamond) []) = Some s
       ∧ finds s !! "D" = Some (mkFind "D" [["A"; "B"]] 2 None)
       ∧ ∀ key f chain, finds s !! key = Some f → chain ∈ find_chains f →
                        head (chain ++ [key]) = Some "A".
Proof.
  eexists. split; [vm_compute; reflexivity|]. split; [vm_compute; reflexivity|].
  refine (proj2 (chains_start_at_the_initial_account (world "A" 3 2 ["D"] diamond) _ _)).
  exists [], [0; 0; 0; 1; 1; 1; 3]. vm_compute. reflexivity.
Defined.

(** *** The cycle guard along a chain *)

Lemma made_by_eligible (E : Env) c c' :
  (shuffle_friends (args E) = true → ∀ l, random_shuffle E l ≡ₚ l) →
  made_by E c c' →
  c_steam_id c' ≠ c_steam_id c
  ∧ (length (c_steam_ids_tally c) < 3 ∨ c_steam_id c ∉ c_steam_ids_tally c).
Proof.
  intros Hshuffle (raw & cached & Hc').
  unfold futures_of in Hc'. apply elem_of_lookup_imap_1 in Hc' as (idx & f & -> & Hf).
  apply list_elem_of_lookup_2 in Hf. simpl.
  assert (f ∈ friends_of (c_steam_id c) (c_steam_ids_tally c) raw) as Hin.
  { unfold friends_in_order in Hf. destruct (shuffle_friends (args E)); [|done].
    by rewrite (Hshuffle eq_refl) in Hf. }
  unfold friends_of in Hin. destruct raw as [l|]; [|by apply elem_of_nil in Hin].
  apply list_elem_of_filter in Hin as [Hel _].
  apply eligible_spec in Hel as (_ & ? & ?). done.
Qed.

Lemma guarded_made (E : Env) c c' :
  (shuffle_friends (args E) = true → ∀ l, random_shuffle E l ≡ₚ l) →
  guarded c → (c_depth c < max_depth (args E))%Z → made_by E c c' → guarded c'.
Proof.
  intros Hshuffle [Hstep Hnew] _ Hmade.
  destruct (made_by_eligible E c c' Hshuffle Hmade) as [Hne Hguard].
  apply made_by_child in Hmade as [Htally _].
  unfold guarded, path. rewrite Htally. fold (path c). split.
  - intros j x y Hx Hy.
    assert (length (path c) = S (length (c_steam_ids_tally c))) as Hlen.
    { unfold path. rewrite length_app. simpl. lia. }
    destruct (decide (S j < length (path c))) as [Hlt|Hge].
    + rewrite lookup_app_l in Hx, Hy by lia. by apply (Hstep j).
    + assert (S j = length (path c)) as Hj.
      { apply lookup_lt_Some in Hy. rewrite length_app in Hy. simpl in Hy. lia. }
      rewrite lookup_app_r in Hy by lia. rewrite lookup_app_l in Hx by lia.
      replace (S j - length (path c)) with 0 in Hy by lia. simpl in Hy.
      injection Hy as <-. unfold path in Hx.
      rewrite lookup_app_r in Hx by lia.
      replace (j - length (c_steam_ids_tally c)) with 0 in Hx by lia. simpl in Hx.
      injection Hx as <-. done.
  - intros j x Hj Hx. destruct (decide (j < length (c_steam_ids_tally c))) as [Hlt|Hge].
    + unfold path in Hx. rewrite lookup_app_l in Hx by done.
      unfold path. rewrite take_app_le by lia. by apply Hnew.
    + assert (j = length (c_steam_ids_tally c)) as ->.
      { apply lookup_lt_Some in Hx. unfold path in Hx. rewrite length_app in Hx.
        simpl in Hx. lia. }
      unfold path in Hx |- *. rewrite lookup_app_r in Hx by lia.
      rewrite Nat.sub_diag in Hx. simpl in Hx. injection Hx as <-.
      rewrite take_app_length. destruct Hguard as [?|?]; [lia|done].
Qed.

(** X16.  When [random.shuffle] permutes its list, the guard of lines
    286-288 shapes every chain of the registry: the walk never steps from an
    account to that same account, the target included, and from the fourth
    account of a chain on, an account is none of those before it. *)
Theorem chains_are_guarded (E : Env) (s : state) :
  (shuffle_friends (args E) = true → ∀ l, random_shuffle E l ≡ₚ l) →
  reachable E s →
  ∀ key f chain,
    finds s !! key = Some f → chain ∈ find_chains f →
    (∀ j x y, (chain ++ [key]) !! j = Some x → (chain ++ [key]) !! S j = Some y → x ≠ y)
    ∧ (∀ j x, 3 ≤ j → chain !! j = Some x → x ∉ take j chain).
Proof.
  intros Hshuffle Hreach key f chain Hf Hchain.
  destruct (reachable_call_tree E guarded (λ c c', guarded_made E c c' Hshuffle) s) as [_ Hr];
    [|done|].
  { split; [by intros [|j] x y|]. by intros j x _ ?. }
  destruct (Hr key f chain Hf Hchain) as (_ & c & [Hstep Hnew] & <- & <-). done.
Qed.

Lemma chains_are_guarded_witness :
  ∃ s, run (shuffling (world "A" 6 2 ["A"] ring))
           [0; 0; 0; 1; 1; 1; 4; 4; 4; 6; 6; 6; 8]
           (initial (shuffling (world "A" 6 2 ["A"] ring)) []) = Some s
       ∧ finds s !! "A" = Some (mkFind "A" [[]; ["A"; "D"; "C"; "B"]] 0 None)
       ∧ ∀ j x, 3 ≤ j → ["A"; "D"; "C"; "B"] !! j = Some x →
                x ∉ take j ["A"; "D"; "C"; "B"].
Proof.
  eexists. split; [vm_compute; reflexivity|]. split; [vm_compute; reflexivity|].
  refine (proj2 (chains_are_guarded (shuffling (world "A" 6 2 ["A"] ring)) _ _ _ "A"
                   (mkFind "A" [[]; ["A"; "D"; "C"; "B"]] 0 None) ["A"; "D"; "C"; "B"]
                   _ _)).
  - intros _ l. apply reverse_Permutation.
  - exists [], [0; 0; 0; 1; 1; 1; 4; 4; 4; 6; 6; 6; 8]. vm_compute. reflexivity.
  - vm_compute. reflexivity.
  - unfold find_chains. simpl. by right; left.
Defined.

(** ** The shape of the registry *)

Lemma depth_is_length_made (E : Env) c c' :
  depth_is_length c → (c_depth c < max_depth (args E))%Z → made_by E c c' →
  depth_is_length c'.
Proof. intros Hc _ Hmade%made_by_child. by apply (depth_is_length_child c). Qed.

Lemma well_formed_record_find registry key tally key' f' :
  (∀ k f, registry !! k = Some f → well_formed k f) →
  record_find registry key tally (Z.of_nat (length tally)) !! key' = Some f' →
  well_formed key' f'.
Proof.
  intros Hwf. destruct (decide (key = key')) as [<-|Hne].
  2: { rewrite record_find_lookup_ne by done. apply Hwf. }
  rewrite record_find_lookup. intros [= <-].
  destruct (registry !! key) as [[dev tallies d0 previous]|] eqn:Hprior.
  - pose proof (Hwf key _ Hprior) as Hp. simpl in Hp.
    destruct Hp as (-> & (first & others & -> & -> & Hothers) & Hprev).
    case_bool_decide as Hd; simpl in *.
    + split; [done|]. split; [by exists tally, []|]. split; [lia|].
      split; [done|]. split; [by exists first, others|done].
    + split; [done|]. split; [|done].
      exists first, (others ++ [tally]). split; [done|]. split; [done|].
      apply Forall_app. split; [done|]. constructor; [lia|constructor].
  - simpl. split; [done|]. split; [by exists tally, []|done].
Qed.

Lemma registry_well_formed_step (E : Env) i s s' :
  pool_inv E depth_is_length s → registry_well_formed E s → step E i s = Some s' →
  registry_well_formed E s'.
Proof.
  intros Hp Hr Hstep key f.
  destruct (step_finds E i s s' Hstep) as [->|(c & Hi & Ht & ->)]; [apply Hr|].
  assert (Hc : depth_is_length c).
  { by apply (pool_inv_lookup E depth_is_length s i (Created c)). }
  rewrite Hc. intros Hf. split.
  - destruct (decide (c_steam_id c = key)) as [<-|Hne]; [done|].
    rewrite record_find_lookup_ne in Hf by done. by apply (Hr key f).
  - apply (well_formed_record_find (finds s) (c_steam_id c) (c_steam_ids_tally c) key);
      [|done].
    intros k f0 Hf0. by apply (Hr k f0).
Qed.

(** X17.  In every state of every run the registry holds records of
    targets only, and each record has the shape lines 207-228 give it: it
    carries the id it is filed under; its first chain is as long as its
    depth and its other chains are at least that long, so its depth is the
    least length of its chains; and the record it replaced, if any, is of a
    strictly greater depth and of the same shape. *)
Theorem registry_records_are_well_formed (E : Env) (s : state) (key : string) (f : Find) :
  reachable E s →
  finds s !! key = Some f →
  key ∈ target_steam_ids E ∧ well_formed key f.
Proof.
  intros (db & schedule & Hrun). revert key f.
  change (registry_well_formed E s).
  refine (proj2 (run_ind E (λ s, pool_inv E depth_is_length s ∧ registry_well_formed E s)
                         _ schedule _ s Hrun _)).
  - intros i s1 s2 Hstep [Hp Hr]. split.
    + by apply (pool_inv_step E depth_is_length (depth_is_length_made E) i s1).
    + by apply (registry_well_formed_step E i s1).
  - split; [by repeat constructor|]. intros key f Hf. simpl in Hf.
    by rewrite lookup_empty in Hf.
Qed.

Lemma registry_records_are_well_formed_witness :
  ∃ s, run (world "A" 3 2 ["D"] diamond) [0; 0; 0; 1; 1; 1; 3; 2; 2; 2; 4]
           (initial (world "A" 3 2 ["D"] diamond) []) = Some s
       ∧ finds s !! "D" = Some (mkFind "D" [["A"; "B"]; ["A"; "C"]] 2 None)
       ∧ well_formed "D" (mkFind "D" [["A"; "B"]; ["A"; "C"]] 2 None).
Proof.
  eexists. split; [vm_compute; reflexivity|]. split; [vm_compute; reflexivity|].
  refine (proj2 (registry_records_are_well_formed (world "A" 3 2 ["D"] diamond) _ "D" _ _ _)).
  - exists [], [0; 0; 0; 1; 1; 1; 3; 2; 2; 2; 4]. vm_compute. reflexivity.
  - vm_compute. reflexivity.
Defined.

(** X18.  No run loses a discovery: a target that has a record keeps one,
    and every chain recorded for it, at whatever depth, is still recorded
    for it later. *)
Theorem discoveries_are_kept (E : Env) (schedule : list nat) (s s' : state)
    (key : string) (f : Find) :
  run E schedule s = Some s' →
  finds s !! key = Some f →
  ∃ f', finds s' !! key = Some f'
        ∧ ∀ chain, chain ∈ find_chains f → chain ∈ find_chains f'.
Proof.
  intros Hrun Hf.
  refine (run_ind E (λ s, ∃ f', finds s !! key = Some f'
                                ∧ ∀ chain, chain ∈ find_chains f → chain ∈ find_chains f')
                  _ schedule s s' Hrun _); [|by exists f].
  intros i s1 s2 Hstep (f1 & Hf1 & Hkept).
  destruct (step_finds E i s1 s2 Hstep) as [->|(c & _ & _ & ->)]; [by exists f1|].
  destruct (find_chains_record_find_kept (finds s1) (c_steam_id c) (c_steam_ids_tally c)
              (c_depth c) key f1 Hf1) as (f2 & Hf2 & Hkept2).
  exists f2. split; [done|]. auto.
Qed.

Lemma discoveries_are_kept_witness :
  ∃ s', run (world "D" 6 2 ["D"] diamond) [0]
            (mkState {["D" := mkFind "D" [["X"; "Y"]] 2 None]} [] []
                     [mkEntry None (Created (mkCall "D" [] 0 MetaEmpty))] None)
        = Some s'
        ∧ ∃ f', finds s' !! "D" = Some f'
                ∧ ∀ chain, chain ∈ find_chains (mkFind "D" [["X"; "Y"]] 2 None) →
                           chain ∈ find_chains f'.
Proof.
  eexists. split; [vm_compute; reflexivity|].
  eapply (discoveries_are_kept (world "D" 6 2 ["D"] diamond) [0]
            (mkState {["D" := mkFind "D" [["X"; "Y"]] 2 None]} [] []
                     [mkEntry None (Created (mkCall "D" [] 0 MetaEmpty))] None)
            _ "D" (mkFind "D" [["X"; "Y"]] 2 None) _ _).
  Unshelve. all: vm_compute; reflexivity.
Defined.

Lemma first_call_on_a_target_witness :
  ∃ s, step (world "D" 6 2 ["D"] diamond) 0 (initial (world "D" 6 2 ["D"] diamond) [])
       = Some s
       ∧ finds s = {["D" := mkFind "D" [[]] 0 None]}.
Proof.
  apply (first_call_on_a_target (world "D" 6 2 ["D"] diamond) []).
  - by_compute.
  - simpl. discriminate.
Defined.

(** ** Runs and the friend-list table *)

Section offline_runs.
Context (E : Env).
Hypothesis Hmode : cached_only (args E) = CachedAll ∨ cached_only (args E) = FriendsOnly.
Implicit Types (s : state) (c : call) (i j : nat) (t : task).

Lemma all_offline_set_status i t s :
  all_offline s → offline t = true → all_offline (set_status i t s).
Proof.
  unfold all_offline. simpl. intros Hs Ht. apply Forall_alter; [done|]. by intros e _ _.
Qed.

Lemma all_offline_next_chunk i c r chunks s :
  all_offline s → all_offline (next_chunk i c r chunks s).
Proof.
  intros Hs. destruct chunks as [|chunk rest]; [by apply all_offline_set_status|].
  unfold next_chunk, create_tasks. cbn zeta. apply all_offline_set_status; [|done].
  unfold all_offline. simpl. apply Forall_app. split; [done|].
  unfold spawned. by apply Forall_fmap, Forall_true.
Qed.

Lemma all_offline_expand i c r raw cached s :
  all_offline s → all_offline (expand E i c r raw cached s).
Proof.
  intros Hs. unfold expand. repeat case_bool_decide;
    [by apply all_offline_set_status|by apply all_offline_next_chunk
    |by apply all_offline_set_status].
Qed.

Lemma acquire_offline i c s :
  all_offline s →
  all_offline (acquire E i c s)
  ∧ ∃ l, log (acquire E i c s) = log s ++ l ∧ Forall (λ ev, is_traffic ev = false) l.
Proof.
  intros Hs. unfold acquire. case_bool_decide.
  { split; [by apply all_offline_set_status|]. exists []. by rewrite app_nil_r. }
  cbn zeta. destruct (select_response _ _) as [cached|].
  - destruct (load_cached cached) as [ex|raw].
    + split; [by apply all_offline_set_status|]. eexists. split; [done|].
      by repeat constructor.
    + split; [by apply all_offline_expand|].
      destruct (log_expand_quiet E i c FromCache raw true (emit (EvSelect (c_steam_id c)) s))
        as (l & -> & Hq).
      exists ([EvSelect (c_steam_id c)] ++ l). simpl. rewrite <-app_assoc.
      split; [done|]. by constructor.
  - assert (∀ X, match cached_only (args E) with
                 | CachedAll | FriendsOnly => set_status i Returned X
                 | _ => set_status i (Sleeping c) (emit (EvSleep (request_delay (args E))) X)
                 end = set_status i Returned X) as ->.
    { intros X. by destruct Hmode as [-> | ->]. }
    split; [by apply all_offline_set_status|]. eexists. split; [done|].
    by repeat constructor.
Qed.

Lemma start_offline i c s :
  all_offline s →
  all_offline (start E i c s)
  ∧ ∃ l, log (start E i c s) = log s ++ l ∧ Forall (λ ev, is_traffic ev = false) l.
Proof.
  intros Hs. unfold start. destruct (target_check E c s) as [ex|s1] eqn:Htc.
  { split; [by apply all_offline_set_status|]. exists []. by rewrite app_nil_r. }
  apply target_check_inr in Htc as (_ & Hpool & _ & Hlog & _).
  destruct (acquire_offline i c s1) as (Ho & l & -> & Hq).
  { unfold all_offline. by rewrite Hpool. }
  split; [done|]. destruct Hlog as [->| ->].
  - by exists l.
  - exists ([EvInput] ++ l). rewrite <-app_assoc. split; [done|]. by constructor.
Qed.

Lemma all_offline_lookup s j t : all_offline s → status_of s j = Some t → offline t = true.
Proof.
  unfold all_offline, status_of. rewrite Forall_lookup. intros Hs Hj.
  destruct (pool s !! j) as [e|] eqn:He; [|done]. simpl in Hj. injection Hj as <-.
  by apply (Hs j e).
Qed.

Lemma step_offline i s s' :
  all_offline s → step E i s = Some s' →
  all_offline s' ∧ friend_lists s' = friend_lists s
  ∧ ∃ l, log s' = log s ++ l ∧ Forall (λ ev, is_traffic ev = false) l.
Proof.
  intros Hs Hstep.
  assert (Hfl : friend_lists s' = friend_lists s).
  { destruct (step_friend_lists E i s s' Hstep) as [?|(c & nth & _ & _ & Hi & _)];
      [done|]. by apply (all_offline_lookup s i) in Hi. }
  revert Hstep. unfold step. destruct (exit_status s); [done|].
  destruct (status_of s i) as [[c|c|c nth|c r chunk rest| |e]|] eqn:Hi; try done;
    try (by apply (all_offline_lookup s i) in Hi);
    intros ?; simplify_eq.
  - destruct (start_offline i c s Hs) as (Ho & l & Hl & Hq).
    destruct (log_uncaught_app i (start E i c s)) as (l' & Hl' & Hq').
    split; [unfold all_offline; by rewrite pool_uncaught|]. split; [done|].
    exists (l ++ l'). rewrite Hl', Hl, <-app_assoc. split; [done|].
    apply Forall_app. split; [done|]. apply Forall_forall. by intros ev ->%Hq'.
  - unfold resume in *. destruct (all_completed s chunk); [|done].
    destruct (any_exception s chunk); simplify_eq/=.
    + match goal with |- context [uncaught i ?x] =>
        destruct (log_uncaught_app i x) as (l' & Hl' & Hq') end.
      split; [unfold all_offline; by rewrite pool_uncaught|]. split; [done|].
      exists ([EvExit 1%Z] ++ l'). rewrite Hl'. simpl. rewrite <-app_assoc.
      split; [done|]. constructor; [done|]. apply Forall_forall. by intros ev ->%Hq'.
    + match goal with |- context [uncaught i ?x] =>
        destruct (log_uncaught_app i x) as (l' & Hl' & Hq') end.
      split; [unfold all_offline; rewrite pool_uncaught; by apply all_offline_next_chunk|].
      split; [done|]. rewrite Hl', log_next_chunk. eexists. rewrite <-app_assoc.
      split; [done|]. apply Forall_app. split; [by apply Forall_fmap, Forall_true|].
      apply Forall_forall. by intros ev ->%Hq'.
Qed.

End offline_runs.

(** X19.  Under [--cached_only all] or [friends_only] a run, whatever its
    schedule and whatever the table holds, never sleeps for the rate limit,
    never sends a request and never writes a row: the table stays as it was
    found, and no task is ever asleep or waiting for an answer. *)
Theorem cached_only_runs_are_offline (E : Env) (db : friend_lists_table)
    (schedule : list nat) (s : state) :
  cached_only (args E) = CachedAll ∨ cached_only (args E) = FriendsOnly →
  run E schedule (initial E db) = Some s →
  friend_lists s = db
  ∧ Forall (λ ev, is_traffic ev = false) (log s)
  ∧ ∀ j t, status_of s j = Some t → offline t = true.
Proof.
  intros Hmode Hrun.
  assert (all_offline s ∧ friend_lists s = db
          ∧ Forall (λ ev, is_traffic ev = false) (log s)) as (Ho & Hfl & Hq).
  { refine (run_ind E (λ s, all_offline s ∧ friend_lists s = db
                            ∧ Forall (λ ev, is_traffic ev = false) (log s))
                    _ schedule _ s Hrun _).
    - intros i s1 s2 Hstep (Ho & Hfl & Hq).
      destruct (step_offline E Hmode i s1 s2 Ho Hstep) as (Ho2 & Hfl2 & l & Hl & Hq2).
      split; [done|]. split; [congruence|]. rewrite Hl. by apply Forall_app.
    - split; [by repeat constructor|]. by split. }
  split; [done|]. split; [done|]. intros j t. by apply all_offline_lookup.
Qed.

Lemma cached_only_runs_are_offline_witness :
  ∃ s, run (with_cached_only FriendsOnly (world "A" 3 2 ["B"] diamond)) [0; 1; 2; 0]
           (initial (with_cached_only FriendsOnly (world "A" 3 2 ["B"] diamond))
                    [("A", Some (Dumped (Some (friends_named ["B"; "C"]))))])
       = Some s
       ∧ finds s !! "B" = Some (mkFind "B" [["A"]] 1 None)
       ∧ friend_lists s = [("A", Some (Dumped (Some (friends_named ["B"; "C"]))))].
Proof.
  eexists. split; [vm_compute; reflexivity|]. split; [vm_compute; reflexivity|].
  refine (proj1 (cached_only_runs_are_offline
                   (with_cached_only FriendsOnly (world "A" 3 2 ["B"] diamond))
                   _ [0; 1; 2; 0] _ _ _)).
  - by right.
  - vm_compute. reflexivity.
Defined.

Section requested_rows.
Context (E : Env).
Implicit Types (s : state) (c : call) (i j : nat) (t : task).

(** A task has a request under way only after it woke up from its sleep,
    and the request is then the last of the log. *)
Lemma step_requesting i s s' c nth :
  step E i s = Some s' → status_of s' i = Some (Requesting c nth) →
  status_of s i = Some (Sleeping c) ∧ nth = length (requests (log s))
  ∧ requests (log s') = requests (log s) ++ [c_steam_id c].
Proof.
  unfold step. destruct (exit_status s); [done|].
  destruct (status_of s i) as [[c0|c0|c0 nth0|c0 r chunk rest| |e0]|] eqn:Hi; try done;
    intros ?; simplify_eq; rewrite ?status_of_uncaught.
  - unfold start. destruct (target_check E c0 s) as [ex|s1] eqn:Htc.
    + rewrite status_of_raise, decide_True, Hi by done. done.
    + apply target_check_inr in Htc as (Hfl & Hpool & _).
      assert (Hi1 : status_of s1 i = Some (Created c0)).
      { unfold status_of. by rewrite Hpool. }
      unfold acquire. case_bool_decide.
      { rewrite status_of_set_status, decide_True, Hi1 by done. done. }
      cbn zeta. destruct (select_response _ _) as [cached|].
      * destruct (load_cached cached) as [ex|raw].
        -- rewrite status_of_raise, decide_True, status_of_emit, Hi1 by done. done.
        -- destruct (pool_expand E i c0 FromCache raw true
                       (emit (EvSelect (c_steam_id c0)) s1)) as (t & chk & Hp & Ht).
           rewrite (status_of_run i _ t _ _ _ Hp Hi1). intros [= ->]. done.
      * destruct (cached_only (args E));
          rewrite status_of_set_status, decide_True by done; simpl;
          rewrite ?status_of_emit, Hi1; done.
  - unfold wake. rewrite status_of_set_status, decide_True, status_of_emit, Hi by done.
    intros [= <- <-]. repeat split; try done.
    rewrite requests_log_uncaught. simpl. by rewrite requests_app.
  - unfold deliver. destruct (get_friend_list E nth0 (c_steam_id c0)) as [r|].
    2: { rewrite status_of_raise, decide_True, Hi by done. done. }
    destruct (json r) as [raw|].
    2: { rewrite status_of_raise, decide_True, Hi by done. done. }
    match goal with |- context [expand E i c0 ?a ?b ?d ?x] =>
      destruct (pool_expand E i c0 a b d x) as (t & chk & Hp & Ht) end.
    rewrite (status_of_run i _ t _ _ _ Hp Hi). intros [= ->]. done.
  - unfold resume in *. destruct (all_completed s chunk); [|done].
    destruct (any_exception s chunk); simplify_eq/=; rewrite status_of_uncaught.
    + unfold status_of in *. simpl. by rewrite Hi.
    + rewrite (status_of_next_chunk i c0 r _ s _ Hi). by destruct rest.
Qed.

Lemma requests_prefix_step i s s' :
  step E i s = Some s' → requests (log s) `prefix_of` requests (log s').
Proof.
  intros Hstep. destruct (step_requests E i s s' Hstep) as [->|(c & _ & ->)];
    [done|by apply prefix_app_r].
Qed.

Lemma requests_numbered_step i s s' :
  chunks_bounded (Z.to_nat (simultaneous_requests (args E))) s →
  requests_numbered s → step E i s = Some s' → requests_numbered s'.
Proof.
  intros Hb Hinv Hstep j c nth Hj.
  destruct (decide (j = i)) as [->|Hne].
  - destruct (step_requesting i s s' c nth Hstep Hj) as (_ & -> & ->).
    by rewrite lookup_app_r, Nat.sub_diag.
  - assert (status_of s j = Some (Requesting c nth)) as Hold.
    { destruct (step_pool E i s s' Hb Hstep)
        as (t0 & Hi & _ & _ & [[Hpool _]|(t & chunk & Hpool & _)]).
      { unfold status_of in *. by rewrite <-Hpool. }
      rewrite (status_of_alter i j t _ s' Hpool), decide_False in Hj by done.
      destruct (decide (j < length (pool s))) as [Hlt|Hge].
      - by rewrite lookup_app_l in Hj by done.
      - rewrite lookup_app_r in Hj by lia.
        destruct (spawned i chunk !! (j - length (pool s))) as [e|] eqn:He; [|done].
        apply lookup_spawned_parent in He as (_ & c0 & Hc0). simpl in Hj. congruence. }
    destruct (requests_prefix_step i s s' Hstep) as [k ->].
    apply lookup_app_l_Some. by apply (Hinv j).
Qed.

Lemma rows_requested_step db i s s' :
  requests_numbered s → rows_requested db s → step E i s = Some s' → rows_requested db s'.
Proof.
  intros Hnum (rows & Hfl & Hrows) Hstep.
  destruct (requests_prefix_step i s s' Hstep) as [k Hk].
  assert (Forall (λ row, row.1 ∈ requests (log s')
                         ∧ ∃ raw, row.2 = Some (json_dumps raw)) rows) as Hrows'.
  { eapply Forall_impl; [exact Hrows|]. intros row [Hin Hjson]. split; [|done].
    rewrite Hk. apply elem_of_app. by left. }
  destruct (step_friend_lists E i s s' Hstep) as [Heq|(c & nth & r & raw & Hi & _ & _ & Heq)].
  - exists rows. split; [congruence|done].
  - exists (rows ++ [(c_steam_id c, Some (json_dumps raw))]).
    split; [rewrite Heq, Hfl; unfold insert_row; by rewrite <-app_assoc|].
    apply Forall_app. split; [done|]. constructor; [|constructor]. simpl.
    split; [|by exists raw]. rewrite Hk. apply elem_of_app. left.
    apply (list_elem_of_lookup_2 _ nth). by apply (Hnum i).
Qed.

End requested_rows.

(** X20.  A run only adds rows to the [friend_lists] table, at its end:
    what the table gave for an account before the run it gives at every
    state of the run; every row the run has added holds a JSON text, never
    SQL NULL, and is under an account that the run has requested from
    Steam; and a task that waits for an answer waits for the request that
    the log has under its number, for its own account. *)
Theorem rows_are_answers (E : Env) (db : friend_lists_table) (schedule : list nat)
    (s : state) :
  run E schedule (initial E db) = Some s →
  (∃ rows,
     friend_lists s = db ++ rows
     ∧ Forall (λ row, row.1 ∈ requests (log s)
                      ∧ ∃ raw_friend_list, row.2 = Some (json_dumps raw_friend_list))
              rows)
  ∧ (∀ key cached, select_response db key = Some cached →
                   select_response (friend_lists s) key = Some cached)
  ∧ (∀ j c nth, status_of s j = Some (Requesting c nth) →
                requests (log s) !! nth = Some (c_steam_id c)).
Proof.
  intros Hrun.
  assert (chunks_bounded (Z.to_nat (simultaneous_requests (args E))) s
          ∧ requests_numbered s ∧ rows_requested db s) as (_ & Hnum & Hrows).
  { refine (run_ind E (λ s, chunks_bounded (Z.to_nat (simultaneous_requests (args E))) s
                            ∧ requests_numbered s ∧ rows_requested db s)
                    _ schedule _ s Hrun _).
    - intros i s1 s2 Hstep (Hb & Hnum & Hrows).
      split; [by apply (chunks_bounded_step E i s1)|].
      split; [by apply (requests_numbered_step E i s1)|].
      by apply (rows_requested_step E db i s1).
    - split; [apply chunks_bounded_initial|]. split.
      + intros [|[|j]] c nth; done.
      + exists []. split; [by rewrite app_nil_r|constructor]. }
  split; [done|]. split; [|done].
  intros key cached Hsel. destruct Hrows as (rows & -> & _).
  by apply select_response_app.
Qed.

Lemma rows_are_answers_witness :
  ∃ s, run (world "A" 3 2 ["D"] diamond) [0; 0; 0; 1; 1]
           (initial (world "A" 3 2 ["D"] diamond) []) = Some s
       ∧ friend_lists s = [("A", Some (Dumped (Some (friends_named ["B"; "C"]))))]
       ∧ status_of s 1 = Some (Requesting (mkCall "B" ["A"] 1 (MetaOf 0 2 MetaEmpty false)) 1)
       ∧ requests (log s) !! 1 = Some "B".
Proof.
  eexists. split; [vm_compute; reflexivity|]. split; [vm_compute; reflexivity|].
  split; [vm_compute; reflexivity|].
  refine (proj2 (proj2 (rows_are_answers (world "A" 3 2 ["D"] diamond) []
                          [0; 0; 0; 1; 1] _ _))
                1 (mkCall "B" ["A"] 1 (MetaOf 0 2 MetaEmpty false)) 1 _);
    vm_compute; reflexivity.
Defined.

Section misses.
Context (E : Env).
Implicit Types (s : state) (c : call) (i j : nat) (t : task).

(** A step changes the state of its own task alone; the tasks it adds have
    not run. *)
Lemma step_other_status i j s s' t :
  chunks_bounded (Z.to_nat (simultaneous_requests (args E))) s →
  step E i s = Some s' → j ≠ i → status_of s' j = Some t →
  status_of s j = Some t ∨ ∃ c, t = Created c.
Proof.
  intros Hb Hstep Hne Hj.
  destruct (step_pool E i s s' Hb Hstep)
    as (t0 & Hi & _ & _ & [[Hpool _]|(t' & chunk & Hpool & _)]).
  { left. unfold status_of in *. by rewrite <-Hpool. }
  rewrite (status_of_alter i j t' _ s' Hpool), decide_False in Hj by done.
  destruct (decide (j < length (pool s))) as [Hlt|Hge].
  - left. by rewrite lookup_app_l in Hj by done.
  - right. rewrite lookup_app_r in Hj by lia.
    destruct (spawned i chunk !! (j - length (pool s))) as [e|] eqn:He; [|done].
    apply lookup_spawned_parent in He as (_ & c0 & Hc0). simpl in Hj. exists c0. congruence.
Qed.

(** A task sleeps only after its first run has found no row for its
    account. *)
Lemma step_sleeping i s s' c :
  step E i s = Some s' → status_of s' i = Some (Sleeping c) →
  status_of s i = Some (Created c)
  ∧ select_response (friend_lists s) (c_steam_id c) = None.
Proof.
  unfold step. destruct (exit_status s); [done|].
  destruct (status_of s i) as [[c0|c0|c0 nth0|c0 r chunk rest| |e0]|] eqn:Hi; try done;
    intros ?; simplify_eq; rewrite ?status_of_uncaught.
  - unfold start. destruct (target_check E c0 s) as [ex|s1] eqn:Htc.
    + rewrite status_of_raise, decide_True, Hi by done. done.
    + apply target_check_inr in Htc as (Hfl & Hpool & _).
      assert (Hi1 : status_of s1 i = Some (Created c0)).
      { unfold status_of. by rewrite Hpool. }
      unfold acquire. case_bool_decide.
      { rewrite status_of_set_status, decide_True, Hi1 by done. done. }
      cbn zeta. simpl friend_lists. rewrite Hfl.
      destruct (select_response (friend_lists s) (c_steam_id c0)) as [cached|] eqn:Hsel.
      * destruct (load_cached cached) as [ex|raw].
        -- rewrite status_of_raise, decide_True, status_of_emit, Hi1 by done. done.
        -- destruct (pool_expand E i c0 FromCache raw true
                       (emit (EvSelect (c_steam_id c0)) s1)) as (t & chk & Hp & Ht).
           rewrite (status_of_run i _ t _ _ _ Hp Hi1). intros [= ->]. done.
      * destruct (cached_only (args E));
          rewrite status_of_set_status, decide_True by done; simpl;
          rewrite ?status_of_emit, Hi1; simpl; intros [= <-]; done.
  - unfold wake. rewrite status_of_set_status, decide_True, status_of_emit, Hi by done.
    done.
  - unfold deliver. destruct (get_friend_list E nth0 (c_steam_id c0)) as [r|].
    2: { rewrite status_of_raise, decide_True, Hi by done. done. }
    destruct (json r) as [raw|].
    2: { rewrite status_of_raise, decide_True, Hi by done. done. }
    match goal with |- context [expand E i c0 ?a ?b ?d ?x] =>
      destruct (pool_expand E i c0 a b d x) as (t & chk & Hp & Ht) end.
    rewrite (status_of_run i _ t _ _ _ Hp Hi). intros [= ->]. done.
  - unfold resume in *. destruct (all_completed s chunk); [|done].
    destruct (any_exception s chunk); simplify_eq/=; rewrite status_of_uncaught.
    + unfold status_of in *. simpl. by rewrite Hi.
    + rewrite (status_of_next_chunk i c0 r _ s _ Hi). by destruct rest.
Qed.

Lemma misses_only_step db i s s' :
  chunks_bounded (Z.to_nat (simultaneous_requests (args E))) s →
  rows_requested db s → misses_only db s → step E i s = Some s' → misses_only db s'.
Proof.
  intros Hb (rows & Hfl & _) (Hsleep & Hreq & Hlog) Hstep.
  assert (Hs : ∀ j c, status_of s' j = Some (Sleeping c) →
                      select_response db (c_steam_id c) = None).
  { intros j c Hj. destruct (decide (j = i)) as [->|Hne].
    - destruct (step_sleeping i s s' c Hstep Hj) as (_ & Hnone).
      destruct (select_response db (c_steam_id c)) as [cached|] eqn:Hdb; [|done].
      rewrite Hfl, (select_response_app db rows _ cached Hdb) in Hnone. done.
    - destruct (step_other_status i j s s' _ Hb Hstep Hne Hj) as [Hold|(c0 & ?)];
        [by apply (Hsleep j)|done]. }
  split; [done|]. split.
  - intros j c nth Hj. destruct (decide (j = i)) as [->|Hne].
    + destruct (step_requesting E i s s' c nth Hstep Hj) as (Hi & _). by apply (Hsleep i).
    + destruct (step_other_status i j s s' _ Hb Hstep Hne Hj) as [Hold|(c0 & ?)];
        [by apply (Hreq j c nth)|done].
  - intros key. destruct (step_requests E i s s' Hstep) as [->|(c & Hi & ->)];
      [apply Hlog|].
    intros [Hin| ->%list_elem_of_singleton]%elem_of_app; [by apply Hlog|].
    by apply (Hsleep i).
Qed.

End misses.

(** X21.  A run never asks Steam for the friend list of an account that
    the table had a row for when the run started, whatever the row holds:
    every request of the log, and every task asleep before its request or
    waiting for its answer, is for an account without such a row. *)
Theorem cached_accounts_are_not_requested (E : Env) (db : friend_lists_table)
    (schedule : list nat) (s : state) :
  run E schedule (initial E db) = Some s →
  (∀ key, key ∈ requests (log s) → select_response db key = None)
  ∧ (∀ j c, status_of s j = Some (Sleeping c) → select_response db (c_steam_id c) = None)
  ∧ (∀ j c nth, status_of s j = Some (Requesting c nth) →
                select_response db (c_steam_id c) = None).
Proof.
  intros Hrun.
  assert (chunks_bounded (Z.to_nat (simultaneous_requests (args E))) s
          ∧ requests_numbered s ∧ rows_requested db s ∧ misses_only db s)
    as (_ & _ & _ & Hsleep & Hreq & Hlog).
  { refine (run_ind E (λ s, chunks_bounded (Z.to_nat (simultaneous_requests (args E))) s
                            ∧ requests_numbered s ∧ rows_requested db s
                            ∧ misses_only db s)
                    _ schedule _ s Hrun _).
    - intros i s1 s2 Hstep (Hb & Hnum & Hrows & Hmiss).
      split; [by apply (chunks_bounded_step E i s1)|].
      split; [by apply (requests_numbered_step E i s1)|].
      split; [by apply (rows_requested_step E db i s1)|].
      by apply (misses_only_step E db i s1).
    - split; [apply chunks_bounded_initial|]. split.
      { intros [|[|j]] c nth; done. }
      split.
      { exists []. split; [by rewrite app_nil_r|constructor]. }
      split; [by intros [|[|j]] c|]. split; [by intros [|[|j]] c nth|].
      by intros key ?%elem_of_nil. }
  done.
Qed.

Lemma cached_accounts_are_not_requested_witness :
  ∃ s, run (world "A" 3 2 ["D"] diamond) [0; 1; 2; 1; 2]
           (initial (world "A" 3 2 ["D"] diamond)
                    [("A", Some (Dumped (Some (friends_named ["B"; "C"]))))]) = Some s
       ∧ requests (log s) = ["B"; "C"]
       ∧ ∀ key, key ∈ requests (log s) →
                select_response [("A", Some (Dumped (Some (friends_named ["B"; "C"]))))] key
                = None.
Proof.
  eexists. split; [vm_compute; reflexivity|]. split; [vm_compute; reflexivity|].
  refine (proj1 (cached_accounts_are_not_requested (world "A" 3 2 ["D"] diamond) _
                   [0; 1; 2; 1; 2] _ _)).
  vm_compute. reflexivity.
Defined.

(** ** The prompt *)

Section prompt.
Context (E : Env).
Implicit Types (s : state) (c : call) (i j : nat) (t : task).

Lemma log_expand_no_prompt i c r raw cached s :
  ∃ l, log (expand E i c r raw cached s) = log s ++ l ∧ Forall (λ ev, ev ≠ EvInput) l.
Proof.
  destruct (log_expand E i c r raw cached s) as (ids & ->).
  eexists. split; [done|]. apply Forall_fmap, Forall_true. done.
Qed.

Lemma log_acquire_no_prompt i c s :
  ∃ l, log (acquire E i c s) = log s ++ l ∧ Forall (λ ev, ev ≠ EvInput) l.
Proof.
  unfold acquire. case_bool_decide.
  { exists []. by rewrite app_nil_r. }
  cbn zeta. destruct (select_response _ _) as [cached|].
  - destruct (load_cached cached) as [ex|raw].
    + eexists. split; [done|]. by repeat constructor.
    + destruct (log_expand_no_prompt i c FromCache raw true
                  (emit (EvSelect (c_steam_id c)) s)) as (l & -> & Hq).
      exists ([EvSelect (c_steam_id c)] ++ l). simpl. rewrite <-app_assoc.
      split; [done|]. by constructor.
  - destruct (cached_only (args E)); simpl;
      (eexists; split; [try rewrite <-app_assoc; done|]); by repeat constructor.
Qed.

Lemma log_uncaught_no_prompt i s :
  ∃ l, log (uncaught i s) = log s ++ l ∧ Forall (λ ev, ev ≠ EvInput) l.
Proof.
  destruct (log_uncaught_app i s) as (l & Hl & Hq). exists l. split; [done|].
  apply Forall_forall. by intros ev ->%Hq.
Qed.

Lemma no_prompt_in l : Forall (λ ev, ev ≠ EvInput) l → EvInput ∉ l.
Proof. rewrite Forall_forall. intros H Hin. by apply (H EvInput). Qed.

End prompt.

(** X22.  A step stops at the prompt of line 205 exactly when it is the
    first run of a call on Gabe Newell's id, the id being a target, and the
    call was made from a friend list that Steam had just sent rather than
    from a row of the table.  No other step asks for input; the first call
    never does. *)
Theorem prompt_only_for_gabe_newell (E : Env) (i : nat) (s s' : state) :
  step E i s = Some s' →
  ∃ l, log s' = log s ++ l
       ∧ (EvInput ∈ l ↔
          ∃ c, status_of s i = Some (Created c)
               ∧ c_steam_id c ∈ target_steam_ids E ∧ c_steam_id c = gaben_steam_id E
               ∧ ∃ friend_index previous_level_friends_length previous_meta,
                   c_meta c = MetaOf friend_index previous_level_friends_length
                                     previous_meta false).
Proof.
  unfold step. destruct (exit_status s); [done|].
  destruct (status_of s i) as [[c|c|c nth|c r chunk rest| |e]|] eqn:Hi; try done;
    intros ?; simplify_eq;
    try match goal with |- context [uncaught i ?x] =>
      destruct (log_uncaught_no_prompt i x) as (l' & -> & Hq') end.
  - unfold start, target_check, gaben_notice.
    destruct (bool_decide (c_steam_id c ∈ target_steam_ids E)) eqn:Ht.
    2: { destruct (log_acquire_no_prompt E i c s) as (l & -> & Hq).
         exists (l ++ l'). rewrite <-app_assoc. split; [done|]. split.
         - intros Hin. destruct (no_prompt_in (l ++ l')); [by apply Forall_app|done].
         - intros (c0 & [= <-] & Htarget & _).
           apply bool_decide_eq_false in Ht. done. }
    apply bool_decide_eq_true in Ht.
    destruct (bool_decide (c_steam_id c = gaben_steam_id E)) eqn:Hg.
    2: { destruct (log_acquire_no_prompt E i c
                     (with_finds (record_find (finds s) (c_steam_id c) (c_steam_ids_tally c)
                                              (c_depth c)) s)) as (l & -> & Hq).
         exists (l ++ l'). simpl. rewrite <-app_assoc. split; [done|]. split.
         - intros Hin. destruct (no_prompt_in (l ++ l')); [by apply Forall_app|done].
         - intros (c0 & [= <-] & _ & Hgabe & _).
           apply bool_decide_eq_false in Hg. done. }
    apply bool_decide_eq_true in Hg.
    destruct (c_meta c) as [|fi pl pm [|]] eqn:Hmeta.
    + exists l'. split; [done|]. split.
      * intros Hin. by destruct (no_prompt_in l').
      * intros (c0 & [= <-] & _ & _ & fi & pl & pm & Hm). congruence.
    + match goal with |- context [acquire E i c ?x] =>
        destruct (log_acquire_no_prompt E i c x) as (l & -> & Hq) end.
      exists (l ++ l'). simpl. rewrite <-app_assoc. split; [done|]. split.
      * intros Hin. destruct (no_prompt_in (l ++ l')); [by apply Forall_app|done].
      * intros (c0 & [= <-] & _ & _ & fi' & pl' & pm' & Hm). congruence.
    + match goal with |- context [acquire E i c ?x] =>
        destruct (log_acquire_no_prompt E i c x) as (l & -> & Hq) end.
      exists ([EvInput] ++ l ++ l'). simpl. rewrite <-!app_assoc. split; [done|]. split.
      * intros _. exists c. split; [done|]. split; [done|]. split; [done|].
        by exists fi, pl, pm.
      * intros _. by left.
  - exists ([EvGet (c_steam_id c)] ++ l'). simpl. rewrite <-app_assoc. split; [done|].
    split.
    + intros Hin. destruct (no_prompt_in ([EvGet (c_steam_id c)] ++ l')); [|done].
      by constructor.
    + intros (c0 & ? & _). congruence.
  - assert (∃ l, log (deliver E i c nth s) = log s ++ l ∧ Forall (λ ev, ev ≠ EvInput) l)
      as (l & -> & Hq).
    { unfold deliver. destruct (get_friend_list E nth (c_steam_id c)) as [r|].
      2: { exists []. by rewrite app_nil_r. }
      destruct (json r) as [raw|].
      2: { exists []. by rewrite app_nil_r. }
      match goal with |- context [expand E i c ?a ?b ?d ?x] =>
        destruct (log_expand_no_prompt E i c a b d x) as (l & -> & Hq) end.
      exists ([EvInsert (c_steam_id c)] ++ l). simpl. rewrite <-app_assoc.
      split; [done|]. by constructor. }
    exists (l ++ l'). rewrite <-app_assoc. split; [done|]. split.
    + intros Hin. destruct (no_prompt_in (l ++ l')); [by apply Forall_app|done].
    + intros (c0 & ? & _). congruence.
  - unfold resume in *. destruct (all_completed s chunk); [|done].
    destruct (any_exception s chunk); simplify_eq/=;
      match goal with |- context [uncaught i ?x] =>
        destruct (log_uncaught_no_prompt i x) as (l' & -> & Hq') end.
    + exists ([EvExit 1%Z] ++ l'). simpl. rewrite <-app_assoc. split; [done|]. split.
      * intros Hin. destruct (no_prompt_in ([EvExit 1%Z] ++ l')); [|done].
        by constructor.
      * intros (c0 & ? & _). congruence.
    + rewrite log_next_chunk, <-app_assoc. eexists. split; [done|]. split.
      * intros Hin. eapply no_prompt_in in Hin; [done|].
        apply Forall_app. split; [|done]. apply Forall_fmap, Forall_true. done.
      * intros (c0 & ? & _). congruence.
Qed.


Lemma prompt_only_for_gabe_newell_witness :
  ∃ s s',
    run (world "A" 6 2 ["76561197960287930"] [("A", ["76561197960287930"])]) [0; 0; 0]
        (initial (world "A" 6 2 ["76561197960287930"] [("A", ["76561197960287930"])]) [])
    = Some s
    ∧ step (world "A" 6 2 ["76561197960287930"] [("A", ["76561197960287930"])]) 1 s
      = Some s'
    ∧ log s' = log s ++ [EvInput; EvSelect "76561197960287930";
                         EvSleep (QArith_base.Qmake 2 3)]
    ∧ ∃ l, log s' = log s ++ l
           ∧ (EvInput ∈ l ↔
              ∃ c, status_of s 1 = Some (Created c)
                   ∧ c_steam_id c
                     ∈ target_steam_ids
                         (world "A" 6 2 ["76561197960287930"] [("A", ["76561197960287930"])])
                   ∧ c_steam_id c
                     = gaben_steam_id
                         (world "A" 6 2 ["76561197960287930"] [("A", ["76561197960287930"])])
                   ∧ ∃ friend_index previous_level_friends_length previous_meta,
                       c_meta c = MetaOf friend_index previous_level_friends_length
                                         previous_meta false).
Proof.
  eexists. eexists. split; [vm_compute; reflexivity|]. split; [vm_compute; reflexivity|].
  split; [vm_compute; reflexivity|].
  apply (prompt_only_for_gabe_newell
           (world "A" 6 2 ["76561197960287930"] [("A", ["76561197960287930"])]) 1).
  vm_compute. reflexivity.
Defined.

(** ** How a run ends *)

Section endings.
Context (E : Env).
Implicit Types (s : state) (c : call) (i j : nat) (t : task).

Lemma chunks_younger_step i s s' :
  chunks_bounded (Z.to_nat (simultaneous_requests (args E))) s →
  chunks_younger s → step E i s = Some s' → chunks_younger s'.
Proof.
  intros Hb Hy Hstep.
  destruct (step_pool E i s s' Hb Hstep)
    as (t0 & Hi & _ & _ & [[Hpool _]|(t & chunk & Hpool & Ht & _)]).
  { intros p c r chk rest. unfold status_of. rewrite Hpool. apply Hy. }
  pose proof (status_of_lt s i t0 Hi) as Hlt.
  assert (Hlen : length (pool s') = length (pool s) + length chunk).
  { rewrite Hpool, length_alter, length_app. unfold spawned. by rewrite length_fmap. }
  intros p c r chk rest. rewrite (status_of_alter i p t _ s' Hpool), Hlen.
  case_decide as Hip.
  - subst p. destruct ((pool s ++ spawned i chunk) !! i); [|done].
    intros [= ->]. destruct Ht as [-> _]. intros j Hj%elem_of_seq. lia.
  - destruct (decide (p < length (pool s))) as [Hp|Hp].
    + rewrite lookup_app_l by done. intros Hw j Hj.
      specialize (Hy p c r chk rest Hw j Hj). lia.
    + rewrite lookup_app_r by lia.
      destruct (spawned i chunk !! (p - length (pool s))) as [e|] eqn:He; [|done].
      apply lookup_spawned_parent in He as (_ & c0 & Hc0). simpl. by rewrite Hc0.
Qed.

Lemma reachable_chunks_younger s : reachable E s → chunks_younger s.
Proof.
  intros (db & schedule & Hrun).
  refine (proj2 (run_ind E (λ s, chunks_bounded (Z.to_nat (simultaneous_requests (args E))) s
                                 ∧ chunks_younger s) _ schedule _ s Hrun _)).
  - intros i s1 s2 Hstep [Hb Hy].
    split; [by apply (chunks_bounded_step E i s1) | by apply (chunks_younger_step i s1)].
  - split; [apply chunks_bounded_initial|]. intros [|[|p]] c r chunk rest; done.
Qed.

(** While the process runs, a task that has not settled and cannot run
    awaits a task that has not settled. *)
Lemma stuck_task_awaits i s t :
  exit_status s = None → status_of s i = Some t → is_settled t = false →
  step E i s = None →
  ∃ c r chunk rest j,
    t = Waiting c r chunk rest ∧ j ∈ chunk
    ∧ ∀ t', status_of s j = Some t' → is_settled t' = false.
Proof.
  intros Hexit Hi Ht. unfold step. rewrite Hexit, Hi.
  destruct t as [c|c|c nth|c r chunk rest| |e]; try done.
  unfold resume. destruct (all_completed s chunk) eqn:Hall.
  { by destruct (any_exception s chunk). }
  intros _. exists c, r, chunk, rest.
  assert (¬ ∀ j, j ∈ chunk → ∃ t, status_of s j = Some t ∧ is_settled t = true) as Hnot.
  { rewrite <-all_completed_spec. by rewrite Hall. }
  assert (∃ j, j ∈ chunk ∧ ∀ t', status_of s j = Some t' → is_settled t' = false)
    as (j & Hj & Hs).
  { clear Hall Hi Ht. induction chunk as [|k chunk IH].
    - destruct Hnot. by intros j ?%elem_of_nil.
    - destruct (status_of s k) as [tk|] eqn:Hk.
      + destruct (is_settled tk) eqn:Hsk.
        * assert (¬ ∀ j, j ∈ chunk → ∃ t, status_of s j = Some t ∧ is_settled t = true)
            as Hnot'.
          { intros Hall. apply Hnot. intros j [->|Hj]%elem_of_cons; eauto. }
          destruct (IH Hnot') as (j & Hj & Hs).
          exists j. split; [by right|done].
        * exists k. split; [by left|]. intros t'. rewrite Hk. by intros [= <-].
      + exists k. split; [by left|]. intros t'. by rewrite Hk. }
  by exists j.
Qed.

End endings.

(** X24.  A run cannot hang on a batch: in a state where the process has
    not exited and no task can run, every call of [find] has returned, the
    first one too; none is still waiting and none has raised. *)
Theorem runs_end_with_every_call_returned (E : Env) (s : state) :
  reachable E s →
  quiescent E s →
  exit_status s = None →
  ∀ j t, status_of s j = Some t → t = Returned.
Proof.
  intros Hreach Hq Hexit.
  pose proof (reachable_chunks_younger E s Hreach) as Hy.
  destruct (reachable_errors E s Hreach) as (_ & _ & Ho & Hr & _ & Hroot).
  rewrite quiescent_spec in Hq.
  assert (Hsettled : ∀ k j t, length (pool s) - j ≤ k →
                              status_of s j = Some t → is_settled t = true).
  { induction k as [|k IH]; intros j t Hk Hj.
    - apply status_of_lt in Hj. lia.
    - destruct (is_settled t) eqn:Ht; [done|].
      destruct (stuck_task_awaits E j s t Hexit Hj Ht (Hq j))
        as (c & r & chunk & rest & j' & -> & Hj' & Hs).
      destruct (Hy j c r chunk rest Hj j' Hj') as [Hlt Hlen].
      destruct (lookup_lt_is_Some_2 (pool s) j' Hlen) as [e He].
      assert (status_of s j' = Some (status e)) as Hst.
      { unfold status_of. by rewrite He. }
      pose proof (Hs _ Hst) as Hfalse.
      rewrite (IH j' (status e)) in Hfalse; [done | lia | done]. }
  intros j t Hj.
  pose proof (Hsettled (length (pool s)) j t ltac:(lia) Hj) as Ht.
  destruct t as [c|c|c nth|c r chunk rest| |e]; try done.
  unfold status_of in Hj. destruct (pool s !! j) as [e0|] eqn:He0; [|done].
  simpl in Hj. injection Hj as Hj.
  pose proof (Ho j e0 He0) as Hp. destruct (parent e0) as [p|] eqn:Hpe.
  - destruct (Hr Hexit j e0 p e He0 Hpe Hj) as (c & r & chunk & rest & Hw & _).
    by pose proof (Hsettled (length (pool s)) p _ ltac:(lia) Hw).
  - subst j. assert (status_of s 0 = Some (Raised e)) as Hs0.
    { unfold status_of. by rewrite He0, <-Hj. }
    apply Hroot in Hs0. congruence.
Qed.

Lemma runs_end_with_every_call_returned_witness :
  ∃ s, run (world "A" 3 2 ["D"] diamond)
           [0; 0; 0; 1; 2; 1; 2; 2; 1; 4; 3; 4; 3; 3; 4; 1; 2; 0]
           (initial (world "A" 3 2 ["D"] diamond) []) = Some s
       ∧ length (pool s) = 5
       ∧ ∀ j t, status_of s j = Some t → t = Returned.
Proof.
  eexists. split; [vm_compute; reflexivity|]. split; [vm_compute; reflexivity|].
  apply (runs_end_with_every_call_returned (world "A" 3 2 ["D"] diamond)).
  - exists [], [0; 0; 0; 1; 2; 1; 2; 2; 1; 4; 3; 4; 3; 3; 4; 1; 2; 0].
    vm_compute. reflexivity.
  - vm_compute. reflexivity.
  - vm_compute. reflexivity.
Defined.

(** ** The initial account as a target *)

Lemma found_at_once_step (E : Env) i s s' key f :
  pool_inv E depth_is_length s → step E i s = Some s' →
  finds s !! key = Some f → found_at_once key f →
  ∃ f', finds s' !! key = Some f' ∧ found_at_once key f'.
Proof.
  intros Hp Hstep Hf (others & ->).
  destruct (step_registry_record E i s s' key _ Hstep Hf) as [->|(c & Hi & _ & _ & ->)].
  { eexists. split; [done|]. by exists others. }
  assert (Hc : depth_is_length c).
  { by apply (pool_inv_lookup E depth_is_length s i (Created c)). }
  rewrite bool_decide_eq_false_2 by (rewrite Hc; simpl; lia).
  eexists. split; [done|]. by exists (others ++ [c_steam_ids_tally c]).
Qed.

(** X25.  When the initial account is a target other than Gabe Newell's
    id, it is found by the first step and stays found that way: in every
    later state of the run its record has depth 0, the empty chain as its
    first chain, and has replaced no other record. *)
Theorem initial_target_stays_at_depth_zero (E : Env) (db : friend_lists_table)
    (schedule : list nat) (s : state) :
  initial_steam_id (args E) ∈ target_steam_ids E →
  initial_steam_id (args E) ≠ gaben_steam_id E →
  run E (0 :: schedule) (initial E db) = Some s →
  ∃ others,
    finds s !! initial_steam_id (args E)
    = Some (mkFind (initial_steam_id (args E)) ([] :: others) 0 None).
Proof.
  intros Ht Hg Hrun. cbn [run] in Hrun.
  destruct (step E 0 (initial E db)) as [s1|] eqn:Hstep; [|done].
  assert (Hp0 : pool_inv E depth_is_length (initial E db)) by by repeat constructor.
  assert (Hf1 : finds s1 !! initial_steam_id (args E)
                = Some (mkFind (initial_steam_id (args E)) [[]] 0 None)).
  { rewrite (step_created_finds E 0 (initial E db) _ s1 eq_refl Hstep).
    unfold target_check, gaben_notice. simpl.
    rewrite bool_decide_eq_true_2, bool_decide_eq_false_2 by done. simpl.
    unfold record_find. rewrite lookup_empty. apply lookup_insert_eq. }
  assert (pool_inv E depth_is_length s
          ∧ ∃ f, finds s !! initial_steam_id (args E) = Some f
                 ∧ found_at_once (initial_steam_id (args E)) f)
    as (_ & f & Hf & others & ->); [|by exists others].
  refine (run_ind E (λ s, pool_inv E depth_is_length s
                          ∧ ∃ f, finds s !! initial_steam_id (args E) = Some f
                                 ∧ found_at_once (initial_steam_id (args E)) f)
                  _ schedule s1 s Hrun _).
  - intros i s2 s3 Hstep23 (Hp & f & Hf & Hshape). split.
    + by apply (pool_inv_step E depth_is_length (depth_is_length_made E) i s2).
    + by apply (found_at_once_step E i s2 s3 _ f).
  - split.
    + by apply (pool_inv_step E depth_is_length (depth_is_length_made E) 0 (initial E db)).
    + eexists. split; [done|]. by exists [].
Qed.

Lemma initial_target_stays_at_depth_zero_witness :
  ∃ s, run (world "A" 6 2 ["A"] ring) [0; 0; 0; 1; 1; 1; 4; 4; 4; 6; 6; 6; 8]
           (initial (world "A" 6 2 ["A"] ring) []) = Some s
       ∧ ∃ others, finds s !! "A" = Some (mkFind "A" ([] :: others) 0 None).
Proof.
  eexists. split; [vm_compute; reflexivity|].
  apply (initial_target_stays_at_depth_zero (world "A" 6 2 ["A"] ring) []
           [0; 0; 1; 1; 1; 4; 4; 4; 6; 6; 6; 8]).
  - by_compute.
  - simpl. discriminate.
  - vm_compute. reflexivity.
Defined.

(** ** The delay before a request *)

Lemma sleeps_app l1 l2 : sleeps (l1 ++ l2) = sleeps l1 ++ sleeps l2.
Proof. apply omap_app. Qed.

Lemma asleep_app l1 l2 : asleep (l1 ++ l2) = asleep l1 + asleep l2.
Proof. unfold asleep. by rewrite filter_app, length_app. Qed.

Lemma asleep_spawned i chunk : asleep (spawned i chunk) = 0.
Proof. induction chunk as [|c chunk IH]; [done|]. exact IH. Qed.

Lemma asleep_alter i t (l : list entry) e :
  l !! i = Some e →
  asleep (alter (set_entry t) i l) + (if is_asleep (status e) then 1 else 0)
  = asleep l + (if is_asleep t then 1 else 0).
Proof.
  revert i. induction l as [|x l IH]; intros [|i] Hi; simplify_eq/=.
  - unfold asleep. rewrite !filter_cons. simpl.
    destruct (is_asleep t), (is_asleep (status e));
      repeat case_decide; simpl; try done; lia.
  - specialize (IH i Hi). unfold asleep in *. rewrite !filter_cons.
    case_decide; simpl; lia.
Qed.

Section rate.
Context (E : Env).
Implicit Types (s : state) (c : call) (i j : nat) (t : task).

Lemma sleeps_uncaught i s : sleeps (log (uncaught i s)) = sleeps (log s).
Proof.
  destruct (log_uncaught i s) as [->| ->]; [done|].
  rewrite sleeps_app. simpl. by rewrite app_nil_r.
Qed.

Lemma sleeps_expand i c r raw cached s :
  sleeps (log (expand E i c r raw cached s)) = sleeps (log s).
Proof.
  destruct (log_expand E i c r raw cached s) as (ids & ->).
  rewrite sleeps_app. assert (sleeps (EvCreateTask i <$> ids) = []) as ->.
  { by induction ids. }
  by rewrite app_nil_r.
Qed.

Lemma sleeps_next_chunk i c r chunks s :
  sleeps (log (next_chunk i c r chunks s)) = sleeps (log s).
Proof.
  rewrite log_next_chunk, sleeps_app.
  assert (∀ ids, sleeps (EvCreateTask i <$> ids) = []) as ->.
  { intros ids. by induction ids. }
  by rewrite app_nil_r.
Qed.

(** The new state of the task is known: what is left is arithmetic on the
    logs. *)
Local Ltac settled :=
  (split; [reflexivity|]); simpl;
  rewrite ?sleeps_app, ?requests_app, ?length_app; simpl;
  rewrite ?app_nil_r, ?Nat.add_0_r; done.

(** What a step adds to the delays slept, the requests sent and the tasks
    asleep: a first run that finds no row sleeps [--request_delay]; a task
    that wakes up sends its request; nothing else sleeps. *)
Lemma step_sleeps i s s' t0 :
  step E i s = Some s' → status_of s i = Some t0 →
  ∃ t, status_of s' i = Some t
       ∧ sleeps (log s')
         = sleeps (log s) ++ (if is_asleep t then [request_delay (args E)] else [])
       ∧ length (requests (log s'))
         = length (requests (log s)) + (if is_asleep t0 then 1 else 0)
       ∧ (is_asleep t0 = true → is_asleep t = false).
Proof.
  unfold step. destruct (exit_status s); [done|]. intros Hstep Hi. rewrite Hi in Hstep.
  destruct t0 as [c|c|c nth|c r chunk rest| |e]; try done; simplify_eq/=;
    rewrite ?status_of_uncaught, ?sleeps_uncaught, ?requests_log_uncaught.
  - rewrite requests_log_start, Nat.add_0_r. unfold start.
    destruct (target_check E c s) as [ex|s1] eqn:Htc.
    { eexists. rewrite status_of_raise, decide_True, Hi by done. settled. }
    apply target_check_inr in Htc as (_ & Hpool & _ & Hlog & _).
    assert (Hi1 : status_of s1 i = Some (Created c)).
    { unfold status_of. by rewrite Hpool. }
    assert (Hsl : sleeps (log s1) = sleeps (log s)).
    { destruct Hlog as [->| ->]; [done|]. rewrite sleeps_app. simpl. by rewrite app_nil_r. }
    rewrite <-Hsl. unfold acquire. case_bool_decide.
    { eexists. rewrite status_of_set_status, decide_True, Hi1 by done. settled. }
    cbn zeta. destruct (select_response _ _) as [cached|].
    + destruct (load_cached cached) as [ex|raw].
      * eexists. rewrite status_of_raise, decide_True, status_of_emit, Hi1 by done.
        settled.
      * destruct (pool_expand E i c FromCache raw true (emit (EvSelect (c_steam_id c)) s1))
          as (t & chk & Hp & Ht).
        exists t. rewrite (status_of_run i _ t _ _ _ Hp Hi1), sleeps_expand.
        destruct t; try done; settled.
    + destruct (cached_only (args E)); eexists;
        rewrite status_of_set_status, decide_True by done; simpl;
        rewrite ?status_of_emit, Hi1; settled.
  - eexists. unfold wake.
    rewrite status_of_set_status, decide_True, status_of_emit, Hi by done. settled.
  - rewrite requests_log_deliver, Nat.add_0_r. unfold deliver.
    destruct (get_friend_list E nth (c_steam_id c)) as [r|].
    2: { eexists. rewrite status_of_raise, decide_True, Hi by done. settled. }
    destruct (json r) as [raw|].
    2: { eexists. rewrite status_of_raise, decide_True, Hi by done. settled. }
    match goal with |- context [expand E i c ?a ?b ?d ?x] =>
      destruct (pool_expand E i c a b d x) as (t & chk & Hp & Ht) end.
    exists t. rewrite (status_of_run i _ t _ _ _ Hp Hi), sleeps_expand.
    destruct t; try done; settled.
  - unfold resume in *. destruct (all_completed s chunk); [|done].
    destruct (any_exception s chunk); simplify_eq/=;
      rewrite status_of_uncaught, sleeps_uncaught, requests_log_uncaught.
    + eexists. split; [unfold status_of in *; simpl; by rewrite Hi|]. simpl.
      rewrite sleeps_app, requests_app. simpl. by rewrite !app_nil_r, Nat.add_0_r.
    + destruct rest as [|chk rest]; eexists;
        rewrite (status_of_next_chunk i c r _ s _ Hi), sleeps_next_chunk,
          requests_log_next_chunk; settled.
Qed.

Lemma step_asleep i s s' t0 t :
  chunks_bounded (Z.to_nat (simultaneous_requests (args E))) s →
  step E i s = Some s' → status_of s i = Some t0 → status_of s' i = Some t →
  asleep (pool s') + (if is_asleep t0 then 1 else 0)
  = asleep (pool s) + (if is_asleep t then 1 else 0).
Proof.
  intros Hb Hstep Hi Hi'.
  destruct (step_pool E i s s' Hb Hstep)
    as (t1 & Hi1 & _ & _ & [[Hpool _]|(t' & chunk & Hpool & _)]).
  { assert (t = t0) as ->; [|by rewrite Hpool].
    unfold status_of in *. rewrite Hpool in Hi'. congruence. }
  pose proof (status_of_lt s i t0 Hi) as Hlt.
  assert (t' = t) as ->.
  { rewrite (status_of_run i s' t' _ s t0 Hpool Hi) in Hi'. congruence. }
  destruct (lookup_lt_is_Some_2 (pool s) i Hlt) as [e He].
  assert (status e = t0) as <-.
  { unfold status_of in Hi. rewrite He in Hi. simpl in Hi. congruence. }
  rewrite Hpool, (asleep_alter i t (pool s ++ spawned i chunk) e)
    by by rewrite lookup_app_l.
  by rewrite asleep_app, asleep_spawned, Nat.add_0_r.
Qed.

End rate.

(** X26.  Every request has slept first.  In every state of a run the log
    holds as many sleeps as there are requests sent and tasks still asleep,
    each of exactly [--request_delay]: a call sleeps once, before its own
    request, and nothing else in the traversal sleeps. *)
Theorem every_request_has_slept (E : Env) (db : friend_lists_table)
    (schedule : list nat) (s : state) :
  run E schedule (initial E db) = Some s →
  sleeps (log s)
  = replicate (length (requests (log s)) + asleep (pool s)) (request_delay (args E)).
Proof.
  intros Hrun.
  refine (proj2 (run_ind E
            (λ s, chunks_bounded (Z.to_nat (simultaneous_requests (args E))) s
                  ∧ sleeps (log s)
                    = replicate (length (requests (log s)) + asleep (pool s))
                                (request_delay (args E)))
            _ schedule _ s Hrun _)).
  - intros i s1 s2 Hstep [Hb Hinv].
    split; [by apply (chunks_bounded_step E i s1)|].
    assert (∃ t0, status_of s1 i = Some t0) as (t0 & Hi).
    { unfold step in Hstep. destruct (exit_status s1); [done|].
      destruct (status_of s1 i); [eauto|done]. }
    destruct (step_sleeps E i s1 s2 t0 Hstep Hi) as (t & Hi' & -> & Hreq & Hwake).
    pose proof (step_asleep E i s1 s2 t0 t Hb Hstep Hi Hi') as Hcount.
    rewrite Hinv, Hreq.
    destruct (is_asleep t0) eqn:H0, (is_asleep t) eqn:H1;
      try (by specialize (Hwake eq_refl)).
    + rewrite app_nil_r. f_equal. lia.
    + replace (length (requests (log s1)) + 0 + asleep (pool s2))
        with (S (length (requests (log s1)) + asleep (pool s1))) by lia.
      by rewrite replicate_S_end.
    + rewrite app_nil_r. f_equal. lia.
  - split; [apply chunks_bounded_initial | done].
Qed.

Lemma every_request_has_slept_witness :
  ∃ s, run (world "A" 3 2 ["D"] diamond) [0; 0; 0; 1; 2; 1]
           (initial (world "A" 3 2 ["D"] diamond) []) = Some s
       ∧ requests (log s) = ["A"; "B"] ∧ asleep (pool s) = 1
       ∧ sleeps (log s) = replicate (length (requests (log s)) + asleep (pool s))
                                    (QArith_base.Qmake 2 3).
Proof.
  eexists. split; [vm_compute; reflexivity|]. split; [vm_compute; reflexivity|].
  split; [vm_compute; reflexivity|].
  apply (every_request_has_slept (world "A" 3 2 ["D"] diamond) [] [0; 0; 0; 1; 2; 1]).
  vm_compute. reflexivity.
Defined.

(** ** Runs that may not leave the initial account *)

(** X27.  With [--max_depth] 0 or less a run is one step at most, the
    target check of the initial account: the first call settles at once, the
    table is neither read nor written, nothing is requested, no task is
    created, and the registry holds at most the initial account. *)
Theorem run_without_depth (E : Env) (db : friend_lists_table) (schedule : list nat)
    (s : state) :
  (max_depth (args E) ≤ 0)%Z →
  run E schedule (initial E db) = Some s →
  schedule = [] ∧ s = initial E db
  ∨ schedule = [0]
    ∧ friend_lists s = db ∧ length (pool s) = 1
    ∧ (∃ t, status_of s 0 = Some t ∧ is_settled t = true)
    ∧ Forall (λ ev, ev = EvExit 1%Z) (log s)
    ∧ ∀ key, is_Some (finds s !! key) → key = initial_steam_id (args E).
Proof.
  intros Hmax Hrun. destruct schedule as [|i schedule]; [left; by simplify_eq/=|].
  right. cbn [run] in Hrun.
  destruct (step E i (initial E db)) as [s1|] eqn:Hstep; [|done].
  assert (i = 0) as ->.
  { destruct i as [|i]; [done|]. unfold step, status_of in Hstep. simpl in Hstep.
    by destruct i. }
  assert (Hs1 : friend_lists s1 = db ∧ length (pool s1) = 1
                ∧ (∃ t, status_of s1 0 = Some t ∧ is_settled t = true)
                ∧ Forall (λ ev, ev = EvExit 1%Z) (log s1)
                ∧ ∀ key, is_Some (finds s1 !! key) → key = initial_steam_id (args E)).
  { unfold step in Hstep. simpl in Hstep. injection Hstep as <-.
    rewrite friend_lists_uncaught, pool_uncaught, finds_uncaught.
    destruct (log_uncaught_app 0 (start E 0 (mkCall (initial_steam_id (args E)) [] 0 MetaEmpty)
                                        (initial E db))) as (l' & -> & Hl').
    setoid_rewrite status_of_uncaught. unfold start.
    destruct (target_check E _ (initial E db)) as [ex|s0] eqn:Htc.
    - simpl. repeat split; try done; [by eexists|..].
      + apply Forall_forall. by intros ev ->%Hl'.
      + intros key [f Hf]. by rewrite lookup_empty in Hf.
    - assert (Hlog0 : log s0 = []).
      { unfold target_check, gaben_notice in Htc. simpl in Htc.
        repeat case_match; by simplify_eq/=. }
      apply target_check_inr in Htc as (Hfl & Hpool & _ & _ & Hfinds).
      unfold acquire. rewrite bool_decide_eq_true_2 by (simpl; lia). simpl.
      rewrite Hfl, Hpool, Hfinds, Hlog0. simpl.
      split; [done|]. split; [done|]. split.
      { exists Returned. split; [|done].
        rewrite status_of_set_status, decide_True by done.
        unfold status_of. by rewrite Hpool. }
      split.
      + apply Forall_forall. by intros ev ->%Hl'.
      + intros key [f Hf]. case_bool_decide; [|by rewrite lookup_empty in Hf].
        unfold record_find in Hf. rewrite lookup_empty in Hf.
        destruct (decide (initial_steam_id (args E) = key)) as [<-|Hne]; [done|].
        rewrite lookup_insert_ne in Hf by done. by rewrite lookup_empty in Hf. }
  destruct schedule as [|k schedule].
  { simpl in Hrun. injection Hrun as <-. by split. }
  exfalso. cbn [run] in Hrun.
  destruct Hs1 as (_ & Hlen & (t & Ht & Hset) & _).
  assert (step E k s1 = None) as Hnone; [|by rewrite Hnone in Hrun].
  destruct k as [|k]; [by apply (step_settled E 0 s1 t)|].
  unfold step. destruct (exit_status s1); [done|].
  assert (status_of s1 (S k) = None) as ->; [|done].
  unfold status_of. rewrite lookup_ge_None_2; [done|lia].
Qed.

Lemma run_without_depth_witness :
  ∃ s, run (world "D" 0 2 ["D"] diamond) [0] (initial (world "D" 0 2 ["D"] diamond) [])
       = Some s
       ∧ finds s !! "D" = Some (mkFind "D" [[]] 0 None)
       ∧ friend_lists s = [] ∧ length (pool s) = 1.
Proof.
  eexists. split; [vm_compute; reflexivity|]. split; [vm_compute; reflexivity|].
  destruct (run_without_depth (world "D" 0 2 ["D"] diamond) [] [0] _
              ltac:(simpl; lia) ltac:(vm_compute; reflexivity))
    as [[Hnil _]|(_ & Hfl & Hlen & _)]; [discriminate Hnil|].
  split; [exact Hfl | exact Hlen].
Defined.

(** ** The delay before a profile request *)

Lemma sleeps_stored (players : list player_summary) :
  sleeps ((λ p, EvInsertProfile (steamid_of p)) <$> players) = [].
Proof. by induction players. Qed.

Lemma sleeps_selects ids : sleeps (EvSelectProfile <$> ids) = [].
Proof. by induction ids. Qed.

Lemma fetch_chunk_sleeps (E : Env) r chunk :
  sleeps (resolver_log r)
  = replicate (length (profile_requests (resolver_log r))) (request_delay (args E)) →
  sleeps (resolver_log (fetch_chunk E r chunk))
  = replicate (length (profile_requests (resolver_log (fetch_chunk E r chunk))))
              (request_delay (args E)).
Proof.
  intros Hr. unfold fetch_chunk. destruct (resolver_exit r); [done|].
  destruct (get_player_summaries E chunk) as [players|].
  - destruct (store_profiles_spec players
                (mkResolution (mapped_steam_profiles r) (profiles r)
                   (resolver_log r ++ [EvSleep (request_delay (args E)); EvGetProfiles chunk])
                   None)) as (_ & _ & -> & _).
    simpl. rewrite !sleeps_app, !profile_requests_app, sleeps_stored,
      profile_requests_stored, Hr. simpl.
    rewrite !app_nil_r, length_app. simpl.
    by rewrite Nat.add_1_r, replicate_S_end.
  - simpl. rewrite !sleeps_app, !profile_requests_app, Hr. simpl.
    rewrite !app_nil_r, length_app. simpl.
    by rewrite Nat.add_1_r, replicate_S_end.
Qed.

(** X28.  The resolver sleeps [--request_delay] once before each of its
    requests and at no other time: the delays of its log are as many as its
    requests, the failed one included, each of [--request_delay]. *)
Theorem resolver_sleeps_before_each_request (E : Env) (registry : gmap string Find)
    (table : profiles_table) :
  sleeps (resolver_log (resolve_profiles E registry table))
  = replicate (length (profile_requests (resolver_log (resolve_profiles E registry table))))
              (request_delay (args E)).
Proof.
  destruct (resolve_profiles_chunks E registry table)
    as (mapped & unmapped & chunks & _ & _ & _ & ->).
  assert (∀ r, sleeps (resolver_log r)
               = replicate (length (profile_requests (resolver_log r)))
                           (request_delay (args E)) →
               sleeps (resolver_log (foldl (fetch_chunk E) r chunks))
               = replicate (length (profile_requests
                                      (resolver_log (foldl (fetch_chunk E) r chunks))))
                           (request_delay (args E))) as Hfold.
  { induction chunks as [|chunk chunks IH]; intros r Hr; [done|].
    simpl. by apply IH, fetch_chunk_sleeps. }
  apply Hfold. simpl. by rewrite sleeps_selects, profile_requests_selects.
Qed.

(** ** Why a traversal exits *)

Lemma exit_uncaught_raised i s code :
  exit_status s = None → exit_status (uncaught i s) = Some code →
  code = 1%Z ∧ ∃ e, status_of (uncaught i s) i = Some (Raised e).
Proof.
  intros Hexit. rewrite status_of_uncaught. unfold uncaught, status_of.
  destruct (pool s !! i) as [[[p|] t]|]; simpl; try congruence.
  destruct t; simpl; try congruence. intros [= <-]. eauto.
Qed.

Lemma step_exit_raised (E : Env) i s s' code :
  step E i s = Some s' → exit_status s' = Some code →
  code = 1%Z ∧ ∃ j e, status_of s' j = Some (Raised e).
Proof.
  unfold step. destruct (exit_status s) eqn:Hexit; [done|].
  destruct (status_of s i) as [[c|c|c nth|c r chunk rest| |e]|] eqn:Hi; try done;
    intros ?; simplify_eq.
  - intros Hx. apply exit_uncaught_raised in Hx as [-> [e He]]; [eauto|].
    by rewrite exit_status_start.
  - intros Hx. apply exit_uncaught_raised in Hx as [-> [e He]]; [eauto|done].
  - intros Hx. apply exit_uncaught_raised in Hx as [-> [e He]]; [eauto|].
    by rewrite exit_status_deliver.
  - unfold resume in *. destruct (all_completed s chunk); [|done].
    destruct (any_exception s chunk) eqn:Hany; simplify_eq/=.
    + intros Hx. apply any_exception_spec in Hany as (j & e & _ & Hj). split.
      * unfold uncaught in Hx. repeat case_match; simpl in Hx; congruence.
      * exists j, e. by rewrite status_of_uncaught.
    + intros Hx. apply exit_uncaught_raised in Hx as [-> [e He]]; [eauto|].
      by rewrite exit_status_next_chunk.
Qed.

(** X29.  The traversal ends the process only over an error: in a state
    where the process has exited the status is 1 and some call of [find]
    has raised. *)
Theorem exit_means_a_call_raised (E : Env) (s : state) (code : Z) :
  reachable E s →
  exit_status s = Some code →
  code = 1%Z ∧ ∃ j e, status_of s j = Some (Raised e).
Proof.
  intros (db & schedule & Hrun). revert code.
  refine (run_ind E (λ s, ∀ code, exit_status s = Some code →
                                  code = 1%Z ∧ ∃ j e, status_of s j = Some (Raised e))
                  _ schedule _ s Hrun _).
  - intros i s1 s2 Hstep _ code. by apply (step_exit_raised E i s1).
  - by intros code.
Qed.

Lemma exit_means_a_call_raised_witness :
  ∃ s, run (unplugged (world "A" 3 2 ["D"] diamond)) [0; 0; 0]
           (initial (unplugged (world "A" 3 2 ["D"] diamond)) []) = Some s
       ∧ exit_status s = Some 1%Z
       ∧ ∃ j e, status_of s j = Some (Raised e).
Proof.
  eexists. split; [vm_compute; reflexivity|]. split; [vm_compute; reflexivity|].
  refine (proj2 (exit_means_a_call_raised (unplugged (world "A" 3 2 ["D"] diamond))
                   _ 1 _ _)).
  - exists [], [0; 0; 0]. vm_compute. reflexivity.
  - vm_compute. reflexivity.
Defined.
